(** * M5-StepMotorDriver: the four example sketches, embedded and verified

    The repository holds four Arduino sketches for the M5Stack Core (ESP32)
    with the Module 13.2 stepper driver:

    - [2MotorControlBasic.cpp] and [2MotorControlBasic16Step.cpp]
      (module [Basic]; they differ in [MICRO_STEPS] only),
    - [2MotorControlBasic16StepAdjSpeed.cpp] (module [AdjSpeed]),
    - [2MotorControlBasic16StepAdj-spd-rev-accel.cpp] (module [SpdRevAccel]).

    The sketches are sequential programs over a handful of global variables.
    They talk to three libraries (FastAccelStepper, M5Unified,
    Module_Stepmotor) whose code is not part of the repository: every call
    into them is recorded as an [event] in a trace, and the two calls whose
    answer the sketches branch on ([stepperConnectToPin] and [isRunning])
    take their answer from an [environment]. *)

From Stdlib Require Import ZArith Lia.
From stdpp Require Import base list strings.

Open Scope Z_scope.

(** ** Machine integers

    The sketches are built for the M5Stack Core, an ESP32 (platform
    [espressif32], board [m5stack-core-esp32] in the build file quoted at
    the head of [2MotorControlBasic.cpp]).  There [int] and [long] are both
    32 bits wide and [int32_t] is [long], which is why the sketches print
    an [int32_t] with [%ld].  Arithmetic on them is written with its
    wrap-around. *)

Definition INT_BITS : Z := 32.
Definition LONG_BITS : Z := 32.

Definition wrap (bits z : Z) : Z :=
  (z + 2 ^ (bits - 1)) mod 2 ^ bits - 2 ^ (bits - 1).

Definition in_range (bits z : Z) : Prop :=
  - 2 ^ (bits - 1) <= z < 2 ^ (bits - 1).

Definition wrap_int : Z -> Z := wrap INT_BITS.
Definition wrap_long : Z -> Z := wrap LONG_BITS.

(** ** Calls into the libraries *)

(** [FastAccelStepper*]: a stepper object, bound to its step pin. *)
Inductive FastAccelStepper := StepperOnPin (step_pin : Z).

(** Methods of [FastAccelStepper] the sketches call on [steppers[i]].
    [isRunning] carries the answer the library gave. *)
Inductive stepper_call :=
| setDirectionPin (pin : Z)
| setAutoEnable (b : bool)
| setAcceleration (a : Z)
| setSpeedInHz (hz : Z)
| move (steps : Z)
| stopMove
| isRunning (answer : bool).

Inductive lcd_call :=
| Lcd_setTextSize (n : Z)
| Lcd_setRotation (n : Z)
| Lcd_fillScreen (color : Z)
| Lcd_fillRect (x y w h color : Z)
| Lcd_setCursor (x y : Z)
| Lcd_println (s : string)
| Lcd_printf (fmt : string) (args : list Z).

Inductive board_call :=
| M5_begin
| M5_update
| Serial_begin (baud : Z)
| engine_init
| Wire_begin (sda scl freq : Z)
| driver_init
| driver_resetMotor (id : Z) (v : Z)
| driver_enableMotor (en : Z).

Inductive event :=
| EvStepper (i : nat) (c : stepper_call)
| EvDelay (ms : Z)
| EvSerial_println (s : string)
| EvSerial_printf (fmt : string) (args : list Z)
| EvLcd (c : lcd_call)
| EvBoard (c : board_call).

Definition BLACK : Z := 0.

(** What the libraries answer.  [lib_isRunning i tr] is the answer of
    [steppers[i]->isRunning()] when the calls made so far are [tr];
    [lib_connect pin] tells whether [engine.stepperConnectToPin(pin)]
    returns a stepper (or a null pointer). *)
Record environment := mkEnvironment {
  lib_isRunning : nat -> list event -> bool;
  lib_connect : Z -> bool
}.

(** ** The globals of the sketches

    One record for the four sketches; a sketch that does not declare a
    variable never reads or writes its field. *)
Record state := mkState {
  steppers : list (option FastAccelStepper);  (* FastAccelStepper* steppers[2] *)
  pulseCounts : list Z;                        (* long pulseCounts[2] *)
  currentSpeedIndex : Z;                       (* int currentSpeedIndex *)
  accelerationRate : Z;                        (* int accelerationRate *)
  revolutionsPerMove : Z;                      (* int revolutionsPerMove *)
  trace : list event                           (* the library calls made so far *)
}.

Definition set_steppers (v : list (option FastAccelStepper)) (st : state) : state :=
  mkState v (pulseCounts st) (currentSpeedIndex st) (accelerationRate st)
          (revolutionsPerMove st) (trace st).

Definition set_pulseCounts (v : list Z) (st : state) : state :=
  mkState (steppers st) v (currentSpeedIndex st) (accelerationRate st)
          (revolutionsPerMove st) (trace st).

Definition set_currentSpeedIndex (v : Z) (st : state) : state :=
  mkState (steppers st) (pulseCounts st) v (accelerationRate st)
          (revolutionsPerMove st) (trace st).

Definition log (e : event) (st : state) : state :=
  mkState (steppers st) (pulseCounts st) (currentSpeedIndex st)
          (accelerationRate st) (revolutionsPerMove st) (trace st ++ [e]).

(** Both arrays have their two cells. *)
Definition wf (st : state) : Prop :=
  length (steppers st) = 2%nat /\ length (pulseCounts st) = 2%nat.

(** [steppers[i]] is not null. *)
Definition configured (st : state) (i : nat) : Prop :=
  exists s, steppers st !! i = Some (Some s).

(** Reading a constant [int] table.  The sketches only read inside the
    table (see the bounds on [currentSpeedIndex] below); outside of it C++
    leaves the read undefined: this model reads 0 below the table and,
    past its end, the default element of [Z], which is 1 and an entry of
    neither table. *)
Definition table_get (t : list Z) (i : Z) : Z :=
  if decide (0 <= i) then t !!! Z.to_nat i else 0.

(** ** Programs: state passing, with [None] for a wait loop that has not
    come to its end within the given number of rounds *)

Definition prog (A : Type) : Type := state -> option (A * state).

Definition ret {A} (a : A) : prog A := fun st => Some (a, st).

Definition bind {A B} (m : prog A) (k : A -> prog B) : prog B := fun st =>
  match m st with
  | Some (a, st') => k a st'
  | None => None
  end.

Declare Scope prog_scope.
Delimit Scope prog_scope with prog.
Bind Scope prog_scope with prog.
Notation "x ← y ; z" := (bind y (fun x => z))
  (at level 20, y at level 100, z at level 200, only parsing) : prog_scope.
Notation "x ;; z" := (bind x (fun _ => z))
  (at level 100, z at level 200, only parsing, right associativity) : prog_scope.
Open Scope prog_scope.

Definition gets {A} (f : state -> A) : prog A := fun st => Some (f st, st).
Definition modify (f : state -> state) : prog unit := fun st => Some (tt, f st).
Definition emit (e : event) : prog unit := modify (log e).
Definition skip : prog unit := ret tt.
Definition timeout {A} : prog A := fun _ => None.

(** [for (int i = lo; i < lo + n; i++) body(i)] *)
Fixpoint for_range (lo n : nat) (body : nat -> prog unit) : prog unit :=
  match n with
  | O => skip
  | S n' => body lo ;; for_range (S lo) n' body
  end.

(** [if (steppers[i]) { body }] *)
Definition if_stepper (i : nat) (body : prog unit) : prog unit :=
  s ← gets (fun st => steppers st !!! i);
  match s with
  | Some _ => body
  | None => skip
  end.

(** [steppers[i]->c] for a method without a result *)
Definition call (i : nat) (c : stepper_call) : prog unit := emit (EvStepper i c).

(** [pulseCounts[i] += steps] *)
Definition add_pulses (i : nat) (steps : Z) : prog unit :=
  modify (fun st =>
    set_pulseCounts (<[i := wrap_long (pulseCounts st !!! i + steps)]> (pulseCounts st)) st).

Section Waiting.
Variable E : environment.

(** [steppers[i]->isRunning()] *)
Definition call_isRunning (i : nat) : prog bool := fun st =>
  let r := lib_isRunning E i (trace st) in
  Some (r, log (EvStepper i (isRunning r)) st).

(** [steppers[i] && steppers[i]->isRunning()] *)
Definition stepper_running (i : nat) : prog bool :=
  s ← gets (fun st => steppers st !!! i);
  match s with
  | Some _ => call_isRunning i
  | None => ret false
  end.

(** The condition of the wait loop, with the short circuit of [||]. *)
Definition any_running : prog bool :=
  r0 ← stepper_running 0;
  if r0 then ret true else stepper_running 1.

(** [while (any_running) { delay(10); }], for at most [fuel] rounds of
    the body. *)
Fixpoint wait_idle (fuel : nat) : prog unit :=
  r ← any_running;
  if r then
    match fuel with
    | O => timeout
    | S fuel' => emit (EvDelay 10) ;; wait_idle fuel'
    end
  else skip.
End Waiting.

(** [engine.stepperConnectToPin(pin)] *)
Definition stepperConnectToPin (E : environment) (pin : Z) : option FastAccelStepper :=
  if lib_connect E pin then Some (StepperOnPin pin) else None.

Definition X_DIR_PIN : Z := 17.
Definition X_STEP_PIN : Z := 16.
Definition Y_DIR_PIN : Z := 13.
Definition Y_STEP_PIN : Z := 12.
Definition FULL_STEP_PER_REV : Z := 200.

(** The three buttons as [M5.update()] left them: [wasClicked()] of A, B
    and C. *)
Record buttons := mkButtons { BtnA : bool; BtnB : bool; BtnC : bool }.

(** [if (c) { body }] *)
Definition when (c : bool) (body : prog unit) : prog unit :=
  if c then body else skip.

(** [steppers[i]->c], the argument of the call read from the globals *)
Definition call_by (i : nat) (c : state -> stepper_call) : prog unit :=
  x ← gets c; call i x.

(** A print whose arguments are read from the globals. *)
Definition emit_by (e : state -> event) : prog unit :=
  x ← gets e; emit x.

(** [steppers[i] = engine.stepperConnectToPin(pin)] *)
Definition connect (E : environment) (i : nat) (pin : Z) : prog unit :=
  modify (fun st => set_steppers (<[i := stepperConnectToPin E pin]> (steppers st)) st).

(** ** [2MotorControlBasic.cpp] and [2MotorControlBasic16Step.cpp] *)

Module Basic.
Section Sketch.
Variable E : environment.
(** 1 and ["Stepper Ready (Full Step)"] in the first file, 16 and
    ["Stepper Ready (1/16 Step)"] in the second. *)
Variable MICRO_STEPS : Z.
Variable banner : string.

Definition STEPS_PER_REV : Z := FULL_STEP_PER_REV * MICRO_STEPS.

Definition init : state := mkState [None; None] [0; 0] 0 0 0 [].

Definition setup_stepper (i : nat) (dirPin : Z) : prog unit :=
  if_stepper i (
    call i (setDirectionPin dirPin) ;;
    call i (setAutoEnable true) ;;
    call i (setAcceleration 500) ;;
    call i (setSpeedInHz 500)).

Definition setup : prog unit :=
  emit (EvBoard M5_begin) ;;
  emit (EvBoard (Serial_begin 115200)) ;;
  emit (EvLcd (Lcd_setTextSize 2)) ;;
  emit (EvLcd (Lcd_setRotation 1)) ;;
  emit (EvLcd (Lcd_fillScreen BLACK)) ;;
  emit (EvLcd (Lcd_setCursor 0 0)) ;;
  emit (EvLcd (Lcd_println banner)) ;;
  emit (EvBoard engine_init) ;;
  connect E 0 X_STEP_PIN ;;
  connect E 1 Y_STEP_PIN ;;
  setup_stepper 0 X_DIR_PIN ;;
  setup_stepper 1 Y_DIR_PIN ;;
  emit (EvBoard (Wire_begin 21 22 400000)) ;;
  emit (EvBoard driver_init) ;;
  emit (EvBoard (driver_resetMotor 0 0)) ;;
  emit (EvBoard (driver_resetMotor 1 0)) ;;
  emit (EvBoard (driver_enableMotor 1)) ;;
  emit (EvLcd (Lcd_println "A: FWD 1rev  C: REV 1rev")) ;;
  emit (EvLcd (Lcd_println EmptyString)).

Definition moveBothMotors (fuel : nat) (steps : Z) : prog unit :=
  for_range 0 2 (fun i =>
    if_stepper i (
      call i (move steps) ;;
      add_pulses i steps)) ;;
  wait_idle E fuel.

Definition drawStatus : prog unit :=
  emit (EvLcd (Lcd_fillRect 0 40 320 80 BLACK)) ;;
  emit (EvLcd (Lcd_setCursor 0 40)) ;;
  emit_by (fun st => EvLcd (Lcd_printf "X Pulses: %ld\n" [pulseCounts st !!! 0%nat])) ;;
  emit_by (fun st => EvLcd (Lcd_printf "Y Pulses: %ld\n" [pulseCounts st !!! 1%nat])).

Definition loop (fuel : nat) (b : buttons) : prog unit :=
  emit (EvBoard M5_update) ;;
  when (BtnA b) (moveBothMotors fuel STEPS_PER_REV ;; drawStatus) ;;
  when (BtnC b) (moveBothMotors fuel (- STEPS_PER_REV) ;; drawStatus).
End Sketch.
End Basic.

(** ** [2MotorControlBasic16StepAdjSpeed.cpp] *)

Module AdjSpeed.
Section Sketch.
Variable E : environment.

Definition MICRO_STEPS : Z := 16.
Definition STEPS_PER_REV : Z := FULL_STEP_PER_REV * MICRO_STEPS.

Definition speedLevels : list Z := [0; 100; 200; 300; 400; 500].
Definition speedPercentages : list Z := [0; 20; 40; 60; 80; 100].
Definition speedLevelsCount : Z := Z.of_nat (length speedLevels).

Definition init : state := mkState [None; None] [0; 0] 0 0 0 [].

Definition drawInstructions : prog unit :=
  emit (EvLcd (Lcd_fillRect 0 100 320 40 BLACK)) ;;
  emit (EvLcd (Lcd_setCursor 0 100)) ;;
  emit (EvLcd (Lcd_printf "Press B to change speed\n" [])) ;;
  emit_by (fun st => EvLcd (Lcd_printf "Speed: %d%%\n"
             [table_get speedPercentages (currentSpeedIndex st)])).

Definition drawStatus : prog unit :=
  emit (EvLcd (Lcd_fillRect 0 40 320 60 BLACK)) ;;
  emit (EvLcd (Lcd_setCursor 0 40)) ;;
  emit_by (fun st => EvLcd (Lcd_printf "X Pulses: %ld\n" [pulseCounts st !!! 0%nat])) ;;
  emit_by (fun st => EvLcd (Lcd_printf "Y Pulses: %ld\n" [pulseCounts st !!! 1%nat])).

Definition setup : prog unit :=
  emit (EvBoard M5_begin) ;;
  emit (EvBoard (Serial_begin 115200)) ;;
  emit (EvLcd (Lcd_setTextSize 2)) ;;
  emit (EvLcd (Lcd_setRotation 1)) ;;
  emit (EvLcd (Lcd_fillScreen BLACK)) ;;
  emit (EvLcd (Lcd_setCursor 0 0)) ;;
  emit (EvLcd (Lcd_println "Stepper Ready (1/16 Step)")) ;;
  emit (EvLcd (Lcd_println "A: FWD 1rev  C: REV 1rev")) ;;
  emit (EvBoard engine_init) ;;
  connect E 0 X_STEP_PIN ;;
  connect E 1 Y_STEP_PIN ;;
  for_range 0 2 (fun i =>
    if_stepper i (
      let dirPin := if decide (i = 0%nat) then X_DIR_PIN else Y_DIR_PIN in
      call i (setDirectionPin dirPin) ;;
      call i (setAutoEnable true) ;;
      call i (setAcceleration 500) ;;
      call_by i (fun st => setSpeedInHz (table_get speedLevels (currentSpeedIndex st))))) ;;
  emit (EvBoard (Wire_begin 21 22 400000)) ;;
  emit (EvBoard driver_init) ;;
  emit (EvBoard (driver_resetMotor 0 0)) ;;
  emit (EvBoard (driver_resetMotor 1 0)) ;;
  emit (EvBoard (driver_enableMotor 1)) ;;
  drawInstructions ;;
  drawStatus.

Definition moveBothMotors (fuel : nat) (steps : Z) : prog unit :=
  for_range 0 2 (fun i =>
    if_stepper i (
      call i (move steps) ;;
      add_pulses i steps)) ;;
  wait_idle E fuel.

Definition updateSpeed : prog unit :=
  modify (fun st => set_currentSpeedIndex (wrap_int (currentSpeedIndex st + 1)) st) ;;
  idx ← gets currentSpeedIndex;
  when (bool_decide (idx >= speedLevelsCount))
    (modify (set_currentSpeedIndex 0)) ;;
  for_range 0 2 (fun i =>
    if_stepper i (
      call_by i (fun st => setSpeedInHz (table_get speedLevels (currentSpeedIndex st))))) ;;
  drawInstructions.

Definition loop (fuel : nat) (b : buttons) : prog unit :=
  emit (EvBoard M5_update) ;;
  when (BtnA b) (moveBothMotors fuel STEPS_PER_REV ;; drawStatus) ;;
  when (BtnC b) (moveBothMotors fuel (- STEPS_PER_REV) ;; drawStatus) ;;
  when (BtnB b) updateSpeed.
End Sketch.
End AdjSpeed.

(** ** [2MotorControlBasic16StepAdj-spd-rev-accel.cpp] *)

Module SpdRevAccel.
Section Sketch.
Variable E : environment.

Definition MICRO_STEPS : Z := 16.
Definition STEPS_PER_REV : Z := FULL_STEP_PER_REV * MICRO_STEPS.

Definition speedLevels : list Z := [0; 1600; 3200; 4800; 6400; 8000].
Definition speedPercentages : list Z := [0; 20; 40; 60; 80; 100].
Definition speedLevelsCount : Z := Z.of_nat (length speedLevels).

(** [accelerationRate = 2000], [revolutionsPerMove = 5]. *)
Definition init : state := mkState [None; None] [0; 0] 0 2000 5 [].

(** [speedLevels[currentSpeedIndex]] *)
Definition speed (st : state) : Z := table_get speedLevels (currentSpeedIndex st).

Definition drawInstructions : prog unit :=
  emit (EvLcd (Lcd_fillRect 0 100 320 50 BLACK)) ;;
  emit (EvLcd (Lcd_setCursor 0 100)) ;;
  emit (EvLcd (Lcd_printf "Press B to change speed\n" [])) ;;
  emit_by (fun st => EvLcd (Lcd_printf "Speed: %d%%\n"
             [table_get speedPercentages (currentSpeedIndex st)])) ;;
  emit_by (fun st => EvLcd (Lcd_printf "Move %d revolutions\n" [revolutionsPerMove st])) ;;
  emit_by (fun st => EvLcd (Lcd_printf "Accel: %d\n" [accelerationRate st])).

Definition drawStatus : prog unit :=
  emit (EvLcd (Lcd_fillRect 0 40 320 60 BLACK)) ;;
  emit (EvLcd (Lcd_setCursor 0 40)) ;;
  emit_by (fun st => EvLcd (Lcd_printf "X Pulses: %ld\n" [pulseCounts st !!! 0%nat])) ;;
  emit_by (fun st => EvLcd (Lcd_printf "Y Pulses: %ld\n" [pulseCounts st !!! 1%nat])).

Definition setup : prog unit :=
  emit (EvBoard M5_begin) ;;
  emit (EvBoard (Serial_begin 115200)) ;;
  emit (EvSerial_println "Setup starting...") ;;
  emit (EvLcd (Lcd_setTextSize 2)) ;;
  emit (EvLcd (Lcd_setRotation 1)) ;;
  emit (EvLcd (Lcd_fillScreen BLACK)) ;;
  emit (EvLcd (Lcd_setCursor 0 0)) ;;
  emit (EvLcd (Lcd_println "Stepper Ready (1/16 Step)")) ;;
  emit (EvLcd (Lcd_println "A: FWD 5rev  C: REV 5rev")) ;;
  emit (EvBoard engine_init) ;;
  connect E 0 X_STEP_PIN ;;
  connect E 1 Y_STEP_PIN ;;
  for_range 0 2 (fun i =>
    if_stepper i (
      let dirPin := if decide (i = 0%nat) then X_DIR_PIN else Y_DIR_PIN in
      call i (setDirectionPin dirPin) ;;
      call i (setAutoEnable true) ;;
      call_by i (fun st => setAcceleration (accelerationRate st)) ;;
      call_by i (fun st => setSpeedInHz (speed st)) ;;
      emit_by (fun st => EvSerial_printf "Initial speed stepper %d: %d Hz\n"
                 [Z.of_nat i; speed st]) ;;
      emit_by (fun st => EvSerial_printf "Acceleration: %d\n" [accelerationRate st]))) ;;
  emit (EvBoard (Wire_begin 21 22 400000)) ;;
  emit (EvBoard driver_init) ;;
  emit (EvBoard (driver_resetMotor 0 0)) ;;
  emit (EvBoard (driver_resetMotor 1 0)) ;;
  emit (EvBoard (driver_enableMotor 1)) ;;
  drawInstructions ;;
  drawStatus ;;
  emit (EvSerial_println "Setup complete.").

Definition moveBothMotors (fuel : nat) (steps : Z) : prog unit :=
  v ← gets speed;
  if decide (v = 0) then
    emit (EvSerial_println "Speed is 0, skipping move and stopping motors.") ;;
    for_range 0 2 (fun i =>
      if_stepper i (
        call i (setSpeedInHz 0) ;;
        call i stopMove))
  else
    emit_by (fun st => EvSerial_printf
               "Moving motors by %ld steps at speed index %d (%d Hz)\n"
               [steps; currentSpeedIndex st; speed st]) ;;
    emit_by (fun st => EvSerial_printf "Acceleration: %d\n" [accelerationRate st]) ;;
    for_range 0 2 (fun i =>
      if_stepper i (
        call_by i (fun st => setAcceleration (accelerationRate st)) ;;
        call_by i (fun st => setSpeedInHz (speed st)) ;;
        call i (move steps) ;;
        add_pulses i steps)) ;;
    wait_idle E fuel ;;
    emit (EvSerial_println "Move complete.").

Definition updateSpeed : prog unit :=
  modify (fun st => set_currentSpeedIndex (wrap_int (currentSpeedIndex st + 1)) st) ;;
  idx ← gets currentSpeedIndex;
  when (bool_decide (idx >= speedLevelsCount))
    (modify (set_currentSpeedIndex 0)) ;;
  emit_by (fun st => EvSerial_printf "Speed changed to index %d (%d Hz = %d%%)\n"
             [currentSpeedIndex st; speed st;
              table_get speedPercentages (currentSpeedIndex st)]) ;;
  v ← gets speed;
  (if decide (v = 0) then
     for_range 0 2 (fun i =>
       if_stepper i (
         call i (setSpeedInHz 0) ;;
         call i stopMove))
   else
     for_range 0 2 (fun i =>
       if_stepper i (
         call_by i (fun st => setSpeedInHz (speed st))))) ;;
  drawInstructions.

Definition loop (fuel : nat) (b : buttons) : prog unit :=
  emit (EvBoard M5_update) ;;
  when (BtnA b)
    (steps ← gets (fun st => wrap_int (STEPS_PER_REV * revolutionsPerMove st));
     moveBothMotors fuel steps ;; drawStatus) ;;
  when (BtnC b)
    (steps ← gets (fun st => wrap_int (wrap_int (- STEPS_PER_REV) * revolutionsPerMove st));
     moveBothMotors fuel steps ;; drawStatus) ;;
  when (BtnB b) updateSpeed.
End Sketch.
End SpdRevAccel.

(** ** The four sketches side by side *)

Inductive sketch := SkBasic | SkBasic16Step | SkAdjSpeed | SkSpdRevAccel.

#[export] Instance sketch_eq_dec : EqDecision sketch.
Proof. solve_decision. Defined.

Section Sketches.
Variable E : environment.

Definition init (sk : sketch) : state :=
  match sk with
  | SkBasic | SkBasic16Step => Basic.init
  | SkAdjSpeed => AdjSpeed.init
  | SkSpdRevAccel => SpdRevAccel.init
  end.

Definition setup (sk : sketch) : prog unit :=
  match sk with
  | SkBasic => Basic.setup E "Stepper Ready (Full Step)"
  | SkBasic16Step => Basic.setup E "Stepper Ready (1/16 Step)"
  | SkAdjSpeed => AdjSpeed.setup E
  | SkSpdRevAccel => SpdRevAccel.setup E
  end.

Definition moveBothMotors (sk : sketch) : nat -> Z -> prog unit :=
  match sk with
  | SkBasic | SkBasic16Step => Basic.moveBothMotors E
  | SkAdjSpeed => AdjSpeed.moveBothMotors E
  | SkSpdRevAccel => SpdRevAccel.moveBothMotors E
  end.

Definition drawStatus (sk : sketch) : prog unit :=
  match sk with
  | SkBasic | SkBasic16Step => Basic.drawStatus
  | SkAdjSpeed => AdjSpeed.drawStatus
  | SkSpdRevAccel => SpdRevAccel.drawStatus
  end.

(** The first two sketches have no speed table: no [updateSpeed], no
    [drawInstructions]. *)
Definition updateSpeed (sk : sketch) : option (prog unit) :=
  match sk with
  | SkBasic | SkBasic16Step => None
  | SkAdjSpeed => Some AdjSpeed.updateSpeed
  | SkSpdRevAccel => Some SpdRevAccel.updateSpeed
  end.

Definition drawInstructions (sk : sketch) : option (prog unit) :=
  match sk with
  | SkBasic | SkBasic16Step => None
  | SkAdjSpeed => Some AdjSpeed.drawInstructions
  | SkSpdRevAccel => Some SpdRevAccel.drawInstructions
  end.

Definition loop (sk : sketch) : nat -> buttons -> prog unit :=
  match sk with
  | SkBasic => Basic.loop E 1
  | SkBasic16Step => Basic.loop E 16
  | SkAdjSpeed => AdjSpeed.loop E
  | SkSpdRevAccel => SpdRevAccel.loop E
  end.

Definition speedLevels (sk : sketch) : option (list Z) :=
  match sk with
  | SkBasic | SkBasic16Step => None
  | SkAdjSpeed => Some AdjSpeed.speedLevels
  | SkSpdRevAccel => Some SpdRevAccel.speedLevels
  end.

Definition speedLevelsCount (sk : sketch) : option Z :=
  match sk with
  | SkBasic | SkBasic16Step => None
  | SkAdjSpeed => Some AdjSpeed.speedLevelsCount
  | SkSpdRevAccel => Some SpdRevAccel.speedLevelsCount
  end.

(** [speedLevels[currentSpeedIndex]], where the sketch has the table. *)
Definition speedLevel (sk : sketch) (st : state) : option Z :=
  option_map (fun t => table_get t (currentSpeedIndex st)) (speedLevels sk).

(** The operations of a sketch, as [loop] calls them ([OpButtons] is
    [M5.update()]). *)
Inductive op :=
| OpMove (steps : Z)
| OpUpdateSpeed
| OpDrawStatus
| OpDrawInstructions
| OpButtons.

Definition run_op (sk : sketch) (fuel : nat) (o : op) : option (prog unit) :=
  match o with
  | OpMove steps => Some (moveBothMotors sk fuel steps)
  | OpUpdateSpeed => updateSpeed sk
  | OpDrawStatus => Some (drawStatus sk)
  | OpDrawInstructions => drawInstructions sk
  | OpButtons => Some (emit (EvBoard M5_update))
  end.

(** The states a sketch can be in between two operations: [setup] has
    run on the initial globals, then any operations that returned. *)
Inductive reachable (sk : sketch) : state -> Prop :=
| reachable_setup st :
    setup sk (init sk) = Some (tt, st) -> reachable sk st
| reachable_op st fuel o p st' :
    reachable sk st ->
    run_op sk fuel o = Some p ->
    p st = Some (tt, st') ->
    reachable sk st'.
End Sketches.

(** ** Vocabulary of the statements *)

(** No global differs (the trace may). *)
Definition same_globals (st st' : state) : Prop :=
  steppers st' = steppers st /\
  pulseCounts st' = pulseCounts st /\
  currentSpeedIndex st' = currentSpeedIndex st /\
  accelerationRate st' = accelerationRate st /\
  revolutionsPerMove st' = revolutionsPerMove st.

(** The call [steppers[i]->isRunning()] with answer [r], when [steppers[i]]
    is not null. *)
Definition check_on (sp : list (option FastAccelStepper)) (i : nat) (r : bool) : list event :=
  match sp !!! i with
  | Some _ => [EvStepper i (isRunning r)]
  | None => []
  end.

(** One evaluation of the loop condition that finds no stepper running. *)
Definition idle_checks (sp : list (option FastAccelStepper)) : list event :=
  check_on sp 0 false ++ check_on sp 1 false.

(** One evaluation of the loop condition that finds a stepper running. *)
Inductive busy_check (sp : list (option FastAccelStepper)) : list event -> Prop :=
| busy_first s :
    sp !! 0%nat = Some (Some s) ->
    busy_check sp [EvStepper 0 (isRunning true)]
| busy_second s :
    sp !! 1%nat = Some (Some s) ->
    busy_check sp (check_on sp 0 false ++ [EvStepper 1 (isRunning true)]).

(** The rounds of the wait loop: a busy check, then [delay(10)]. *)
Definition polled (rounds : list (list event)) : list event :=
  flat_map (fun c => c ++ [EvDelay 10]) rounds.

(** Between the traces [tr0] and [tr1] the library was asked whether
    stepper [i] is running, and answered that it is not. *)
Definition reported_idle (E : environment) (tr0 tr1 : list event) (i : nat) : Prop :=
  exists tr, lib_isRunning E i tr = false /\
             tr0 `prefix_of` tr /\
             (tr ++ [EvStepper i (isRunning false)]) `prefix_of` tr1.

(** What [moveBothMotors] does, call by call. *)

(** The calls [f i] on each stepper that is not null, in the order of the
    loop [for (int i = 0; i < 2; i++)]. *)
Definition stepper_events (sp : list (option FastAccelStepper))
    (f : nat -> list stepper_call) : list event :=
  flat_map (fun i => match sp !!! i with
                     | Some _ => map (EvStepper i) (f i)
                     | None => []
                     end) [0; 1]%nat.

(** [steps] added to the counter of each stepper that is not null. *)
Definition add_where_configured (sp : list (option FastAccelStepper))
    (steps : Z) (pc : list Z) : list Z :=
  zip_with (fun s p => match s with
                       | Some _ => wrap_long (p + steps)
                       | None => p
                       end) sp pc.

Definition move_prologue (sk : sketch) (steps : Z) (st : state) : list event :=
  match sk with
  | SkSpdRevAccel =>
      [EvSerial_printf "Moving motors by %ld steps at speed index %d (%d Hz)\n"
         [steps; currentSpeedIndex st; SpdRevAccel.speed st];
       EvSerial_printf "Acceleration: %d\n" [accelerationRate st]]
  | _ => []
  end.

Definition move_calls (sk : sketch) (steps : Z) (st : state) : list stepper_call :=
  match sk with
  | SkSpdRevAccel =>
      [setAcceleration (accelerationRate st); setSpeedInHz (SpdRevAccel.speed st);
       move steps]
  | _ => [move steps]
  end.

Definition move_epilogue (sk : sketch) : list event :=
  match sk with
  | SkSpdRevAccel => [EvSerial_println "Move complete."]
  | _ => []
  end.

Definition stop_calls : list stepper_call := [setSpeedInHz 0; stopMove].

(** What the other operations do. *)

(** [currentSpeedIndex] after [updateSpeed], for a table of [n] levels. *)
Definition next_index (n idx : Z) : Z :=
  let j := wrap_int (idx + 1) in
  if bool_decide (j >= n) then 0 else j.

Definition update_calls (sk : sketch) (st' : state) : list stepper_call :=
  match sk with
  | SkSpdRevAccel =>
      if decide (SpdRevAccel.speed st' = 0) then stop_calls
      else [setSpeedInHz (SpdRevAccel.speed st')]
  | _ => [setSpeedInHz (table_get AdjSpeed.speedLevels (currentSpeedIndex st'))]
  end.

(** No call on a stepper among the events. *)
Definition no_stepper_call (evs : list event) : Prop :=
  forall i c, EvStepper i c ∉ evs.

Definition update_prologue (sk : sketch) (st' : state) : list event :=
  match sk with
  | SkSpdRevAccel =>
      [EvSerial_printf "Speed changed to index %d (%d Hz = %d%%)\n"
         [currentSpeedIndex st'; SpdRevAccel.speed st';
          table_get SpdRevAccel.speedPercentages (currentSpeedIndex st')]]
  | _ => []
  end.

(** What [drawInstructions] and [drawStatus] send to the display. *)
Definition instructions_events (sk : sketch) (st : state) : list event :=
  match sk with
  | SkAdjSpeed =>
      [EvLcd (Lcd_fillRect 0 100 320 40 BLACK); EvLcd (Lcd_setCursor 0 100);
       EvLcd (Lcd_printf "Press B to change speed\n" []);
       EvLcd (Lcd_printf "Speed: %d%%\n"
                [table_get AdjSpeed.speedPercentages (currentSpeedIndex st)])]
  | SkSpdRevAccel =>
      [EvLcd (Lcd_fillRect 0 100 320 50 BLACK); EvLcd (Lcd_setCursor 0 100);
       EvLcd (Lcd_printf "Press B to change speed\n" []);
       EvLcd (Lcd_printf "Speed: %d%%\n"
                [table_get SpdRevAccel.speedPercentages (currentSpeedIndex st)]);
       EvLcd (Lcd_printf "Move %d revolutions\n" [revolutionsPerMove st]);
       EvLcd (Lcd_printf "Accel: %d\n" [accelerationRate st])]
  | _ => []
  end.

Definition status_events (sk : sketch) (st : state) : list event :=
  [EvLcd (Lcd_fillRect 0 40 320
            (match sk with SkBasic | SkBasic16Step => 80 | _ => 60 end) BLACK);
   EvLcd (Lcd_setCursor 0 40);
   EvLcd (Lcd_printf "X Pulses: %ld\n" [pulseCounts st !!! 0%nat]);
   EvLcd (Lcd_printf "Y Pulses: %ld\n" [pulseCounts st !!! 1%nat])].

(** The calls an operation makes on one stepper. *)

(** The calls on [steppers[i]] among the events, in order. *)
Fixpoint calls_on (i : nat) (evs : list event) : list stepper_call :=
  match evs with
  | [] => []
  | EvStepper j c :: rest =>
      if decide (j = i) then c :: calls_on i rest else calls_on i rest
  | _ :: rest => calls_on i rest
  end.

(** The events logged between the states [st] and [st']. *)
Definition since (st st' : state) : list event :=
  drop (length (trace st)) (trace st').

(** [p], called [n] times in a row. *)
Fixpoint times (n : nat) (p : prog unit) : prog unit :=
  match n with
  | O => skip
  | S n' => p ;; times n' p
  end.

(** [moveBothMotors], cut between the two rounds of its [for] loop. *)

(** The body of the loop, for [i]. *)
Definition move_stepper (sk : sketch) (steps : Z) (i : nat) : prog unit :=
  match sk with
  | SkSpdRevAccel =>
      if_stepper i (
        call_by i (fun st => setAcceleration (accelerationRate st)) ;;
        call_by i (fun st => setSpeedInHz (SpdRevAccel.speed st)) ;;
        call i (move steps) ;;
        add_pulses i steps)
  | _ =>
      if_stepper i (
        call i (move steps) ;;
        add_pulses i steps)
  end.

(** A call that issues the move, up to the end of the round [i = 0]. *)
Definition moveBothMotors_begun (sk : sketch) (steps : Z) : prog unit :=
  match sk with
  | SkSpdRevAccel =>
      emit_by (fun st => EvSerial_printf
                 "Moving motors by %ld steps at speed index %d (%d Hz)\n"
                 [steps; currentSpeedIndex st; SpdRevAccel.speed st]) ;;
      emit_by (fun st => EvSerial_printf "Acceleration: %d\n" [accelerationRate st]) ;;
      move_stepper sk steps 0
  | _ => move_stepper sk steps 0
  end.

(** The same call from the round [i = 1] on. *)
Definition moveBothMotors_ended (E : environment) (sk : sketch) (fuel : nat)
    (steps : Z) : prog unit :=
  match sk with
  | SkSpdRevAccel =>
      move_stepper sk steps 1 ;;
      wait_idle E fuel ;;
      emit (EvSerial_println "Move complete.")
  | _ =>
      move_stepper sk steps 1 ;;
      wait_idle E fuel
  end.

(** ** Concrete libraries and states, for the examples *)

(** The state a program leaves (the state it started in, if it has not
    returned). *)
Definition result (p : prog unit) (st : state) : state :=
  match p st with
  | Some (_, st') => st'
  | None => st
  end.

(** Both steppers bind; the library always answers that a stepper has
    come to rest. *)
Definition E_idle : environment :=
  mkEnvironment (fun _ _ => false) (fun _ => true).

(** How many [delay]s were logged since the last [move] on stepper [i]
    ([None]: no move under way). *)
Fixpoint delays_since_move (i : nat) (acc : option nat) (tr : list event) : option nat :=
  match tr with
  | [] => acc
  | EvStepper j (move _) :: rest =>
      delays_since_move i (if decide (j = i) then Some O else acc) rest
  | EvStepper j stopMove :: rest =>
      delays_since_move i (if decide (j = i) then None else acc) rest
  | EvDelay _ :: rest => delays_since_move i (option_map S acc) rest
  | _ :: rest => delays_since_move i acc rest
  end.

(** Only the X stepper binds; a move takes three rounds of the wait loop. *)
Definition E_x_only : environment :=
  mkEnvironment
    (fun i tr => match delays_since_move i None tr with
                 | Some n => bool_decide (n < 3)%nat
                 | None => false
                 end)
    (fun pin => bool_decide (pin = X_STEP_PIN)).

(** The last sketch after [setup], with both steppers. *)
Definition st_setup : state :=
  result (setup E_idle SkSpdRevAccel) (init SkSpdRevAccel).

(** The same after one press of button B (speed 20%), with both steppers
    and with the X stepper only; after five presses (speed 100%). *)
Definition st_ready : state := result SpdRevAccel.updateSpeed st_setup.

Definition st_top : state := Nat.iter 5 (result SpdRevAccel.updateSpeed) st_setup.

Definition st_ready_x : state :=
  result SpdRevAccel.updateSpeed
    (result (setup E_x_only SkSpdRevAccel) (init SkSpdRevAccel)).

(** [st_ready] after [moveBothMotors(2147483647)]. *)
Definition st_full : state :=
  result (moveBothMotors E_idle SkSpdRevAccel 0 2147483647) st_ready.

(** The third sketch after [setup], and after five presses of button B. *)
Definition st_adj : state :=
  result (setup E_idle SkAdjSpeed) (init SkAdjSpeed).

Definition st_adj_top : state := result (times 5 AdjSpeed.updateSpeed) st_adj.

(** ** The pulse generator of one axis *)

(** Modelled from the spec: the ramp generator behind
    [steppers[i]->move(steps)] is FastAccelStepper's and no file of the
    repository holds it.  This module follows the AxisChannel of the
    specification: its data model (section 3), the contract of
    [configure], [move], [is_running] and [stop] (section 4.1), advanced
    one tick at a time as the design notes propose (section 9).  One
    tick is the period of one pulse: it takes the channel from the instant
    of [move], or of a pulse, to the instant of the next pulse.

    The specification fixes the shape of a move: the rate ramps up from
    0, never exceeds the target rate, and a ramp down that mirrors the
    ramp up brings it back to 0 exactly as the last pulse is reached.  How
    fast the rate grows from pulse to pulse it does not fix in one way:
    section 4.1 gives the acceleration in steps/s^2, the scenario of
    section 8 takes a ramp at 500 steps/s^2 to reach 500 Hz well within
    200 pulses.  The ramp law is therefore a parameter, [law a r]: the
    rate that a ramp from rest at acceleration [a] has reached with its
    [r]-th pulse.  Pulses are counted in [Z]. *)
Module AxisChannel.

Inductive pulse := Forward | Reverse.

Record channel := mkChannel {
  direction_pin_state : pulse;
  enabled : bool;
  target_steps : Z;        (* pulses still to emit *)
  current_rate_hz : Z;
  target_rate_hz : Z;
  acceleration : Z;
  cumulative_pulses : Z;
  ramp_steps : Z           (* pulses of ramp the current rate stands for *)
}.

Definition configure (a v : Z) (c : channel) : channel :=
  mkChannel (direction_pin_state c) (enabled c) (target_steps c)
            (current_rate_hz c) v a (cumulative_pulses c) (ramp_steps c).

(** Hard stop: no rate, nothing left to emit. *)
Definition stop (c : channel) : channel :=
  mkChannel (direction_pin_state c) (enabled c) 0 0 (target_rate_hz c)
            (acceleration c) (cumulative_pulses c) 0.

(** At target rate 0 a move is a stop; a move of 0 steps leaves the
    channel idle; any other move arms the generator, from rest. *)
Definition move (signed_step_count : Z) (c : channel) : channel :=
  if target_rate_hz c =? 0 then stop c
  else if signed_step_count =? 0 then c
  else mkChannel (if 0 <? signed_step_count then Forward else Reverse)
                 true (Z.abs signed_step_count) 0 (target_rate_hz c)
                 (acceleration c) (cumulative_pulses c) 0.

Definition is_running (c : channel) : bool :=
  negb (target_steps c =? 0) || negb (current_rate_hz c =? 0).

Definition at_rest : channel := mkChannel Forward false 0 0 0 0 0 0.

Section Law.
Variable law : Z -> Z -> Z.

(** The rate after [r] pulses of ramp, never above the target rate. *)
Definition rate_at (a v r : Z) : Z := Z.min v (law a r).

(** Whether a pulse period comes to its end: there are pulses left, and
    the ramp leaves rate 0 (at rate 0 for good, no period ever ends). *)
Definition emits (c : channel) : bool :=
  negb (target_steps c =? 0) && (0 <? law (acceleration c) 1).

(** The pulse the next period emits. *)
Definition tick_pulse (c : channel) : list pulse :=
  if emits c then [direction_pin_state c] else [].

(** One pulse period: the pulse is emitted and counted.  The ramp goes
    down when the pulses left are no more than those the ramp stands
    for, so that it is back at 0 with the last pulse; it goes up while the
    rate is below the target; it stays otherwise. *)
Definition tick (c : channel) : channel :=
  if emits c then
    let left := target_steps c - 1 in
    let r := ramp_steps c in
    let r' :=
      if left <=? r then left
      else if rate_at (acceleration c) (target_rate_hz c) r <? target_rate_hz c
           then r + 1
           else r in
    mkChannel (direction_pin_state c) (enabled c) left
              (rate_at (acceleration c) (target_rate_hz c) r')
              (target_rate_hz c) (acceleration c)
              (match direction_pin_state c with
               | Forward => cumulative_pulses c + 1
               | Reverse => cumulative_pulses c - 1
               end)
              r'
  else c.

Fixpoint run (k : nat) (c : channel) : channel :=
  match k with
  | O => c
  | S k' => run k' (tick c)
  end.

(** The pulses of the first [k] periods. *)
Fixpoint pulses (k : nat) (c : channel) : list pulse :=
  match k with
  | O => []
  | S k' => tick_pulse c ++ pulses k' (tick c)
  end.

(** The pulses of a move of a channel that is at rest, as many periods
    as the move asks pulses for. *)
Definition pulses_of_move (a v steps : Z) (c : channel) : list pulse :=
  pulses (Z.to_nat (Z.abs steps)) (move steps (configure a v c)).

(** The step count [T] is the threshold for the acceleration [a] and the
    target rate [v]: a move of fewer steps never reaches [v], a move of
    [T] steps or more does, and every move emits as many pulses as it
    was asked, in its direction, after which the channel is idle and has
    counted them.  The channel is at rest when the move is issued. *)
Definition threshold (a v T : Z) : Prop :=
  forall c steps,
    is_running c = false ->
    let c0 := move steps (configure a v c) in
    (Z.abs steps < T -> forall k, current_rate_hz (run k c0) <> v) /\
    (T <= Z.abs steps -> exists k, current_rate_hz (run k c0) = v) /\
    pulses_of_move a v steps c =
      repeat (if 0 <? steps then Forward else Reverse) (Z.to_nat (Z.abs steps)) /\
    forall k, (Z.to_nat (Z.abs steps) <= k)%nat ->
      is_running (run k c0) = false /\
      cumulative_pulses (run k c0) = cumulative_pulses c + steps.

(** The claim on the ramp, for the acceleration [a] and the target rate
    [v]: there is such a threshold. *)
Definition ramp_claim (a v : Z) : Prop := exists T, 0 <= T /\ threshold a v T.

(** The ramp at acceleration [a] starts at rate 0 and has left it with
    its first pulse. *)
Definition ramps_from_rest (a : Z) : Prop :=
  law a 0 = 0 /\ forall r, 0 < r -> 0 < law a r.

(** [D] is the ramp distance for [a] and [v]: the ramp is at the rate [v]
    or above from its [D]-th pulse on, and below before. *)
Definition ramp_distance (a v D : Z) : Prop :=
  forall r, 0 <= r -> (v <= law a r <-> D <= r).

(** What holds of a channel all along a move of [n] pulses, when the
    ramp distance is [D]. *)
Record moving (a v D n : Z) (c : channel) : Prop := {
  moving_acceleration : acceleration c = a;
  moving_target : target_rate_hz c = v;
  moving_left : 0 <= target_steps c <= n;
  moving_ramp :
    ramp_steps c = Z.min (Z.min (n - target_steps c) (target_steps c)) D;
  moving_rate : current_rate_hz c = rate_at a v (ramp_steps c)
}.
End Law.

(** The law of uniform acceleration, which section 4.1 names: a ramp
    over [r] pulses from rest at [a] steps/s^2 has reached the rate [v]
    with [v^2 = 2 * a * r]. *)
Definition uniform_acceleration (a r : Z) : Z := Z.sqrt (2 * a * r).

(** Its ramp distance: [v^2 / (2 * a)] pulses, rounded up. *)
Definition ramp_length (a v : Z) : Z := (v * v + 2 * a - 1) / (2 * a).
End AxisChannel.

(** ** The main loop, round after round *)

(** The sketch has run [setup], then [loop] once for each element of the
    list, in order; each round found the buttons as its element says and
    came to its end. *)
Inductive runs (E : environment) (sk : sketch) : list buttons -> state -> Prop :=
| runs_setup st :
    setup E sk (init sk) = Some (tt, st) -> runs E sk [] st
| runs_loop bs st fuel b st' :
    runs E sk bs st ->
    loop E sk fuel b st = Some (tt, st') ->
    runs E sk (bs ++ [b]) st'.

(** In how many rounds the button [f] was clicked. *)
Fixpoint presses (f : buttons -> bool) (bs : list buttons) : Z :=
  match bs with
  | [] => 0
  | b :: rest => (if f b then 1 else 0) + presses f rest
  end.

(** The arguments [loop] passes to [moveBothMotors] for button A and for
    button C. *)
Definition press_steps (sk : sketch) (st : state) : Z :=
  match sk with
  | SkBasic => Basic.STEPS_PER_REV 1
  | SkBasic16Step => Basic.STEPS_PER_REV 16
  | SkAdjSpeed => AdjSpeed.STEPS_PER_REV
  | SkSpdRevAccel => wrap_int (SpdRevAccel.STEPS_PER_REV * revolutionsPerMove st)
  end.

Definition press_steps_back (sk : sketch) (st : state) : Z :=
  match sk with
  | SkBasic => - Basic.STEPS_PER_REV 1
  | SkBasic16Step => - Basic.STEPS_PER_REV 16
  | SkAdjSpeed => - AdjSpeed.STEPS_PER_REV
  | SkSpdRevAccel =>
      wrap_int (wrap_int (- SpdRevAccel.STEPS_PER_REV) * revolutionsPerMove st)
  end.

(** Whether [moveBothMotors] issues the move: always, but for the zero
    speed guard of the last sketch. *)
Definition moves (sk : sketch) (st : state) : bool :=
  match sk with
  | SkSpdRevAccel => bool_decide (SpdRevAccel.speed st <> 0)
  | _ => true
  end.

(** [pulseCounts] after [moveBothMotors(steps)] called in [st], if [c],
    when they were [pc]. *)
Definition counts_after (sk : sketch) (st : state) (c : bool) (steps : Z)
    (pc : list Z) : list Z :=
  if c && moves sk st then add_where_configured (steppers st) steps pc else pc.

(** The button was clicked and [moveBothMotors(steps)], then
    [drawStatus()] took [st] to [st'], or it was not and nothing happened. *)
Definition pressed (E : environment) (sk : sketch) (fuel : nat) (c : bool)
    (steps : Z) (st st' : state) : Prop :=
  if c then
    exists st1, moveBothMotors E sk fuel steps st = Some (tt, st1) /\
                drawStatus sk st1 = Some (tt, st')
  else st' = st.

(** The same for button B and [updateSpeed()], in the sketches that have it. *)
Definition cycled (sk : sketch) (c : bool) (st st' : state) : Prop :=
  match updateSpeed sk with
  | Some upd => if c then upd st = Some (tt, st') else st' = st
  | None => st' = st
  end.

(** The steps of one press of button A, with [revolutionsPerMove] as it
    is initialised. *)
Definition steps_per_press (sk : sketch) : Z :=
  match sk with
  | SkBasic => Basic.STEPS_PER_REV 1
  | SkBasic16Step => Basic.STEPS_PER_REV 16
  | SkAdjSpeed => AdjSpeed.STEPS_PER_REV
  | SkSpdRevAccel => SpdRevAccel.STEPS_PER_REV * 5
  end.

(** A call that is no [move], or a [move] by the steps of one press,
    forward or back. *)
Definition whole_press (sk : sketch) (c : stepper_call) : Prop :=
  match c with
  | move s => s = steps_per_press sk \/ s = - steps_per_press sk
  | _ => True
  end.

(** The buttons alone tell the speed index and, in presses of A less
    presses of C that found a speed other than 0, where the counters are:
    one round of [loop] on the pair of the two. *)
Definition turns (sk : sketch) (idx : Z) : bool :=
  match sk with
  | SkSpdRevAccel => bool_decide (table_get SpdRevAccel.speedLevels idx <> 0)
  | _ => true
  end.

Definition round (sk : sketch) (acc : Z * Z) (b : buttons) : Z * Z :=
  (match speedLevels sk with
   | Some _ => if BtnB b then (acc.1 + 1) mod 6 else acc.1
   | None => acc.1
   end,
   acc.2 + (if turns sk acc.1
            then (if BtnA b then 1 else 0) - (if BtnC b then 1 else 0)
            else 0)).

Definition history (sk : sketch) (bs : list buttons) : Z * Z :=
  fold_left (round sk) bs (0, 0).

(** ** A library whose steppers come to rest *)

(** How many [delay]s the trace ends with, since the last [move]. *)
Definition rest_step (k : nat) (e : event) : nat :=
  match e with
  | EvStepper _ (move _) => O
  | EvDelay _ => S k
  | _ => k
  end.

Definition rest_time (tr : list event) : nat := fold_left rest_step tr O.

(** After [n] [delay]s with no new [move], the library answers that a
    stepper is not running. *)
Definition comes_to_rest (E : environment) (n : nat) : Prop :=
  forall i tr, (n <= rest_time tr)%nat -> lib_isRunning E i tr = false.

(** The library answers that every stepper is still running, whenever
    it is asked. *)
Definition E_busy : environment :=
  mkEnvironment (fun _ _ => true) (fun _ => true).

(** ** What the libraries were last told *)

(** The speed and the acceleration last set by a sequence of calls, for
    a stepper that starts with [last]. *)
Definition set_speed (last : option Z) (c : stepper_call) : option Z :=
  match c with
  | setSpeedInHz v => Some v
  | _ => last
  end.

Definition set_acceleration (last : option Z) (c : stepper_call) : option Z :=
  match c with
  | setAcceleration a => Some a
  | _ => last
  end.

Definition speed_from (last : option Z) (cs : list stepper_call) : option Z :=
  fold_left set_speed cs last.

Definition acceleration_from (last : option Z) (cs : list stepper_call) : option Z :=
  fold_left set_acceleration cs last.

Definition speed_after : list stepper_call -> option Z := speed_from None.
Definition acceleration_after : list stepper_call -> option Z := acceleration_from None.

(** Every [move] of the sequence comes when the speed last set is not 0. *)
Definition moves_at_speed (cs : list stepper_call) : Prop :=
  forall pre s post,
    cs = pre ++ move s :: post ->
    exists v, speed_after pre = Some v /\ v <> 0.

(** The same, as a scan of the sequence that starts with the speed [last]. *)
Fixpoint moves_checked (last : option Z) (cs : list stepper_call) : bool :=
  match cs with
  | [] => true
  | setSpeedInHz v :: rest => moves_checked (Some v) rest
  | move _ :: rest =>
      match last with
      | Some v => bool_decide (v <> 0) && moves_checked last rest
      | None => false
      end
  | _ :: rest => moves_checked last rest
  end.

(** Every [stopMove] of the sequence comes when the speed last set is 0. *)
Definition stops_at_rest (cs : list stepper_call) : Prop :=
  forall pre post,
    cs = pre ++ stopMove :: post -> speed_after pre = Some 0.

Fixpoint stops_checked (last : option Z) (cs : list stepper_call) : bool :=
  match cs with
  | [] => true
  | setSpeedInHz v :: rest => stops_checked (Some v) rest
  | stopMove :: rest => bool_decide (last = Some 0) && stops_checked last rest
  | _ :: rest => stops_checked last rest
  end.

(** The steps of all the [move]s of the sequence, added up. *)
Fixpoint commanded (cs : list stepper_call) : Z :=
  match cs with
  | [] => 0
  | move s :: rest => s + commanded rest
  | _ :: rest => commanded rest
  end.

(** The speeds a sketch has to choose from, and the calls that set no
    other speed. *)
Definition speed_table (sk : sketch) : list Z :=
  match speedLevels sk with
  | Some t => t
  | None => [500]
  end.

Definition speed_from_table (sk : sketch) (c : stepper_call) : Prop :=
  match c with
  | setSpeedInHz v => v ∈ speed_table sk
  | _ => True
  end.

Definition is_poll (c : stepper_call) : bool :=
  match c with isRunning _ => true | _ => false end.

(** The speed and the acceleration a sketch means its steppers to have. *)
Definition selected_speed (sk : sketch) (st : state) : Z :=
  match sk with
  | SkBasic | SkBasic16Step => 500
  | SkAdjSpeed => table_get AdjSpeed.speedLevels (currentSpeedIndex st)
  | SkSpdRevAccel => SpdRevAccel.speed st
  end.

Definition selected_acceleration (sk : sketch) (st : state) : Z :=
  match sk with
  | SkSpdRevAccel => accelerationRate st
  | _ => 500
  end.

(** The calls of [setup] on stepper [i], when it binds. *)
Definition setup_calls (sk : sketch) (i : nat) : list stepper_call :=
  [setDirectionPin (if decide (i = 0%nat) then X_DIR_PIN else Y_DIR_PIN);
   setAutoEnable true;
   setAcceleration (match sk with SkSpdRevAccel => 2000 | _ => 500 end);
   setSpeedInHz (match sk with SkBasic | SkBasic16Step => 500 | _ => 0 end)].

(** The calls of an operation on a stepper that is not null, the polls of
    the wait loop apart. *)
Definition op_calls (sk : sketch) (o : op) (st st' : state) : list stepper_call :=
  match o with
  | OpMove steps => if moves sk st then move_calls sk steps st else stop_calls
  | OpUpdateSpeed => update_calls sk st'
  | _ => []
  end.

(** ** What the display last showed *)

(** The argument of the last one-argument [printf] with format [fmt]
    sent to the display. *)
Definition show (fmt : string) (last : option Z) (e : event) : option Z :=
  match e with
  | EvLcd (Lcd_printf f [x]) => if decide (f = fmt) then Some x else last
  | _ => last
  end.

Definition shown (fmt : string) (tr : list event) : option Z :=
  fold_left (show fmt) tr None.

(** The display shows the two counters as they are. *)
Definition status_fresh (st : state) : Prop :=
  shown "X Pulses: %ld\n" (trace st) = Some (pulseCounts st !!! 0%nat) /\
  shown "Y Pulses: %ld\n" (trace st) = Some (pulseCounts st !!! 1%nat).

(** Nothing was shown of the counters yet. *)
Definition status_blank (st : state) : Prop :=
  shown "X Pulses: %ld\n" (trace st) = None /\
  shown "Y Pulses: %ld\n" (trace st) = None.

(** Events that are no call on a stepper but a poll, and events that
    send nothing to the display. *)
Definition is_poll_event (e : event) : bool :=
  match e with
  | EvStepper _ c => is_poll c
  | _ => true
  end.

Definition is_quiet (e : event) : bool :=
  match e with
  | EvLcd _ => false
  | _ => true
  end.

(** What an operation sends to the display. *)
Definition op_display (sk : sketch) (o : op) (st st' : state) : list event :=
  match o with
  | OpUpdateSpeed | OpDrawInstructions => instructions_events sk st'
  | OpDrawStatus => status_events sk st
  | _ => []
  end.

(** The speed the display calls 100%: the last entry of [speedLevels]. *)
Definition top_speed (sk : sketch) : Z :=
  match speedLevels sk with
  | Some t => table_get t 5
  | None => 500
  end.

(** The display shows the settings as they are. *)
Definition instructions_fresh (sk : sketch) (st : state) : Prop :=
  match sk with
  | SkAdjSpeed =>
      shown "Speed: %d%%\n" (trace st) =
        Some (table_get AdjSpeed.speedPercentages (currentSpeedIndex st))
  | SkSpdRevAccel =>
      shown "Speed: %d%%\n" (trace st) =
        Some (table_get SpdRevAccel.speedPercentages (currentSpeedIndex st)) /\
      shown "Move %d revolutions\n" (trace st) = Some (revolutionsPerMove st) /\
      shown "Accel: %d\n" (trace st) = Some (accelerationRate st)
  | _ => True
  end.

(** ** Rounds of [loop] on concrete buttons *)

Definition click_A : buttons := mkButtons true false false.
Definition click_B : buttons := mkButtons false true false.
Definition click_C : buttons := mkButtons false false true.

(** [setup], then one round of [loop] for each element of the list. *)
Fixpoint play (E : environment) (sk : sketch) (fuel : nat) (bs : list buttons)
    (st : state) : option state :=
  match bs with
  | [] => Some st
  | b :: rest =>
      match loop E sk fuel b st with
      | Some (_, st') => play E sk fuel rest st'
      | None => None
      end
  end.

Definition played (E : environment) (sk : sketch) (fuel : nat) (bs : list buttons) : state :=
  let st := result (setup E sk) (init sk) in
  default st (play E sk fuel bs st).

(** The last sketch: B, then A twice, then C and B in one round (the
    speed index is 2, the counters are at five revolutions). *)
Definition st_played : state :=
  played E_idle SkSpdRevAccel 0
    [click_B; click_A; click_A; mkButtons false true true].

(** The first sketch with the X stepper only: A twice, then C. *)
Definition st_basic : state :=
  played E_x_only SkBasic 3 [click_A; click_A; click_C].

(** The first sketch after [setup], when no stepper ever comes to rest. *)
Definition st_busy : state := played E_busy SkBasic 0 [].

(** * Proofs *)

#[global] Arguments wrap : simpl never.
#[global] Arguments wrap_long : simpl never.
#[global] Arguments wrap_int : simpl never.
#[global] Arguments table_get : simpl never.
#[global] Arguments SpdRevAccel.speed : simpl never.
#[global] Arguments wait_idle : simpl never.

Lemma wf_inv st :
  wf st -> exists s0 s1 p0 p1, steppers st = [s0; s1] /\ pulseCounts st = [p0; p1].
Proof.
  intros [Hs Hp].
  destruct (steppers st) as [|s0 [|s1 [|]]]; try discriminate.
  destruct (pulseCounts st) as [|p0 [|p1 [|]]]; try discriminate.
  eauto 10.
Qed.

Ltac wf_state st H :=
  let s0 := fresh "s0" in let s1 := fresh "s1" in
  let p0 := fresh "p0" in let p1 := fresh "p1" in
  let Hs := fresh "Hs" in let Hp := fresh "Hp" in
  destruct (wf_inv st H) as (s0 & s1 & p0 & p1 & Hs & Hp);
  destruct st; simpl in Hs, Hp; subst.

Ltac step_prog :=
  cbv [bind ret gets modify emit emit_by call call_by if_stepper for_range skip
       when add_pulses connect timeout log set_pulseCounts set_steppers
       set_currentSpeedIndex SpdRevAccel.speed
       steppers pulseCounts currentSpeedIndex accelerationRate
       revolutionsPerMove trace] in *;
  simpl in *.

Lemma same_globals_trans st1 st2 st3 :
  same_globals st1 st2 -> same_globals st2 st3 -> same_globals st1 st3.
Proof.
  intros (?&?&?&?&?) (?&?&?&?&?). repeat split; congruence.
Qed.

Lemma same_globals_log e st : same_globals st (log e st).
Proof. by repeat split. Qed.

Lemma same_globals_wf st st' : same_globals st st' -> wf st -> wf st'.
Proof. intros (Hs&Hp&_) [? ?]. split; congruence. Qed.

Lemma reported_idle_intro E tr0 tr1 pre post i :
  lib_isRunning E i (tr0 ++ pre) = false ->
  tr1 = tr0 ++ pre ++ [EvStepper i (isRunning false)] ++ post ->
  reported_idle E tr0 tr1 i.
Proof.
  intros Hr ->. exists (tr0 ++ pre). split; [done|]. split.
  - by apply prefix_app_r.
  - exists post. by rewrite <- !app_assoc.
Qed.

Lemma reported_idle_weaken E tr0 tr0' tr1 tr1' i :
  tr0' `prefix_of` tr0 -> tr1 `prefix_of` tr1' ->
  reported_idle E tr0 tr1 i -> reported_idle E tr0' tr1' i.
Proof.
  intros H0 H1 (tr & Hr & Ha & Hb). exists tr. split; [done|].
  split; etrans; eauto.
Qed.

Section WaitLoop.
Variable E : environment.

(** One evaluation of the loop condition. *)
Lemma any_running_inv st r st' :
  wf st ->
  any_running E st = Some (r, st') ->
  same_globals st st' /\
  exists evs, trace st' = trace st ++ evs /\
    if r then busy_check (steppers st) evs
    else evs = idle_checks (steppers st) /\
         forall i, configured st i -> reported_idle E (trace st) (trace st') i.
Proof.
  intros Hwf H. wf_state st Hwf.
  unfold any_running, stepper_running, call_isRunning in H. step_prog.
  destruct s0 as [a0|]; simpl in H;
    [destruct (lib_isRunning E 0 trace0) eqn:R0; simpl in H|];
    (destruct s1 as [a1|]; simpl in H;
      [try destruct (lib_isRunning E 1 _) eqn:R1; simpl in H|]);
    inversion H; subst; clear H; (split; [by repeat split|]); simpl;
    rewrite <- ?app_assoc; simpl;
    (eexists; split; [try reflexivity; by rewrite app_nil_r|]).
  all: try (eapply busy_first; reflexivity).
  all: try exact (busy_second [_; Some a1] a1 eq_refl).
  all: split; [reflexivity|].
  all: intros i [s Hi]; destruct i as [|[|i]]; simpl in Hi; try discriminate.
  all: first
    [ eapply (reported_idle_intro E _ _ []);
      [rewrite app_nil_r; eassumption | reflexivity]
    | eapply (reported_idle_intro E _ _ [_] []); [eassumption | reflexivity]
    | eapply (reported_idle_intro E _ _ [] []);
      [rewrite app_nil_r; eassumption | reflexivity] ].
Qed.

Lemma wait_idle_unfold fuel st :
  wait_idle E fuel st =
  match any_running E st with
  | Some (true, st1) =>
      match fuel with
      | O => None
      | S fuel' => wait_idle E fuel' (log (EvDelay 10) st1)
      end
  | Some (false, st1) => Some (tt, st1)
  | None => None
  end.
Proof.
  destruct fuel; unfold wait_idle; fold (wait_idle E); unfold bind;
    destruct (any_running E st) as [[[] st1]|]; reflexivity.
Qed.

(** The wait loop, when it comes to its end: it changed no global, and
    the calls it made are rounds of a busy check followed by [delay(10)],
    then one check in which the library reported every stepper that is
    not null as not running. *)
Lemma wait_idle_inv fuel : forall st st',
  wf st ->
  wait_idle E fuel st = Some (tt, st') ->
  same_globals st st' /\
  exists rounds,
    (length rounds <= fuel)%nat /\
    Forall (busy_check (steppers st)) rounds /\
    trace st' = trace st ++ polled rounds ++ idle_checks (steppers st) /\
    forall i, configured st i ->
      reported_idle E (trace st ++ polled rounds) (trace st') i.
Proof.
  induction fuel as [|fuel IH]; intros st st' Hwf H;
    rewrite wait_idle_unfold in H;
    destruct (any_running E st) as [[[] st1]|] eqn:Hc; try discriminate.
  - inversion H; subst; clear H.
    destruct (any_running_inv _ _ _ Hwf Hc) as (Hg & evs & Ht & -> & Hi).
    split; [done|]. exists []. simpl. rewrite app_nil_r.
    repeat split; auto.
  - destruct (any_running_inv _ _ _ Hwf Hc) as (Hg & evs & Ht & Hb).
    assert (Hg' : same_globals st (log (EvDelay 10) st1))
      by (eapply same_globals_trans; [exact Hg | apply same_globals_log]).
    destruct (IH _ _ (same_globals_wf _ _ Hg' Hwf) H)
      as (Hg2 & rounds & Hlen & Hall & Ht2 & Hi).
    pose proof Hg as Hg0. destruct Hg' as (Hs & _). destruct Hg as (Hs1 & _).
    simpl in Ht2, Hi, Hs, Hall. rewrite Hs in Hall, Ht2.
    split.
    { eapply same_globals_trans; [|exact Hg2].
      eapply same_globals_trans; [exact (conj Hs1 (proj2 Hg0))|apply same_globals_log]. }
    exists (evs :: rounds). simpl. repeat split.
    + lia.
    + by constructor.
    + rewrite Ht2, Ht. by rewrite <- !app_assoc.
    + intros i Hci.
      assert (Hci' : configured (log (EvDelay 10) st1) i).
      { destruct Hci as [s ?]. exists s. simpl. congruence. }
      specialize (Hi i Hci'). rewrite Ht in Hi.
      by rewrite <- !app_assoc in *.
  - inversion H; subst; clear H.
    destruct (any_running_inv _ _ _ Hwf Hc) as (Hg & evs & Ht & -> & Hi).
    split; [done|]. exists []. simpl. rewrite app_nil_r.
    repeat split; auto with lia.
Qed.

(** More rounds do not change a result. *)
Lemma wait_idle_mono fuel : forall fuel' st r,
  (fuel <= fuel')%nat ->
  wait_idle E fuel st = Some r -> wait_idle E fuel' st = Some r.
Proof.
  induction fuel as [|fuel IH]; intros fuel' st r Hle H;
    rewrite wait_idle_unfold in H; rewrite wait_idle_unfold;
    destruct (any_running E st) as [[[] st1]|]; try discriminate; auto.
  destruct fuel' as [|fuel']; [lia|]. apply IH; [lia|done].
Qed.

(** With no stepper, the loop is left at its first check. *)
Lemma wait_idle_unconfigured fuel st :
  steppers st = [None; None] ->
  wait_idle E fuel st = Some (tt, st).
Proof.
  intros Hs. rewrite wait_idle_unfold.
  unfold any_running, stepper_running. destruct st; simpl in Hs; subst.
  reflexivity.
Qed.
End WaitLoop.

Ltac in_list :=
  rewrite ?list_elem_of_In; simpl; intuition (discriminate || eauto).

Ltac no_stepper :=
  let i := fresh in let c := fresh in let H := fresh in
  intros i c H; repeat (apply elem_of_cons in H as [H|H]; [discriminate|]);
  by apply elem_of_nil in H.

Section MoveBothMotors.
Variable E : environment.

(** The branch of the last sketch for speed 0. *)
Lemma moveBothMotors_stopped fuel steps st :
  wf st ->
  SpdRevAccel.speed st = 0 ->
  exists st',
    moveBothMotors E SkSpdRevAccel fuel steps st = Some (tt, st') /\
    same_globals st st' /\
    trace st' = trace st ++
      EvSerial_println "Speed is 0, skipping move and stopping motors." ::
      stepper_events (steppers st) (fun _ => stop_calls).
Proof.
  intros Hwf Hv. wf_state st Hwf.
  unfold moveBothMotors, SpdRevAccel.moveBothMotors. step_prog.
  destruct (decide _) as [_|]; [|done].
  destruct s0, s1; simpl; eexists; (split; [reflexivity|]);
    (split; [by repeat split|]); simpl; by rewrite <- ?app_assoc.
Qed.

(** Every other call of [moveBothMotors], when it returns. *)
Lemma moveBothMotors_moved sk fuel steps st st' :
  wf st ->
  (sk = SkSpdRevAccel -> SpdRevAccel.speed st <> 0) ->
  moveBothMotors E sk fuel steps st = Some (tt, st') ->
  steppers st' = steppers st /\
  currentSpeedIndex st' = currentSpeedIndex st /\
  accelerationRate st' = accelerationRate st /\
  revolutionsPerMove st' = revolutionsPerMove st /\
  pulseCounts st' = add_where_configured (steppers st) steps (pulseCounts st) /\
  exists rounds,
    (length rounds <= fuel)%nat /\
    Forall (busy_check (steppers st)) rounds /\
    let issued := trace st ++ move_prologue sk steps st ++
                  stepper_events (steppers st) (fun _ => move_calls sk steps st) in
    trace st' = issued ++ polled rounds ++ idle_checks (steppers st) ++ move_epilogue sk /\
    forall i, configured st i ->
      reported_idle E (issued ++ polled rounds) (trace st') i.
Proof.
  intros Hwf Hv H. wf_state st Hwf.
  destruct sk; unfold moveBothMotors, Basic.moveBothMotors, AdjSpeed.moveBothMotors,
    SpdRevAccel.moveBothMotors in H; step_prog.
  4: destruct (decide _) as [e|_]; [by destruct Hv|].
  all: destruct s0, s1; simpl in H.
  all: match type of H with
       | context [wait_idle ?e ?f ?s] =>
           destruct (wait_idle e f s) as [[[] st2]|] eqn:Hw; [|discriminate];
           apply wait_idle_inv in Hw; [|by split];
           destruct Hw as ((?&?&?&?&?) & rounds & Hlen & Hall & Ht & Hi)
       end; destruct st2; simpl in *; inversion H; subst; clear H; simpl.
  all: do 5 (split; [reflexivity|]); exists rounds.
  all: split; [done|]; split; [done|].
  all: unfold stepper_events, SpdRevAccel.speed; simpl.
  all: split; [rewrite <- ?app_assoc in *; simpl in *; by rewrite ?app_nil_r|].
  all: intros i [s Hs]; destruct i as [|[|i]]; simpl in Hs; try discriminate.
  all: eapply reported_idle_weaken; [| |apply Hi; by exists s].
  all: try (rewrite <- ?app_assoc; simpl; reflexivity).
  all: eexists; rewrite <- ?app_assoc; simpl; reflexivity.
Qed.

(** A call that issues the move passes through the state in which
    [moveBothMotors_begun] ends. *)
Lemma moveBothMotors_cut sk fuel steps st :
  wf st ->
  (sk = SkSpdRevAccel -> SpdRevAccel.speed st <> 0) ->
  moveBothMotors E sk fuel steps st =
  (moveBothMotors_begun sk steps ;; moveBothMotors_ended E sk fuel steps) st.
Proof.
  intros Hwf Hv. wf_state st Hwf.
  destruct sk; unfold moveBothMotors, Basic.moveBothMotors, AdjSpeed.moveBothMotors,
    SpdRevAccel.moveBothMotors, moveBothMotors_begun, moveBothMotors_ended,
    move_stepper; step_prog.
  4: destruct (decide _) as [e|_]; [by destruct Hv|].
  all: destruct s0, s1; reflexivity.
Qed.
End MoveBothMotors.

Section Operations.
Variable E : environment.

Lemma updateSpeed_inv sk upd st :
  wf st ->
  updateSpeed sk = Some upd ->
  exists n st',
    speedLevelsCount sk = Some n /\
    upd st = Some (tt, st') /\
    steppers st' = steppers st /\
    pulseCounts st' = pulseCounts st /\
    accelerationRate st' = accelerationRate st /\
    revolutionsPerMove st' = revolutionsPerMove st /\
    currentSpeedIndex st' = next_index n (currentSpeedIndex st) /\
    trace st' = trace st ++ update_prologue sk st' ++
      stepper_events (steppers st) (fun _ => update_calls sk st') ++
      instructions_events sk st'.
Proof.
  intros Hwf Hu. wf_state st Hwf.
  destruct sk; simpl in Hu; inversion Hu; subst; clear Hu.
  - exists AdjSpeed.speedLevelsCount.
    match goal with |- context [?p ?s = Some _] =>
      destruct (p s) as [[[] st']|] eqn:H end;
      unfold AdjSpeed.updateSpeed, AdjSpeed.drawInstructions in H;
      unfold next_index; step_prog;
      destruct (bool_decide _); simpl in H; destruct s0, s1; simpl in H;
      inversion H; subst; clear H; eexists;
      (do 7 (split; [reflexivity|])); simpl; by rewrite <- ?app_assoc.
  - exists SpdRevAccel.speedLevelsCount.
    match goal with |- context [?p ?s = Some _] =>
      destruct (p s) as [[[] st']|] eqn:H end;
      unfold SpdRevAccel.updateSpeed, SpdRevAccel.drawInstructions in H;
      unfold next_index; step_prog;
      destruct (bool_decide _); simpl in H;
      repeat case_decide; simpl in H;
      destruct s0, s1; simpl in H;
      inversion H; subst; clear H; eexists;
      (do 7 (split; [reflexivity|])); simpl; unfold update_calls;
      step_prog; repeat case_decide; try done;
      by rewrite <- ?app_assoc.
Qed.

Lemma drawStatus_inv sk st :
  exists st',
    drawStatus sk st = Some (tt, st') /\
    same_globals st st' /\
    trace st' = trace st ++ status_events sk st.
Proof.
  destruct st, sk; eexists; (split; [reflexivity|]);
    (split; [by repeat split|]); simpl; by rewrite <- ?app_assoc.
Qed.

Lemma drawInstructions_inv sk draw st :
  drawInstructions sk = Some draw ->
  exists st',
    draw st = Some (tt, st') /\
    same_globals st st' /\
    trace st' = trace st ++ instructions_events sk st.
Proof.
  intros Hd. destruct st, sk; inversion Hd; subst; eexists;
    (split; [reflexivity|]);
    (split; [by repeat split|]); simpl; by rewrite <- ?app_assoc.
Qed.

(** [setup] binds the steppers and leaves the counters and the speed
    index as they were initialised. *)
Lemma setup_inv sk :
  exists st,
    setup E sk (init sk) = Some (tt, st) /\
    steppers st = [stepperConnectToPin E X_STEP_PIN;
                   stepperConnectToPin E Y_STEP_PIN] /\
    pulseCounts st = [0; 0] /\
    currentSpeedIndex st = 0.
Proof.
  destruct sk; unfold setup, init, Basic.setup, AdjSpeed.setup, SpdRevAccel.setup,
    Basic.setup_stepper, AdjSpeed.drawInstructions, AdjSpeed.drawStatus,
    SpdRevAccel.drawInstructions, SpdRevAccel.drawStatus, Basic.init,
    AdjSpeed.init, SpdRevAccel.init; step_prog;
    destruct (stepperConnectToPin E X_STEP_PIN),
             (stepperConnectToPin E Y_STEP_PIN); simpl;
    eexists; (split; [reflexivity|]); by repeat split.
Qed.
End Operations.

Lemma since_app st st' evs : trace st' = trace st ++ evs -> since st st' = evs.
Proof. intros H. unfold since. rewrite H. apply drop_app_length. Qed.

Lemma calls_on_app i evs1 evs2 :
  calls_on i (evs1 ++ evs2) = calls_on i evs1 ++ calls_on i evs2.
Proof.
  induction evs1 as [|[j c| | | | |] evs1 IH]; simpl; auto.
  destruct (decide (j = i)); simpl; congruence.
Qed.

Lemma calls_on_busy_check sp c i :
  length sp = 2%nat -> busy_check sp c -> sp !! i = Some None -> calls_on i c = [].
Proof.
  intros Hlen Hc Hi.
  destruct sp as [|s0 [|s1 [|]]]; try discriminate.
  destruct i as [|[|i]]; simpl in Hi; try discriminate;
    inversion Hc as [s Hs|s Hs]; simpl in Hs; simplify_eq; try reflexivity.
Qed.

Lemma calls_on_polled sp rounds i :
  length sp = 2%nat -> Forall (busy_check sp) rounds -> sp !! i = Some None ->
  calls_on i (polled rounds) = [].
Proof.
  intros Hlen Hall Hi. induction Hall as [|c rounds Hc _ IH]; [done|].
  unfold polled in *. simpl. rewrite !calls_on_app, IH.
  by rewrite (calls_on_busy_check sp c i).
Qed.

Lemma calls_on_idle_checks sp i :
  sp !! i = Some None -> calls_on i (idle_checks sp) = [].
Proof.
  intros Hi. unfold idle_checks, check_on.
  destruct i as [|[|i]].
  - rewrite (list_lookup_total_correct _ _ _ Hi). simpl.
    destruct (sp !!! 1%nat); reflexivity.
  - rewrite (list_lookup_total_correct sp 1 _ Hi). rewrite app_nil_r.
    destruct (sp !!! 0%nat); reflexivity.
  - destruct (sp !!! 0%nat), (sp !!! 1%nat); reflexivity.
Qed.

Lemma calls_on_stepper_events sp f i :
  sp !! i = Some None -> calls_on i (stepper_events sp f) = [].
Proof.
  intros Hi. unfold stepper_events. simpl. rewrite app_nil_r, calls_on_app.
  assert (Hmap : forall j l, j <> i -> calls_on i (map (EvStepper j) l) = []).
  { intros j l Hj. induction l; simpl; [done|]. by destruct (decide (j = i)). }
  destruct i as [|[|i]].
  - rewrite (list_lookup_total_correct _ _ _ Hi). simpl.
    destruct (sp !!! 1%nat); [by apply Hmap|done].
  - rewrite (list_lookup_total_correct sp 1 _ Hi). rewrite app_nil_r.
    destruct (sp !!! 0%nat); [by apply Hmap|done].
  - destruct (sp !!! 0%nat), (sp !!! 1%nat); rewrite ?Hmap; auto.
Qed.

Lemma calls_on_no_stepper_call evs i :
  no_stepper_call evs -> calls_on i evs = [].
Proof.
  intros H. induction evs as [|e evs IH]; [done|].
  assert (no_stepper_call evs) by (intros j c Hin; apply (H j c); by right).
  destruct e as [j c| | | | |]; simpl; auto.
  exfalso. apply (H j c). by left.
Qed.

Lemma calls_on_stepper_events_configured sp f i s :
  length sp = 2%nat -> sp !! i = Some (Some s) ->
  calls_on i (stepper_events sp f) = f i.
Proof.
  intros Hlen Hi. destruct sp as [|s0 [|s1 [|]]]; try discriminate.
  assert (Hsame : forall j l, calls_on j (map (EvStepper j) l) = l).
  { intros j l. induction l; simpl; [done|]. destruct (decide (j = j)); congruence. }
  assert (Hmap : forall j k l, j <> k -> calls_on k (map (EvStepper j) l) = []).
  { intros j k l Hj. induction l; simpl; [done|]. by destruct (decide (j = k)). }
  unfold stepper_events. simpl. rewrite app_nil_r, calls_on_app.
  destruct i as [|[|i]]; simpl in Hi; try discriminate; simplify_eq.
  - rewrite Hsame. destruct s1; rewrite ?Hmap, ?app_nil_r; auto.
  - rewrite Hsame. destruct s0; rewrite ?Hmap; auto.
Qed.

Lemma no_stepper_call_prints sk steps st :
  no_stepper_call (move_prologue sk steps st) /\
  no_stepper_call (move_epilogue sk) /\
  no_stepper_call (update_prologue sk st) /\
  no_stepper_call (instructions_events sk st) /\
  no_stepper_call (status_events sk st).
Proof. destruct sk; repeat split; no_stepper. Qed.

Section OperationsFrame.
Variable E : environment.

(** Every operation, when it returns: what it leaves alone, and that it
    makes no call on a stepper that is null. *)
Lemma run_op_inv sk fuel o p st st' :
  wf st ->
  run_op E sk fuel o = Some p ->
  p st = Some (tt, st') ->
  steppers st' = steppers st /\
  accelerationRate st' = accelerationRate st /\
  revolutionsPerMove st' = revolutionsPerMove st /\
  (exists evs, trace st' = trace st ++ evs /\
     forall i, steppers st !! i = Some None -> calls_on i evs = []) /\
  match o with
  | OpMove steps =>
      currentSpeedIndex st' = currentSpeedIndex st /\
      pulseCounts st' =
        if decide (sk = SkSpdRevAccel /\ SpdRevAccel.speed st = 0)
        then pulseCounts st
        else add_where_configured (steppers st) steps (pulseCounts st)
  | OpUpdateSpeed =>
      pulseCounts st' = pulseCounts st /\
      exists n, speedLevelsCount sk = Some n /\
                currentSpeedIndex st' = next_index n (currentSpeedIndex st)
  | OpDrawStatus | OpDrawInstructions | OpButtons =>
      pulseCounts st' = pulseCounts st /\
      currentSpeedIndex st' = currentSpeedIndex st
  end.
Proof.
  intros Hwf Hrun H. pose proof Hwf as [Hlen _].
  destruct o as [steps| | | |]; simpl in Hrun.
  - inversion Hrun; subst; clear Hrun. case_decide as Hz.
    + destruct Hz as [-> Hz].
      destruct (moveBothMotors_stopped E fuel steps st Hwf Hz)
        as (st'' & Hrun & (?&?&?&?&?) & Ht).
      rewrite Hrun in H. inversion H; subst; clear H.
      repeat split; auto. eexists; split; [exact Ht|].
      intros i Hi. simpl. by apply calls_on_stepper_events.
    + assert (Hnz : sk = SkSpdRevAccel -> SpdRevAccel.speed st <> 0)
        by (intros -> Hv; apply Hz; by split).
      destruct (moveBothMotors_moved E sk fuel steps st st' Hwf Hnz H) as
        (?&?&?&?&?& rounds & _ & Hall & Ht & _).
      repeat split; auto. eexists; split.
      { rewrite Ht. rewrite <- !app_assoc. reflexivity. }
      intros i Hi.
      destruct (no_stepper_call_prints sk steps st) as (Hp & He & _).
      rewrite !calls_on_app.
      rewrite (calls_on_no_stepper_call _ _ Hp), (calls_on_no_stepper_call _ _ He).
      rewrite calls_on_stepper_events, (calls_on_polled (steppers st)),
        calls_on_idle_checks; auto.
  - destruct (updateSpeed_inv sk p st Hwf Hrun)
      as (n & st'' & Hn & Hrun' & ?&?&?&?&?& Ht).
    rewrite Hrun' in H. inversion H; subst; clear H.
    repeat split; eauto. eexists; split; [exact Ht|].
    intros i Hi.
    destruct (no_stepper_call_prints sk 0 st') as (_ & _ & Hp & He & _).
    rewrite !calls_on_app.
    rewrite (calls_on_no_stepper_call _ _ Hp), (calls_on_no_stepper_call _ _ He).
    by rewrite calls_on_stepper_events.
  - inversion Hrun; subst; clear Hrun.
    destruct (drawStatus_inv sk st) as (st'' & Hrun & (?&?&?&?&?) & Ht).
    rewrite Hrun in H. inversion H; subst; clear H.
    repeat split; auto. eexists; split; [exact Ht|].
    intros i _. apply calls_on_no_stepper_call.
    apply (no_stepper_call_prints sk 0 st).
  - destruct (drawInstructions_inv sk p st Hrun) as (st'' & Hrun' & (?&?&?&?&?) & Ht).
    rewrite Hrun' in H. inversion H; subst; clear H.
    repeat split; auto. eexists; split; [exact Ht|].
    intros i _. apply calls_on_no_stepper_call.
    apply (no_stepper_call_prints sk 0 st).
  - inversion Hrun; subst; clear Hrun. inversion H; subst; clear H.
    repeat split; auto. eexists; split; [reflexivity|]. done.
Qed.

Lemma add_where_configured_length sp steps pc :
  length sp = 2%nat -> length pc = 2%nat ->
  length (add_where_configured sp steps pc) = 2%nat.
Proof.
  intros Hs Hp. unfold add_where_configured. rewrite length_zip_with. lia.
Qed.

Lemma run_op_wf sk fuel o p st st' :
  wf st -> run_op E sk fuel o = Some p -> p st = Some (tt, st') -> wf st'.
Proof.
  intros Hwf Hrun H. pose proof Hwf as [Hs Hp].
  destruct (run_op_inv sk fuel o p st st' Hwf Hrun H) as (Hs' & _ & _ & _ & Ho).
  split; [congruence|].
  destruct o; try (destruct Ho as [-> _]; done).
  destruct Ho as [_ ->]. case_decide; [done|].
  by apply add_where_configured_length.
Qed.

Lemma reachable_wf sk st : reachable E sk st -> wf st.
Proof.
  induction 1 as [st Hs|st fuel o p st' _ IH Hrun Hp].
  - destruct (setup_inv E sk) as (st0 & Hs0 & Hst & Hpc & _).
    rewrite Hs0 in Hs. inversion Hs; subst. split; [by rewrite Hst|by rewrite Hpc].
  - eapply run_op_wf; eauto.
Qed.
End OperationsFrame.

(** * The claims *)

Lemma wrap_long_id z : in_range LONG_BITS z -> wrap_long z = z.
Proof.
  unfold in_range, wrap_long, wrap, LONG_BITS. simpl. intros Hz.
  rewrite Z.mod_small; lia.
Qed.

Lemma wrap_int_id z : in_range INT_BITS z -> wrap_int z = z.
Proof.
  unfold in_range, wrap_int, wrap, INT_BITS. simpl. intros Hz.
  rewrite Z.mod_small; lia.
Qed.

Lemma speedLevelsCount_6 sk n : speedLevelsCount sk = Some n -> n = 6.
Proof. destruct sk; intros H; inversion H; reflexivity. Qed.

Lemma next_index_mod idx : 0 <= idx < 6 -> next_index 6 idx = (idx + 1) mod 6.
Proof.
  intros Hi. unfold next_index. rewrite wrap_int_id.
  2: { unfold in_range, INT_BITS. simpl. lia. }
  case_bool_decide.
  - replace idx with 5 by lia. reflexivity.
  - rewrite Z.mod_small; lia.
Qed.

Lemma speedLevel_nonzero sk st :
  speedLevel sk st <> Some 0 -> sk = SkSpdRevAccel -> SpdRevAccel.speed st <> 0.
Proof.
  intros H -> Hv. apply H. unfold speedLevel. simpl.
  unfold SpdRevAccel.speed in Hv. by rewrite Hv.
Qed.

Section Claims.
Variable E : environment.

(** C1 (as amended).  In every sketch, for every step count and every
    stepper that is not null: when the selected speed level is not 0 and
    [moveBothMotors(steps)] returns, the stepper's entry of [pulseCounts]
    is its old value plus [steps], wrapped to the width of [long]; as long
    as that sum fits in a [long], the entry has changed by exactly
    [steps], in magnitude and in sign. *)
Theorem moveBothMotors_adds_steps sk fuel steps st st' i :
  wf st ->
  configured st i ->
  speedLevel sk st <> Some 0 ->
  moveBothMotors E sk fuel steps st = Some (tt, st') ->
  pulseCounts st' !! i = Some (wrap_long (pulseCounts st !!! i + steps)) /\
  (in_range LONG_BITS (pulseCounts st !!! i + steps) ->
   let delta := pulseCounts st' !!! i - pulseCounts st !!! i in
   delta = steps /\ Z.abs delta = Z.abs steps /\ Z.sgn delta = Z.sgn steps).
Proof.
  intros Hwf [s Hi] Hv H.
  destruct (moveBothMotors_moved E sk fuel steps st st' Hwf
              (speedLevel_nonzero sk st Hv) H) as (_&_&_&_& Hpc &_).
  assert (Hnew : pulseCounts st' !! i =
                 Some (wrap_long (pulseCounts st !!! i + steps))).
  { rewrite Hpc. wf_state st Hwf. simpl in *.
    destruct i as [|[|i]]; simpl in Hi; simplify_eq; reflexivity. }
  split; [exact Hnew|]. intros Hr delta. subst delta.
  rewrite (list_lookup_total_correct _ _ _ Hnew), (wrap_long_id _ Hr).
  replace (pulseCounts st !!! i + steps - pulseCounts st !!! i) with steps by lia.
  auto.
Qed.

(** C2 (as amended).  In the sketch with speed, reverse and acceleration
    ([2MotorControlBasic16StepAdj-spd-rev-accel.cpp]), for every step
    count: if the selected speed level is 0, [moveBothMotors] returns,
    has called [stopMove] on every stepper that is not null, has called
    [move] on none, and has left [pulseCounts] as it was. *)
Theorem SpdRevAccel_zero_speed_stops fuel steps st :
  wf st ->
  SpdRevAccel.speed st = 0 ->
  exists st',
    SpdRevAccel.moveBothMotors E fuel steps st = Some (tt, st') /\
    pulseCounts st' = pulseCounts st /\
    trace st `prefix_of` trace st' /\
    (forall i, configured st i -> stopMove ∈ calls_on i (since st st')) /\
    (forall i s, move s ∉ calls_on i (since st st')).
Proof.
  intros Hwf Hv.
  destruct (moveBothMotors_stopped E fuel steps st Hwf Hv)
    as (st' & Hrun & (_&Hpc&_) & Ht).
  exists st'. split; [exact Hrun|]. split; [exact Hpc|].
  split; [rewrite Ht; by apply prefix_app_r|].
  rewrite (since_app _ _ _ Ht). pose proof Hwf as [Hlen _]. split.
  - intros i [s Hi]. simpl.
    rewrite (calls_on_stepper_events_configured _ _ i s Hlen Hi).
    unfold stop_calls. in_list.
  - intros i s. simpl.
    destruct (steppers st !! i) as [[a|]|] eqn:Hi.
    + rewrite (calls_on_stepper_events_configured _ _ i a Hlen Hi).
      unfold stop_calls. in_list.
    + rewrite (calls_on_stepper_events _ _ i Hi). in_list.
    + apply lookup_ge_None in Hi. destruct i as [|[|i]]; try lia.
      unfold stepper_events. simpl. rewrite app_nil_r, calls_on_app.
      assert (Hmap : forall j l, j <> S (S i) ->
                calls_on (S (S i)) (map (EvStepper j) l) = []).
      { intros j l Hj. induction l; simpl; [done|].
        by destruct (decide (j = S (S i))). }
      destruct (steppers st !!! 0%nat), (steppers st !!! 1%nat);
        rewrite ?Hmap; simpl; try lia; in_list.
Qed.
End Claims.

Section ClaimsSpeed.
Variable E : environment.

Lemma times_updateSpeed sk upd k : forall st,
  updateSpeed sk = Some upd ->
  wf st ->
  0 <= currentSpeedIndex st < 6 ->
  exists st',
    times k upd st = Some (tt, st') /\
    wf st' /\
    currentSpeedIndex st' = (currentSpeedIndex st + Z.of_nat k) mod 6.
Proof.
  induction k as [|k IH]; intros st Hu Hwf Hi.
  - exists st. repeat split; try apply Hwf.
    rewrite Z.add_0_r, Z.mod_small; lia.
  - destruct (updateSpeed_inv sk upd st Hwf Hu)
      as (n & st1 & Hn & Hrun & Hs & Hp & _ & _ & Hidx & _).
    apply speedLevelsCount_6 in Hn. subst n.
    rewrite next_index_mod in Hidx by done.
    assert (Hwf1 : wf st1) by (destruct Hwf; split; congruence).
    destruct (IH st1 Hu Hwf1) as (st' & Hrun' & Hwf' & Hidx').
    { rewrite Hidx. apply Z.mod_pos_bound. lia. }
    exists st'. split; [|split; [done|]].
    + simpl. unfold bind. by rewrite Hrun.
    + rewrite Hidx', Hidx, Zplus_mod_idemp_l. f_equal. lia.
Qed.

(** C4.  In both sketches that have [updateSpeed], from every starting
    index in [0, speedLevelsCount): calling [updateSpeed]
    [speedLevelsCount] times in a row returns, and [currentSpeedIndex] is
    back at its starting value. *)
Theorem updateSpeed_cycle sk upd n st :
  wf st ->
  updateSpeed sk = Some upd ->
  speedLevelsCount sk = Some n ->
  0 <= currentSpeedIndex st < n ->
  exists st',
    times (Z.to_nat n) upd st = Some (tt, st') /\
    currentSpeedIndex st' = currentSpeedIndex st.
Proof.
  intros Hwf Hu Hn Hi. apply speedLevelsCount_6 in Hn. subst n.
  destruct (times_updateSpeed sk upd (Z.to_nat 6) st Hu Hwf Hi)
    as (st' & Hrun & _ & Hidx).
  exists st'. split; [exact Hrun|]. rewrite Hidx.
  change (Z.of_nat (Z.to_nat 6)) with (1 * 6).
  rewrite Z_mod_plus_full, Z.mod_small; lia.
Qed.

Lemma reachable_index sk n st :
  speedLevelsCount sk = Some n ->
  reachable E sk st ->
  0 <= currentSpeedIndex st < n.
Proof.
  intros Hn Hr. pose proof (speedLevelsCount_6 _ _ Hn). subst n.
  induction Hr as [st Hs|st fuel o p st' Hr IH Hrun Hp].
  - destruct (setup_inv E sk) as (st0 & Hs0 & _ & _ & Hidx).
    rewrite Hs0 in Hs. inversion Hs; subst. lia.
  - destruct (run_op_inv E sk fuel o p st st' (reachable_wf E sk st Hr) Hrun Hp)
      as (_ & _ & _ & _ & Ho).
    destruct o.
    + destruct Ho as [-> _]. exact IH.
    + destruct Ho as (_ & n & Hn' & ->).
      apply speedLevelsCount_6 in Hn'. subst n.
      rewrite next_index_mod by done. apply Z.mod_pos_bound. lia.
    + destruct Ho as [_ ->]. exact IH.
    + destruct Ho as [_ ->]. exact IH.
    + destruct Ho as [_ ->]. exact IH.
Qed.

(** C5.  In both sketches that have the speed table: in every state
    [st] the sketch can be in after [setup] and any operations,
    [currentSpeedIndex] is in [0, speedLevelsCount); and [updateSpeed],
    called in any state [st_last] in which [currentSpeedIndex] is the
    last index (whether or not the sketch can get there), returns with
    [currentSpeedIndex] at 0. *)
Theorem currentSpeedIndex_in_range sk n upd st st_last :
  speedLevelsCount sk = Some n ->
  updateSpeed sk = Some upd ->
  reachable E sk st ->
  wf st_last ->
  currentSpeedIndex st_last = n - 1 ->
  0 <= currentSpeedIndex st < n /\
  exists st', upd st_last = Some (tt, st') /\ currentSpeedIndex st' = 0.
Proof.
  intros Hn Hu Hr Hwf Hlast. split; [exact (reachable_index sk n st Hn Hr)|].
  destruct (updateSpeed_inv sk upd st_last Hwf Hu)
    as (n' & st' & Hn' & Hrun & _ & _ & _ & _ & Hidx & _).
  exists st'. split; [exact Hrun|].
  apply speedLevelsCount_6 in Hn, Hn'. subst n n'.
  rewrite Hidx, Hlast. reflexivity.
Qed.

(** C6 (as amended).  In the sketch with speed, reverse and
    acceleration: [updateSpeed] returns, and the calls it has made on a
    stepper that is not null are [setSpeedInHz(0)] then [stopMove()] when
    the level it advanced to is 0, and the single call [setSpeedInHz] with
    the new level otherwise (no [stopMove], no [move]). *)
Theorem SpdRevAccel_updateSpeed_calls st i :
  wf st ->
  configured st i ->
  exists st',
    SpdRevAccel.updateSpeed st = Some (tt, st') /\
    trace st `prefix_of` trace st' /\
    calls_on i (since st st') =
      if decide (SpdRevAccel.speed st' = 0)
      then [setSpeedInHz 0; stopMove]
      else [setSpeedInHz (SpdRevAccel.speed st')].
Proof.
  intros Hwf [s Hi]. pose proof Hwf as [Hlen _].
  destruct (updateSpeed_inv SkSpdRevAccel SpdRevAccel.updateSpeed st Hwf eq_refl)
    as (n & st' & _ & Hrun & _ & _ & _ & _ & _ & Ht).
  exists st'. split; [exact Hrun|].
  split; [rewrite Ht; by apply prefix_app_r|].
  rewrite (since_app _ _ _ Ht).
  destruct (no_stepper_call_prints SkSpdRevAccel 0 st') as (_ & _ & Hp & He & _).
  rewrite !calls_on_app.
  rewrite (calls_on_stepper_events_configured _ _ i s Hlen Hi).
  rewrite (calls_on_no_stepper_call (update_prologue _ _) i Hp).
  rewrite (calls_on_no_stepper_call (instructions_events _ _) i He).
  simpl. rewrite app_nil_r. unfold stop_calls. by case_decide.
Qed.

(** C7.  In every sketch, for every operation ([moveBothMotors] with its
    wait loop, [updateSpeed], [drawStatus], [drawInstructions],
    [M5.update()]) and every
    channel [i] whose stepper pointer is null: when the operation returns
    it has made no call at all on stepper [i] (no move, stop, setting or
    [isRunning]), [pulseCounts[i]] is what it was and the pointer is still
    null; and an operation that finds no stepper at all returns, whatever
    the number of rounds allowed to its wait loop. *)
Theorem null_stepper_skipped sk fuel o p st i :
  wf st ->
  steppers st !! i = Some None ->
  run_op E sk fuel o = Some p ->
  (forall st',
     p st = Some (tt, st') ->
     trace st `prefix_of` trace st' /\
     calls_on i (since st st') = [] /\
     pulseCounts st' !! i = pulseCounts st !! i /\
     steppers st' !! i = Some None) /\
  (steppers st = [None; None] -> exists st', p st = Some (tt, st')).
Proof.
  intros Hwf Hi Hrun. split.
  - intros st' Hp.
    destruct (run_op_inv E sk fuel o p st st' Hwf Hrun Hp)
      as (Hs & _ & _ & (evs & Ht & Hc) & Ho).
    split; [rewrite Ht; by apply prefix_app_r|].
    split; [rewrite (since_app _ _ _ Ht); by apply Hc|].
    split; [|by rewrite Hs].
    destruct o; try (destruct Ho as [-> _]; done).
    destruct Ho as [_ ->]. case_decide; [done|].
    wf_state st Hwf. simpl in *.
    destruct i as [|[|i]]; simpl in Hi; simplify_eq; try reflexivity.
  - intros Hnone. destruct o as [steps| | | |]; simpl in Hrun.
    + inversion Hrun; subst; clear Hrun.
      destruct (decide (sk = SkSpdRevAccel /\ SpdRevAccel.speed st = 0)) as [[-> Hz]|Hz].
      * destruct (moveBothMotors_stopped E fuel steps st Hwf Hz) as (st' & ? & _).
        eauto.
      * wf_state st Hwf. simpl in Hnone. simplify_eq.
        destruct sk; unfold moveBothMotors, Basic.moveBothMotors,
          AdjSpeed.moveBothMotors, SpdRevAccel.moveBothMotors; step_prog.
        4: case_decide; [exfalso; apply Hz; by split|].
        1-3: eexists; by apply wait_idle_unconfigured.
        simpl. erewrite wait_idle_unconfigured by reflexivity. eauto.
    + destruct (updateSpeed_inv sk p st Hwf Hrun) as (n & st' & _ & ? & _). eauto.
    + inversion Hrun; subst.
      destruct (drawStatus_inv sk st) as (st' & ? & _). eauto.
    + destruct (drawInstructions_inv sk p st Hrun) as (st' & ? & _). eauto.
    + inversion Hrun; subst. eexists; reflexivity.
Qed.

(** C8.  In every sketch, for every operation that returns: the stepper
    pointers, [accelerationRate] and [revolutionsPerMove] are what they
    were; [moveBothMotors(steps)] leaves [currentSpeedIndex] alone and
    each entry of [pulseCounts] is either what it was or what it was plus
    [steps] (wrapped to the width of [long]); [updateSpeed] leaves
    [pulseCounts] alone; [drawStatus], [drawInstructions] and
    [M5.update()] leave both alone. *)
Theorem operations_frame sk fuel o p st st' :
  wf st ->
  run_op E sk fuel o = Some p ->
  p st = Some (tt, st') ->
  steppers st' = steppers st /\
  accelerationRate st' = accelerationRate st /\
  revolutionsPerMove st' = revolutionsPerMove st /\
  match o with
  | OpMove steps =>
      currentSpeedIndex st' = currentSpeedIndex st /\
      forall i, (i < 2)%nat ->
        pulseCounts st' !!! i = pulseCounts st !!! i \/
        pulseCounts st' !!! i = wrap_long (pulseCounts st !!! i + steps)
  | OpUpdateSpeed => pulseCounts st' = pulseCounts st
  | OpDrawStatus | OpDrawInstructions | OpButtons =>
      pulseCounts st' = pulseCounts st /\
      currentSpeedIndex st' = currentSpeedIndex st
  end.
Proof.
  intros Hwf Hrun Hp.
  destruct (run_op_inv E sk fuel o p st st' Hwf Hrun Hp)
    as (Hs & Ha & Hr & _ & Ho).
  do 3 (split; [done|]).
  destruct o; try tauto.
  destruct Ho as [Hidx Hpc]. split; [done|]. intros i Hi. rewrite Hpc.
  case_decide; [by left|].
  wf_state st Hwf. simpl.
  destruct i as [|[|i]]; [| |lia]; [destruct s0|destruct s1]; simpl; auto.
Qed.


(** C10 (as amended).  In every sketch, in every state the sketch can
    be in after [setup] and any operations that have returned (so
    whenever no call of [moveBothMotors] is under way): when both stepper
    pointers are non-null, [pulseCounts[0] == pulseCounts[1]]. *)
Theorem pulseCounts_in_lockstep sk st :
  reachable E sk st ->
  configured st 0 ->
  configured st 1 ->
  pulseCounts st !!! 0%nat = pulseCounts st !!! 1%nat.
Proof.
  induction 1 as [st Hs|st fuel o p st' Hr IH Hrun Hp]; intros [a0 H0] [a1 H1].
  - destruct (setup_inv E sk) as (st0 & Hs0 & _ & Hpc & _).
    rewrite Hs0 in Hs. inversion Hs; subst. by rewrite Hpc.
  - pose proof (reachable_wf E sk st Hr) as Hwf.
    destruct (run_op_inv E sk fuel o p st st' Hwf Hrun Hp)
      as (Hs & _ & _ & _ & Ho).
    rewrite Hs in H0, H1.
    assert (Heq : pulseCounts st !!! 0%nat = pulseCounts st !!! 1%nat)
      by (apply IH; [by exists a0|by exists a1]).
    destruct o; try (destruct Ho as [-> _]; done).
    destruct Ho as [_ ->]. case_decide; [done|].
    wf_state st Hwf. simpl in *. simplify_eq. simpl. congruence.
Qed.
End ClaimsSpeed.

(** ** The main loop, and a wait that does not end *)

Lemma bind_inv {A B} (m : prog A) (k : A -> prog B) st r :
  bind m k st = Some r ->
  exists a st1, m st = Some (a, st1) /\ k a st1 = Some r.
Proof.
  unfold bind. destruct (m st) as [[a st1]|]; [eauto|discriminate].
Qed.

Section MainLoop.
Variable E : environment.

Lemma reachable_move_status sk fuel steps st st' :
  reachable E sk st ->
  bind (moveBothMotors E sk fuel steps) (fun _ => drawStatus sk) st = Some (tt, st') ->
  reachable E sk st'.
Proof.
  intros Hr H. apply bind_inv in H as ([] & st1 & Hm & Hd).
  eapply (reachable_op E sk st1 fuel OpDrawStatus); [|reflexivity|exact Hd].
  by eapply (reachable_op E sk st fuel (OpMove steps)).
Qed.

(** One round of [loop] is a sequence of operations. *)
Lemma loop_reachable sk fuel b st st' :
  reachable E sk st ->
  loop E sk fuel b st = Some (tt, st') ->
  reachable E sk st'.
Proof.
  intros Hr H.
  assert (Hb : reachable E sk (log (EvBoard M5_update) st))
    by (by eapply (reachable_op E sk st fuel OpButtons)).
  destruct b as [bA bB bC].
  destruct sk; unfold loop, Basic.loop, AdjSpeed.loop, SpdRevAccel.loop in H;
    apply bind_inv in H as ([] & st1 & H1 & H); inversion H1; subst; clear H1;
    apply bind_inv in H as ([] & st2 & H2 & H); simpl in H2.
  1-2: assert (H2r : reachable E _ st2)
         by (destruct bA; [by eapply reachable_move_status|inversion H2; by subst]).
  1-2: simpl in H; destruct bC; [by eapply reachable_move_status|inversion H; by subst].
  - assert (H2r : reachable E SkAdjSpeed st2)
      by (destruct bA; [by eapply reachable_move_status|inversion H2; by subst]).
    apply bind_inv in H as ([] & st3 & H3 & H); simpl in H3.
    assert (H3r : reachable E SkAdjSpeed st3)
      by (destruct bC; [by eapply reachable_move_status|inversion H3; by subst]).
    simpl in H. destruct bB; [|inversion H; by subst].
    by eapply (reachable_op E SkAdjSpeed st3 fuel OpUpdateSpeed).
  - assert (H2r : reachable E SkSpdRevAccel st2).
    { destruct bA; [|inversion H2; by subst].
      apply bind_inv in H2 as (steps & st1' & Hg & H2).
      inversion Hg; subst. by eapply reachable_move_status. }
    apply bind_inv in H as ([] & st3 & H3 & H); simpl in H3.
    assert (H3r : reachable E SkSpdRevAccel st3).
    { destruct bC; [|inversion H3; by subst].
      apply bind_inv in H3 as (steps & st2' & Hg & H3).
      inversion Hg; subst. by eapply reachable_move_status. }
    simpl in H. destruct bB; [|inversion H; by subst].
    by eapply (reachable_op E SkSpdRevAccel st3 fuel OpUpdateSpeed).
Qed.

(** While the library keeps answering that the X stepper is running,
    the wait loop does not come to its end, however many rounds it is
    given. *)
Lemma wait_idle_while_running fuel : forall st s,
  (forall tr, lib_isRunning E 0 tr = true) ->
  steppers st !! 0%nat = Some (Some s) ->
  wait_idle E fuel st = None.
Proof.
  induction fuel as [|fuel IH]; intros st s Hbusy Hs;
    rewrite wait_idle_unfold;
    unfold any_running, stepper_running, call_isRunning, bind, gets;
    rewrite (list_lookup_total_correct _ _ _ Hs), Hbusy; simpl; [done|].
  by apply (IH _ s).
Qed.

Lemma reachable_result sk fuel o p st :
  reachable E sk st ->
  run_op E sk fuel o = Some p ->
  (exists st', p st = Some (tt, st')) ->
  reachable E sk (result p st).
Proof.
  intros Hr Hrun [st' Hp]. unfold result. rewrite Hp.
  by eapply reachable_op.
Qed.
End MainLoop.

(** ** The ramp of one axis *)

Module AxisChannelFacts.
Import AxisChannel.

Section Ramp.
Variable law : Z -> Z -> Z.
Variables a v D : Z.
Hypothesis Hv : 0 < v.
Hypothesis Hrest : ramps_from_rest law a.
Hypothesis HD : ramp_distance law a v D.

Lemma ramp_distance_pos : 1 <= D.
Proof.
  destruct Hrest as [H0 _]. pose proof (HD 0 (Z.le_refl _)) as H.
  rewrite H0 in H. lia.
Qed.

Lemma rate_at_target r : 0 <= r -> (rate_at law a v r = v <-> D <= r).
Proof. intros Hr. unfold rate_at. rewrite <- (HD r Hr). lia. Qed.

Lemma rate_at_le r : rate_at law a v r <= v.
Proof. unfold rate_at. lia. Qed.

Lemma rate_at_positive r : 0 < r -> 0 < rate_at law a v r.
Proof.
  intros Hr. destruct Hrest as [_ Hpos]. specialize (Hpos r Hr).
  unfold rate_at. lia.
Qed.

Lemma rate_at_rest : rate_at law a v 0 = 0.
Proof. destruct Hrest as [H0 _]. unfold rate_at. rewrite H0. lia. Qed.

Lemma emits_left c :
  acceleration c = a -> emits law c = negb (target_steps c =? 0).
Proof.
  intros Hacc. unfold emits. rewrite Hacc. destruct Hrest as [_ Hpos].
  replace (0 <? law a 1) with true by (symmetry; apply Z.ltb_lt, Hpos; lia).
  apply andb_true_r.
Qed.

Lemma moving_tick n c : moving law a v D n c -> moving law a v D n (tick law c).
Proof.
  intros [Hacc Htg Hl Hr Hrate]. pose proof ramp_distance_pos as Hpos.
  unfold tick. rewrite (emits_left c Hacc), Htg, Hacc.
  destruct (target_steps c =? 0) eqn:Ht; simpl; [by constructor|].
  apply Z.eqb_neq in Ht.
  assert (H0 : 0 <= ramp_steps c) by lia.
  pose proof (rate_at_target (ramp_steps c) H0) as Hreach.
  pose proof (rate_at_le (ramp_steps c)) as Hle.
  destruct (target_steps c - 1 <=? ramp_steps c) eqn:Hdec;
    [apply Z.leb_le in Hdec|apply Z.leb_gt in Hdec];
    [|destruct (rate_at law a v (ramp_steps c) <? v) eqn:Hbelow;
      [apply Z.ltb_lt in Hbelow|apply Z.ltb_ge in Hbelow]];
    constructor; simpl; auto; lia.
Qed.

Lemma moving_run n k : forall c,
  moving law a v D n c -> moving law a v D n (run law k c).
Proof.
  induction k as [|k IH]; intros c Hc; [done|].
  simpl. apply IH. by apply moving_tick.
Qed.

(** A move of fewer than [2 * D] pulses stays below the target rate. *)
Lemma moving_below n c :
  moving law a v D n c -> n < 2 * D -> current_rate_hz c <> v.
Proof.
  intros [Hacc Htg Hl Hr Hrate] Hn. rewrite Hrate.
  rewrite rate_at_target by lia. lia.
Qed.

(** The rate all along a move: not above the target, above 0 between
    the first pulse and the last, and back at 0 with the last. *)
Lemma moving_profile n c :
  moving law a v D n c ->
  0 <= current_rate_hz c <= v /\
  (0 < target_steps c < n -> 0 < current_rate_hz c) /\
  (target_steps c = 0 -> current_rate_hz c = 0).
Proof.
  intros [Hacc Htg Hl Hr Hrate]. pose proof ramp_distance_pos as Hpos.
  rewrite Hrate. pose proof (rate_at_le (ramp_steps c)) as Hle.
  split; [|split].
  - destruct (Z.eq_dec (ramp_steps c) 0) as [->|Hn0].
    + rewrite rate_at_rest. lia.
    + pose proof (rate_at_positive (ramp_steps c)). lia.
  - intros Hmid. apply rate_at_positive. lia.
  - intros Hend. replace (ramp_steps c) with 0 by lia. apply rate_at_rest.
Qed.

(** The pulses: one per period, in the direction of the channel, until
    none is left. *)
Lemma count_pulses k : forall c,
  acceleration c = a ->
  Z.of_nat k <= target_steps c ->
  pulses law k c = repeat (direction_pin_state c) k /\
  target_steps (run law k c) = target_steps c - Z.of_nat k /\
  direction_pin_state (run law k c) = direction_pin_state c /\
  cumulative_pulses (run law k c) =
    match direction_pin_state c with
    | Forward => cumulative_pulses c + Z.of_nat k
    | Reverse => cumulative_pulses c - Z.of_nat k
    end.
Proof.
  induction k as [|k IH]; intros c Hacc Hk; simpl.
  { repeat split; try lia. destruct (direction_pin_state c); lia. }
  assert (Hem : emits law c = true).
  { rewrite (emits_left c Hacc).
    replace (target_steps c =? 0) with false by (symmetry; apply Z.eqb_neq; lia).
    done. }
  destruct (IH (tick law c)) as (Hp & Ht & Hd & Hc);
    unfold tick_pulse, tick in *; rewrite Hem in *; simpl in *; auto; try lia.
  rewrite Hp, Ht, Hd, Hc. repeat split; try lia.
  destruct (direction_pin_state c); lia.
Qed.

Lemma run_idle k : forall c, target_steps c = 0 -> run law k c = c.
Proof.
  induction k as [|k IH]; intros c Hc; [done|]. simpl.
  assert (Ht : tick law c = c) by (unfold tick, emits; by rewrite Hc).
  rewrite Ht. by apply IH.
Qed.

Lemma run_add j k c : run law (j + k) c = run law k (run law j c).
Proof. revert c. induction j as [|j IH]; intros c; simpl; auto. Qed.

(** A channel armed for [n] pulses from rest: the threshold is [2 * D]. *)
Lemma armed_move d n cum :
  0 < n ->
  let c0 := mkChannel d true n 0 v a cum 0 in
  (forall k, moving law a v D n (run law k c0)) /\
  (n < 2 * D -> forall k, current_rate_hz (run law k c0) <> v) /\
  (2 * D <= n -> current_rate_hz (run law (Z.to_nat D) c0) = v) /\
  pulses law (Z.to_nat n) c0 = repeat d (Z.to_nat n) /\
  forall k, (Z.to_nat n <= k)%nat ->
    is_running (run law k c0) = false /\
    cumulative_pulses (run law k c0) =
      match d with Forward => cum + n | Reverse => cum - n end.
Proof.
  intros Hn c0. pose proof ramp_distance_pos as Hpos.
  assert (Hm : moving law a v D n c0).
  { constructor; simpl; try lia. by rewrite rate_at_rest. }
  assert (Hall : forall k, moving law a v D n (run law k c0))
    by (intros k; by apply moving_run).
  destruct (count_pulses (Z.to_nat n) c0 eq_refl) as (Hp & Hleft & Hd & Hcum);
    [simpl; lia|].
  simpl in Hp, Hleft, Hd, Hcum.
  split; [exact Hall|]. split; [|split; [|split]].
  - intros Hlt k. by apply (moving_below n).
  - intros Hge.
    destruct (count_pulses (Z.to_nat D) c0 eq_refl) as (_ & HleftD & _);
      [simpl; lia|].
    simpl in HleftD. destruct (Hall (Z.to_nat D)) as [_ _ _ Hr Hrate].
    rewrite Hrate. apply rate_at_target; lia.
  - exact Hp.
  - intros k Hk.
    assert (Hz : target_steps (run law (Z.to_nat n) c0) = 0) by lia.
    replace k with (Z.to_nat n + (k - Z.to_nat n))%nat by lia.
    rewrite run_add, run_idle by exact Hz.
    destruct (moving_profile n _ (Hall (Z.to_nat n))) as (_ & _ & Hend).
    unfold is_running. rewrite Hz, (Hend Hz). split; [done|].
    rewrite Hcum. destruct d; lia.
Qed.
End Ramp.

(** Two thresholds for the same acceleration and target rate are the
    same: the threshold is the least step count that reaches the rate. *)
Lemma threshold_unique law a v T T' :
  0 <= T -> 0 <= T' -> threshold law a v T -> threshold law a v T' -> T = T'.
Proof.
  intros HT HT' H H'.
  assert (Hle : forall T1 T2, 0 <= T1 -> threshold law a v T1 ->
                  threshold law a v T2 -> T2 <= T1).
  { intros T1 T2 H1 Hth1 Hth2.
    destruct (Z.le_gt_cases T2 T1) as [|Hlt]; [done|]. exfalso.
    destruct (Hth1 at_rest T1 eq_refl) as (_ & Hreach & _).
    destruct (Hth2 at_rest T1 eq_refl) as (Hnever & _).
    destruct Hreach as [k Hk]; [lia|]. apply (Hnever ltac:(lia) k Hk). }
  pose proof (Hle T T' HT H H'). pose proof (Hle T' T HT' H' H). lia.
Qed.

(** C3 (as amended).  On the pulse generator modelled from the
    specification, for every ramp law, acceleration and target rate such
    that the target rate is not 0 and the ramp, which leaves rate 0 with
    its first pulse, reaches the target rate after [D] pulses (the ramp
    distance): the threshold is [2 * D] steps.  A move of a channel at
    rest never reaches the target rate when it asks for fewer steps
    (triangular profile) and reaches it when it asks for [2 * D] steps or
    more (trapezoidal profile); in both cases the move emits exactly as
    many pulses as it asked steps, all in the direction of its sign, then
    the channel is idle and its pulse counter has changed by the signed
    step count. *)
Theorem ramp_threshold law a v D :
  0 < v ->
  ramps_from_rest law a ->
  ramp_distance law a v D ->
  threshold law a v (2 * D).
Proof.
  intros Hv Hrest HD c steps Hidle c0.
  unfold is_running in Hidle. apply orb_false_elim in Hidle as [Ht Hr].
  apply negb_false_iff in Ht, Hr. apply Z.eqb_eq in Ht, Hr.
  pose proof (ramp_distance_pos law a v D Hv Hrest HD) as Hpos.
  assert (Hv0 : (v =? 0) = false) by (apply Z.eqb_neq; lia).
  destruct (Z.eq_dec steps 0) as [->|Hs].
  - (* a move of no step *)
    assert (Hc0 : c0 = configure a v c).
    { subst c0. unfold move. simpl. by rewrite Hv0. }
    assert (Hrun : forall k, run law k c0 = c0).
    { intros k. apply run_idle. by rewrite Hc0. }
    split; [|split; [|split]].
    + intros _ k. rewrite Hrun, Hc0. simpl. lia.
    + simpl. lia.
    + reflexivity.
    + intros k _. rewrite Hrun, Hc0. unfold is_running. simpl.
      rewrite Ht, Hr. split; [done|lia].
  - (* a move of [n] steps, from rest *)
    set (n := Z.abs steps).
    set (d := if 0 <? steps then Forward else Reverse).
    assert (Hc0 : c0 = mkChannel d true n 0 v a (cumulative_pulses c) 0).
    { subst c0. unfold move. simpl. rewrite Hv0.
      replace (steps =? 0) with false by (symmetry; by apply Z.eqb_neq).
      reflexivity. }
    assert (Hn : 0 < n) by (subst n; lia).
    destruct (armed_move law a v D Hv Hrest HD d n (cumulative_pulses c) Hn)
      as (_ & Hbelow & Hreach & Hp & Hend).
    rewrite <- Hc0 in Hbelow, Hreach, Hp, Hend.
    split; [exact Hbelow|]. split; [|split].
    + intros Hge. exists (Z.to_nat D). by apply Hreach.
    + exact Hp.
    + intros k Hk. destruct (Hend k Hk) as [Hi Hcum]. split; [exact Hi|].
      rewrite Hcum. subst d n.
      destruct (0 <? steps) eqn:Hsg;
        [apply Z.ltb_lt in Hsg|apply Z.ltb_ge in Hsg]; lia.
Qed.

(** The ramp all along a move of [n] pulses from rest: the rate never
    exceeds the target rate, is above 0 from the first pulse to the last
    but one, and is back at 0 exactly with the last pulse. *)
Lemma ramp_profile law a v D steps c k :
  0 < v ->
  ramps_from_rest law a ->
  ramp_distance law a v D ->
  is_running c = false ->
  steps <> 0 ->
  let ck := run law k (move steps (configure a v c)) in
  0 <= current_rate_hz ck <= v /\
  ((0 < k)%nat -> Z.of_nat k < Z.abs steps -> 0 < current_rate_hz ck) /\
  (Z.abs steps <= Z.of_nat k -> current_rate_hz ck = 0).
Proof.
  intros Hv Hrest HD Hidle Hs ck.
  assert (Hv0 : (v =? 0) = false) by (apply Z.eqb_neq; lia).
  set (n := Z.abs steps).
  set (d := if 0 <? steps then Forward else Reverse).
  assert (Hc0 : move steps (configure a v c) =
                mkChannel d true n 0 v a (cumulative_pulses c) 0).
  { unfold move. simpl. rewrite Hv0.
    replace (steps =? 0) with false by (symmetry; by apply Z.eqb_neq).
    reflexivity. }
  assert (Hn : 0 < n) by (subst n; lia).
  destruct (armed_move law a v D Hv Hrest HD d n (cumulative_pulses c) Hn)
    as (Hall & _ & _ & _ & Hend).
  subst ck. rewrite Hc0.
  destruct (moving_profile law a v D Hv Hrest HD n _ (Hall k)) as (Hle & Hmid & Hzero).
  split; [exact Hle|]. split.
  - intros Hk Hkn. apply Hmid.
    destruct (count_pulses law a Hrest k (mkChannel d true n 0 v a (cumulative_pulses c) 0)
                eq_refl) as (_ & Hleft & _); [simpl; lia|].
    simpl in Hleft. lia.
  - intros Hk. destruct (Hend k ltac:(lia)) as [Hi _].
    unfold is_running in Hi. apply orb_false_elim in Hi as [_ Hr].
    apply negb_false_iff in Hr. by apply Z.eqb_eq in Hr.
Qed.

(** The scenario of one revolution in full steps, at 500 steps/s^2
    towards 500 Hz: with a ramp distance of no more than 100 pulses the
    channel reaches 500 Hz, and it emits 200 pulses forward. *)
Lemma scenario_one_revolution law D :
  ramps_from_rest law 500 ->
  ramp_distance law 500 500 D ->
  2 * D <= 200 ->
  let c0 := move 200 (configure 500 500 at_rest) in
  (exists k, current_rate_hz (run law k c0) = 500) /\
  pulses law 200 c0 = repeat Forward 200 /\
  is_running (run law 200 c0) = false /\
  cumulative_pulses (run law 200 c0) = 200.
Proof.
  intros Hrest HD Hle c0.
  destruct (armed_move law 500 500 D ltac:(lia) Hrest HD Forward 200 0 ltac:(lia))
    as (_ & _ & Hreach & Hp & Hend).
  destruct (Hend 200%nat ltac:(lia)) as [Hi Hcum].
  split; [exists (Z.to_nat D); by apply Hreach|].
  split; [exact Hp|]. by split.
Qed.

(** ** The law of uniform acceleration *)

Lemma ramp_length_spec a v r :
  0 < a -> (ramp_length a v <= r <-> v * v <= 2 * a * r).
Proof.
  intros Ha. unfold ramp_length.
  pose proof (Z.div_mod (v * v + 2 * a - 1) (2 * a)) as Hdm.
  pose proof (Z.mod_pos_bound (v * v + 2 * a - 1) (2 * a)) as Hb.
  split; intros H; nia.
Qed.

Lemma uniform_ramps_from_rest a : 0 < a -> ramps_from_rest uniform_acceleration a.
Proof.
  intros Ha. unfold uniform_acceleration. split.
  - by rewrite Z.mul_0_r.
  - intros r Hr. apply Z.sqrt_pos. nia.
Qed.

Lemma uniform_ramp_distance a v :
  0 < a -> 0 < v -> ramp_distance uniform_acceleration a v (ramp_length a v).
Proof.
  intros Ha Hv r Hr. unfold uniform_acceleration.
  rewrite (ramp_length_spec a v r Ha).
  rewrite (Z.sqrt_le_square (2 * a * r) v) by nia. lia.
Qed.

(** The theorem under uniform acceleration, at the table's first nonzero
    level and the acceleration of the last sketch: the ramp takes 640
    pulses, the threshold is 1280 steps. *)
Lemma ramp_threshold_witness : threshold uniform_acceleration 2000 1600 (2 * 640).
Proof.
  apply (ramp_threshold uniform_acceleration 2000 1600 640).
  - lia.
  - apply uniform_ramps_from_rest. lia.
  - exact (uniform_ramp_distance 2000 1600 ltac:(lia) ltac:(lia)).
Defined.

(** C3 as stated fails at target rate 0, where a move is a stop and
    emits no pulse, and at acceleration 0, where the rate never leaves 0. *)
Lemma ramp_claim_counterexample :
  ~ ramp_claim uniform_acceleration 500 0 /\
  ~ ramp_claim uniform_acceleration 0 500.
Proof.
  split; intros (T & _ & H);
    destruct (H at_rest 200 eq_refl) as (_ & _ & Hp & _);
    vm_compute in Hp; discriminate.
Qed.

(** A press of button A in the last sketch at 20%, under uniform
    acceleration: five revolutions at 2000 steps/s^2 towards 1600 Hz.
    The rate is 63 Hz with the first pulse, reaches 1600 Hz with the
    640th, is 63 Hz again with the last but one and 0 with the last. *)
Example ramp_five_revolutions :
  let c0 := move 16000 (configure 2000 1600 at_rest) in
  let rate k := current_rate_hz (run uniform_acceleration (Z.to_nat k) c0) in
  pulses uniform_acceleration (Z.to_nat 16000) c0 = repeat Forward (Z.to_nat 16000) /\
  rate 1 = 63 /\ rate 639 = 1598 /\ rate 640 = 1600 /\
  rate 15360 = 1600 /\ rate 15361 = 1598 /\
  rate 15999 = 63 /\ rate 16000 = 0 /\
  is_running (run uniform_acceleration (Z.to_nat 16000) c0) = false /\
  cumulative_pulses (run uniform_acceleration (Z.to_nat 16000) c0) = 16000.
Proof. vm_compute. repeat split. Qed.

(** Under uniform acceleration a ramp at 500 steps/s^2 takes 250 pulses
    to 500 Hz, and a move of 200 pulses peaks at 316 Hz: the scenario
    above is of a ramp law that is faster. *)
Example uniform_acceleration_takes_250 :
  ramp_length 500 500 = 250 /\
  current_rate_hz (run uniform_acceleration 100 (move 200 (configure 500 500 at_rest)))
    = 316.
Proof. vm_compute. by split. Qed.
End AxisChannelFacts.

(** ** The concrete states are reachable *)

Lemma st_setup_reachable : reachable E_idle SkSpdRevAccel st_setup.
Proof. apply reachable_setup. vm_compute. reflexivity. Defined.

Lemma st_ready_reachable : reachable E_idle SkSpdRevAccel st_ready.
Proof.
  apply (reachable_result E_idle SkSpdRevAccel 0 OpUpdateSpeed);
    [exact st_setup_reachable | reflexivity | eexists; vm_compute; reflexivity].
Defined.

Lemma st_top_reachable : reachable E_idle SkSpdRevAccel st_top.
Proof.
  unfold st_top. simpl.
  repeat (apply (reachable_result E_idle SkSpdRevAccel 0 OpUpdateSpeed);
            [ | reflexivity | eexists; vm_compute; reflexivity]).
  exact st_setup_reachable.
Defined.

Lemma st_full_reachable : reachable E_idle SkSpdRevAccel st_full.
Proof.
  apply (reachable_result E_idle SkSpdRevAccel 0 (OpMove 2147483647));
    [exact st_ready_reachable | reflexivity | eexists; vm_compute; reflexivity].
Defined.

(** ** Button A, pressed until the counter wraps *)

Lemma wrap_long_add x y : wrap_long (wrap_long x + y) = wrap_long (x + y).
Proof.
  unfold wrap_long, wrap, LONG_BITS.
  replace ((x + 2 ^ (32 - 1)) mod 2 ^ 32 - 2 ^ (32 - 1) + y + 2 ^ (32 - 1))
    with ((x + 2 ^ (32 - 1)) mod 2 ^ 32 + y) by lia.
  rewrite Zplus_mod_idemp_l. do 2 f_equal. lia.
Qed.

Lemma times_S n p st :
  times (S n) p st =
  match p st with
  | Some (_, st1) => times n p st1
  | None => None
  end.
Proof. reflexivity. Qed.

Section AtRest.
Variable E : environment.
(** The library always answers that a stepper has come to rest. *)
Hypothesis at_rest : forall i tr, lib_isRunning E i tr = false.

Lemma wait_idle_at_rest fuel st :
  wf st -> exists st', wait_idle E fuel st = Some (tt, st') /\ same_globals st st'.
Proof.
  intros Hwf. rewrite wait_idle_unfold. wf_state st Hwf.
  unfold any_running, stepper_running, call_isRunning. step_prog.
  destruct s0, s1; simpl; rewrite ?at_rest; simpl; rewrite ?at_rest;
    eexists; (split; [reflexivity|]); by repeat split.
Qed.

(** One press of button A in the last sketch, at a speed that is not 0
    and with both steppers: five revolutions are added to both counters. *)
Lemma press_A fuel st a b p0 p1 :
  steppers st = [Some a; Some b] ->
  pulseCounts st = [p0; p1] ->
  SpdRevAccel.speed st <> 0 ->
  revolutionsPerMove st = 5 ->
  exists st',
    loop E SkSpdRevAccel fuel (mkButtons true false false) st = Some (tt, st') /\
    steppers st' = steppers st /\
    currentSpeedIndex st' = currentSpeedIndex st /\
    revolutionsPerMove st' = revolutionsPerMove st /\
    pulseCounts st' = [wrap_long (p0 + 16000); wrap_long (p1 + 16000)].
Proof.
  intros Hs Hp Hv Hrev. destruct st; simpl in Hs, Hp, Hrev; subst.
  unfold loop, SpdRevAccel.loop, SpdRevAccel.moveBothMotors, SpdRevAccel.drawStatus.
  step_prog. case_decide; [done|]. simpl.
  match goal with |- context [wait_idle ?e ?f ?s] =>
    destruct (wait_idle_at_rest f s) as (st2 & -> & (?&?&?&?&?));
      [by split|] end.
  destruct st2; simpl in *; subst.
  eexists; split; [reflexivity|]. by repeat split.
Qed.

Lemma presses_A fuel n : forall st a b q0 q1,
  reachable E SkSpdRevAccel st ->
  steppers st = [Some a; Some b] ->
  pulseCounts st = [wrap_long q0; wrap_long q1] ->
  SpdRevAccel.speed st <> 0 ->
  revolutionsPerMove st = 5 ->
  exists st',
    times n (loop E SkSpdRevAccel fuel (mkButtons true false false)) st
      = Some (tt, st') /\
    reachable E SkSpdRevAccel st' /\
    steppers st' = steppers st /\
    currentSpeedIndex st' = currentSpeedIndex st /\
    revolutionsPerMove st' = revolutionsPerMove st /\
    pulseCounts st' = [wrap_long (q0 + 16000 * Z.of_nat n);
                       wrap_long (q1 + 16000 * Z.of_nat n)].
Proof.
  induction n as [|n IH]; intros st a b q0 q1 Hr Hs Hp Hv Hrev.
  - exists st. split; [reflexivity|]. do 4 (split; [done|]).
    by rewrite Hp, !Z.add_0_r.
  - destruct (press_A fuel st a b _ _ Hs Hp Hv Hrev)
      as (st1 & Hrun & Hs1 & Hi1 & Hrev1 & Hp1).
    rewrite !wrap_long_add in Hp1.
    destruct (IH st1 a b (q0 + 16000) (q1 + 16000))
      as (st' & Hrun' & Hr' & Hs' & Hi' & Hrev' & Hp'); try congruence.
    { by eapply loop_reachable. }
    { unfold SpdRevAccel.speed in *. by rewrite Hi1. }
    exists st'. split; [by rewrite times_S, Hrun|].
    split; [done|]. do 3 (split; [congruence|]).
    rewrite Hp', Nat2Z.inj_succ.
    by replace (q0 + 16000 + 16000 * Z.of_nat n) with (q0 + 16000 * Z.succ (Z.of_nat n)) by lia;
       replace (q1 + 16000 + 16000 * Z.of_nat n) with (q1 + 16000 * Z.succ (Z.of_nat n)) by lia.
Qed.
End AtRest.

(** In the last sketch at 20% speed, 134217 presses of button A take the
    X counter to 2147472000, and one more press to -2147479296. *)
Lemma button_A_wraps :
  exists st st',
    reachable E_idle SkSpdRevAccel st /\
    loop E_idle SkSpdRevAccel 0 (mkButtons true false false) st = Some (tt, st') /\
    pulseCounts st = [2147472000; 2147472000] /\
    pulseCounts st' = [-2147479296; -2147479296].
Proof.
  destruct (presses_A E_idle (fun _ _ => eq_refl) 0 (Z.to_nat 134217) st_ready
              (StepperOnPin X_STEP_PIN) (StepperOnPin Y_STEP_PIN) 0 0)
    as (st & _ & Hr & Hs & Hi & Hrev & Hp).
  - exact st_ready_reachable.
  - reflexivity.
  - reflexivity.
  - vm_compute. discriminate.
  - reflexivity.
  - rewrite Z2Nat.id in Hp by lia.
    destruct (press_A E_idle (fun _ _ => eq_refl) 0 st
                (StepperOnPin X_STEP_PIN) (StepperOnPin Y_STEP_PIN) _ _ Hs Hp)
      as (st' & Hrun & _ & _ & _ & Hp').
    + unfold SpdRevAccel.speed. rewrite Hi. vm_compute. discriminate.
    + by rewrite Hrev.
    + exists st, st'. split; [done|]. split; [done|]. split.
      * rewrite Hp. reflexivity.
      * rewrite Hp'. reflexivity.
Qed.

(** ** The theorems at work, and where the claims as stated fail *)

(** A move of five revolutions with the X stepper only, which runs for
    three rounds of the wait loop. *)
Lemma moveBothMotors_adds_steps_witness :
  let st' := result (moveBothMotors E_x_only SkSpdRevAccel 5 16000) st_ready_x in
  pulseCounts st_ready_x !!! 0%nat = 0 /\
  pulseCounts st' !! 0%nat = Some 16000 /\
  pulseCounts st' !!! 0%nat - pulseCounts st_ready_x !!! 0%nat = 16000.
Proof.
  intros st'.
  destruct (moveBothMotors_adds_steps E_x_only SkSpdRevAccel 5 16000 st_ready_x st' 0)
    as [Hnew Hdelta].
  - split; reflexivity.
  - exists (StepperOnPin X_STEP_PIN). reflexivity.
  - vm_compute. discriminate.
  - vm_compute. reflexivity.
  - split; [reflexivity|]. split; [exact Hnew|].
    apply Hdelta. vm_compute. split; [discriminate|reflexivity].
Defined.

(** C1 as stated fails where the counter wraps: after
    [moveBothMotors(2147483647)] the X counter is [LONG_MAX];
    [moveBothMotors(1)] then takes it to [LONG_MIN], a change of
    [-4294967295]. *)
Lemma moveBothMotors_wraps_counterexample :
  reachable E_idle SkSpdRevAccel st_full /\
  configured st_full 0 /\
  speedLevel SkSpdRevAccel st_full <> Some 0 /\
  exists st',
    moveBothMotors E_idle SkSpdRevAccel 0 1 st_full = Some (tt, st') /\
    pulseCounts st_full !!! 0%nat = 2147483647 /\
    pulseCounts st' !!! 0%nat = -2147483648 /\
    pulseCounts st' !!! 0%nat - pulseCounts st_full !!! 0%nat <> 1.
Proof.
  split; [exact st_full_reachable|].
  split; [exists (StepperOnPin X_STEP_PIN); reflexivity|].
  split; [vm_compute; discriminate|].
  eexists. split; [vm_compute; reflexivity|].
  vm_compute. repeat split; discriminate.
Qed.

Lemma SpdRevAccel_zero_speed_stops_witness :
  exists st',
    SpdRevAccel.moveBothMotors E_idle 0 16000 st_setup = Some (tt, st') /\
    pulseCounts st' = pulseCounts st_setup /\
    trace st_setup `prefix_of` trace st' /\
    (forall i, configured st_setup i -> stopMove ∈ calls_on i (since st_setup st')) /\
    (forall i s, move s ∉ calls_on i (since st_setup st')).
Proof.
  apply (SpdRevAccel_zero_speed_stops E_idle 0 16000 st_setup).
  - split; reflexivity.
  - reflexivity.
Defined.

(** C2 as stated fails in [2MotorControlBasic16StepAdjSpeed.cpp], whose
    [moveBothMotors] does not look at the speed: right after [setup] the
    selected level is 0, and [moveBothMotors(3200)] calls [move(3200)] on
    the X stepper, never [stopMove], and adds 3200 to both counters. *)
Lemma AdjSpeed_zero_speed_counterexample :
  reachable E_idle SkAdjSpeed st_adj /\
  speedLevel SkAdjSpeed st_adj = Some 0 /\
  configured st_adj 0 /\
  exists st',
    moveBothMotors E_idle SkAdjSpeed 0 3200 st_adj = Some (tt, st') /\
    pulseCounts st_adj = [0; 0] /\
    pulseCounts st' = [3200; 3200] /\
    calls_on 0 (since st_adj st') = [move 3200; isRunning false].
Proof.
  split; [apply reachable_setup; vm_compute; reflexivity|].
  split; [reflexivity|].
  split; [exists (StepperOnPin X_STEP_PIN); reflexivity|].
  eexists. split; [vm_compute; reflexivity|].
  vm_compute. repeat split.
Qed.

Lemma updateSpeed_cycle_witness :
  exists st',
    times 6 SpdRevAccel.updateSpeed st_ready = Some (tt, st') /\
    currentSpeedIndex st' = currentSpeedIndex st_ready.
Proof.
  apply (updateSpeed_cycle SkSpdRevAccel SpdRevAccel.updateSpeed 6 st_ready).
  - split; reflexivity.
  - reflexivity.
  - reflexivity.
  - vm_compute. split; [discriminate|reflexivity].
Defined.

(** [st_full] is at index 1; [st_top] is at the last index, 5, from
    where [updateSpeed] wraps to 0. *)
Lemma currentSpeedIndex_in_range_witness :
  0 <= currentSpeedIndex st_full < 6 /\
  exists st',
    SpdRevAccel.updateSpeed st_top = Some (tt, st') /\ currentSpeedIndex st' = 0.
Proof.
  apply (currentSpeedIndex_in_range E_idle SkSpdRevAccel 6
           SpdRevAccel.updateSpeed st_full st_top).
  - reflexivity.
  - reflexivity.
  - exact st_full_reachable.
  - split; reflexivity.
  - reflexivity.
Defined.

Lemma SpdRevAccel_updateSpeed_calls_witness :
  exists st',
    SpdRevAccel.updateSpeed st_top = Some (tt, st') /\
    trace st_top `prefix_of` trace st' /\
    calls_on 0 (since st_top st') =
      if decide (SpdRevAccel.speed st' = 0)
      then [setSpeedInHz 0; stopMove]
      else [setSpeedInHz (SpdRevAccel.speed st')].
Proof.
  apply (SpdRevAccel_updateSpeed_calls st_top 0).
  - split; reflexivity.
  - exists (StepperOnPin X_STEP_PIN). reflexivity.
Defined.

(** C6 as stated fails in [2MotorControlBasic16StepAdjSpeed.cpp]: from
    the last index its [updateSpeed] wraps to level 0 and only calls
    [setSpeedInHz(0)], not [stopMove]. *)
Lemma AdjSpeed_updateSpeed_counterexample :
  wf st_adj_top /\
  configured st_adj_top 0 /\
  currentSpeedIndex st_adj_top = 5 /\
  exists st',
    AdjSpeed.updateSpeed st_adj_top = Some (tt, st') /\
    speedLevel SkAdjSpeed st' = Some 0 /\
    calls_on 0 (since st_adj_top st') = [setSpeedInHz 0].
Proof.
  split; [split; reflexivity|].
  split; [exists (StepperOnPin X_STEP_PIN); reflexivity|].
  split; [reflexivity|].
  eexists. split; [vm_compute; reflexivity|].
  vm_compute. repeat split.
Qed.

Lemma null_stepper_skipped_witness :
  (forall st',
     moveBothMotors E_x_only SkSpdRevAccel 5 16000 st_ready_x = Some (tt, st') ->
     trace st_ready_x `prefix_of` trace st' /\
     calls_on 1 (since st_ready_x st') = [] /\
     pulseCounts st' !! 1%nat = pulseCounts st_ready_x !! 1%nat /\
     steppers st' !! 1%nat = Some None) /\
  (steppers st_ready_x = [None; None] ->
   exists st', moveBothMotors E_x_only SkSpdRevAccel 5 16000 st_ready_x = Some (tt, st')).
Proof.
  apply (null_stepper_skipped E_x_only SkSpdRevAccel 5 (OpMove 16000) _ st_ready_x 1).
  - split; reflexivity.
  - reflexivity.
  - reflexivity.
Defined.

Lemma operations_frame_witness :
  let st' := result (moveBothMotors E_x_only SkSpdRevAccel 5 16000) st_ready_x in
  steppers st' = steppers st_ready_x /\
  accelerationRate st' = accelerationRate st_ready_x /\
  revolutionsPerMove st' = revolutionsPerMove st_ready_x /\
  currentSpeedIndex st' = currentSpeedIndex st_ready_x /\
  forall i, (i < 2)%nat ->
    pulseCounts st' !!! i = pulseCounts st_ready_x !!! i \/
    pulseCounts st' !!! i = wrap_long (pulseCounts st_ready_x !!! i + 16000).
Proof.
  intros st'.
  apply (operations_frame E_x_only SkSpdRevAccel 5 (OpMove 16000)
           (moveBothMotors E_x_only SkSpdRevAccel 5 16000) st_ready_x st').
  - split; reflexivity.
  - reflexivity.
  - vm_compute. reflexivity.
Defined.


(** The move above takes three rounds; two are not enough. *)
Example moveBothMotors_three_rounds :
  moveBothMotors E_x_only SkSpdRevAccel 2 16000 st_ready_x = None /\
  calls_on 0 (since st_ready_x
                (result (moveBothMotors E_x_only SkSpdRevAccel 3 16000) st_ready_x)) =
    [setAcceleration 2000; setSpeedInHz 1600; move 16000;
     isRunning true; isRunning true; isRunning true; isRunning false].
Proof. vm_compute. split; reflexivity. Qed.

(** C10 as stated fails inside [moveBothMotors]: between the two rounds
    of its loop the X counter has the steps of the move and the Y counter
    has not.  [moveBothMotors(16000)], called in [st_ready], passes
    through a state with both pointers non-null and the counters at
    16000 and 0. *)
Lemma pulseCounts_diverge_counterexample :
  let st := result (moveBothMotors_begun SkSpdRevAccel 16000) st_ready in
  reachable E_idle SkSpdRevAccel st_ready /\
  moveBothMotors E_idle SkSpdRevAccel 0 16000 st_ready =
    moveBothMotors_ended E_idle SkSpdRevAccel 0 16000 st /\
  configured st 0 /\
  configured st 1 /\
  pulseCounts st = [16000; 0] /\
  pulseCounts st !!! 0%nat <> pulseCounts st !!! 1%nat.
Proof.
  intros st. split; [exact st_ready_reachable|].
  split; [vm_compute; reflexivity|].
  split; [exists (StepperOnPin X_STEP_PIN); vm_compute; reflexivity|].
  split; [exists (StepperOnPin Y_STEP_PIN); vm_compute; reflexivity|].
  split; [vm_compute; reflexivity|].
  vm_compute. discriminate.
Qed.

Lemma pulseCounts_in_lockstep_witness :
  pulseCounts st_full !!! 0%nat = pulseCounts st_full !!! 1%nat.
Proof.
  apply (pulseCounts_in_lockstep E_idle SkSpdRevAccel st_full).
  - exact st_full_reachable.
  - exists (StepperOnPin X_STEP_PIN). reflexivity.
  - exists (StepperOnPin Y_STEP_PIN). reflexivity.
Defined.

(** * More on the sketches *)

Lemma presses_app f bs1 bs2 : presses f (bs1 ++ bs2) = presses f bs1 + presses f bs2.
Proof. induction bs1 as [|b bs1 IH]; simpl; lia. Qed.

(** ** The calls of the operations on a stepper *)

Lemma calls_on_poll_events i evs :
  Forall (fun e => is_poll_event e = true) evs ->
  Forall (fun c => is_poll c = true) (calls_on i evs).
Proof.
  induction 1 as [|e evs He _ IH]; simpl; [constructor|].
  destruct e as [j c| | | | |]; auto.
  destruct (decide (j = i)); [by constructor|done].
Qed.

Lemma busy_check_poll_events sp c :
  busy_check sp c -> Forall (fun e => is_poll_event e = true) (c ++ [EvDelay 10]).
Proof.
  intros [s Hs|s Hs]; unfold check_on; [|destruct (sp !!! 0%nat)];
    repeat constructor.
Qed.

Lemma wait_poll_events sp rounds :
  Forall (busy_check sp) rounds ->
  Forall (fun e => is_poll_event e = true) (polled rounds ++ idle_checks sp).
Proof.
  intros Hall. apply Forall_app. split.
  - induction Hall as [|c rounds Hc _ IH]; [constructor|].
    unfold polled. simpl. apply Forall_app. split; [|exact IH].
    by apply (busy_check_poll_events sp).
  - unfold idle_checks, check_on.
    destruct (sp !!! 0%nat), (sp !!! 1%nat); repeat constructor.
Qed.

Lemma quiet_stepper_events sp f :
  Forall (fun e => is_quiet e = true) (stepper_events sp f).
Proof.
  assert (Hmap : forall i l, Forall (fun e => is_quiet e = true) (map (EvStepper i) l))
    by (intros i l; induction l; simpl; by constructor).
  unfold stepper_events. simpl. rewrite app_nil_r. apply Forall_app.
  split; [destruct (sp !!! 0%nat)|destruct (sp !!! 1%nat)]; auto.
Qed.

Lemma quiet_wait sp rounds :
  Forall (busy_check sp) rounds ->
  Forall (fun e => is_quiet e = true) (polled rounds ++ idle_checks sp).
Proof.
  intros Hall. apply Forall_app. split.
  - induction Hall as [|c rounds Hc _ IH]; [constructor|].
    unfold polled. simpl. apply Forall_app. split; [|exact IH].
    destruct Hc; unfold check_on; [|destruct (sp !!! 0%nat)]; repeat constructor.
  - unfold idle_checks, check_on.
    destruct (sp !!! 0%nat), (sp !!! 1%nat); repeat constructor.
Qed.

Lemma speedLevel_moves sk st :
  moves sk st = true -> sk = SkSpdRevAccel -> SpdRevAccel.speed st <> 0.
Proof. intros H ->. simpl in H. by apply bool_decide_eq_true in H. Qed.

Section OperationCalls.
Variable E : environment.

(** The events of an operation: what it tells a stepper that is not
    null, and what it sends to the display. *)
Lemma run_op_events sk fuel o p st st' :
  wf st ->
  run_op E sk fuel o = Some p ->
  p st = Some (tt, st') ->
  exists evs,
    trace st' = trace st ++ evs /\
    (forall i, configured st i ->
       exists polls, Forall (fun c => is_poll c = true) polls /\
                     calls_on i evs = op_calls sk o st st' ++ polls) /\
    (exists quiet, Forall (fun e => is_quiet e = true) quiet /\
                   evs = quiet ++ op_display sk o st st').
Proof.
  intros Hwf Hrun H. pose proof Hwf as [Hlen _].
  destruct o as [steps| | | |]; simpl in Hrun.
  - inversion Hrun; subst; clear Hrun. unfold op_calls.
    destruct (moves sk st) eqn:Hm.
    + destruct (moveBothMotors_moved E sk fuel steps st st' Hwf
                  (speedLevel_moves sk st Hm) H)
        as (_&_&_&_&_& rounds & _ & Hall & Ht & _).
      pose proof (wait_poll_events _ _ Hall) as Hpolls.
      destruct (no_stepper_call_prints sk steps st) as (Hp & He & _).
      eexists. split; [rewrite Ht, <- !app_assoc; reflexivity|]. split.
      * intros i [s Hi]. exists (calls_on i (polled rounds ++ idle_checks (steppers st))).
        split; [by apply calls_on_poll_events|].
        rewrite !calls_on_app.
        rewrite (calls_on_no_stepper_call _ _ Hp), (calls_on_no_stepper_call _ _ He).
        rewrite (calls_on_stepper_events_configured _ _ i s Hlen Hi).
        by rewrite app_nil_r.
      * eexists. split; [|by rewrite app_nil_r].
        apply Forall_app. split; [destruct sk; repeat constructor|].
        apply Forall_app. split; [apply quiet_stepper_events|].
        rewrite app_assoc. apply Forall_app. split; [by apply quiet_wait|].
        destruct sk; repeat constructor.
    + destruct sk; try discriminate. simpl in Hm.
      apply bool_decide_eq_false in Hm.
      assert (Hz : SpdRevAccel.speed st = 0)
        by (destruct (decide (SpdRevAccel.speed st = 0)); [done|by destruct Hm]).
      destruct (moveBothMotors_stopped E fuel steps st Hwf Hz)
        as (st'' & Hrun & _ & Ht).
      rewrite Hrun in H. inversion H; subst; clear H.
      eexists. split; [exact Ht|]. split.
      * intros i [s Hi]. exists []. split; [constructor|]. simpl.
        rewrite (calls_on_stepper_events_configured _ _ i s Hlen Hi).
        by rewrite ?app_nil_r.
      * eexists. split; [|by rewrite app_nil_r].
        constructor; [done|]. apply quiet_stepper_events.
  - destruct (updateSpeed_inv sk p st Hwf Hrun)
      as (n & st'' & _ & Hrun' & _ & _ & _ & _ & _ & Ht).
    rewrite Hrun' in H. inversion H; subst; clear H.
    destruct (no_stepper_call_prints sk 0 st') as (_ & _ & Hp & He & _).
    eexists. split; [exact Ht|]. split.
    + intros i [s Hi]. exists []. split; [constructor|].
      rewrite !calls_on_app.
      rewrite (calls_on_no_stepper_call _ _ Hp), (calls_on_no_stepper_call _ _ He).
      rewrite (calls_on_stepper_events_configured _ _ i s Hlen Hi).
      by rewrite !app_nil_r.
    + exists (update_prologue sk st' ++
              stepper_events (steppers st) (fun _ => update_calls sk st')).
      split; [|by rewrite <- app_assoc].
      apply Forall_app. split; [destruct sk; repeat constructor|].
      apply quiet_stepper_events.
  - inversion Hrun; subst; clear Hrun.
    destruct (drawStatus_inv sk st) as (st'' & Hrun & _ & Ht).
    rewrite Hrun in H. inversion H; subst; clear H.
    eexists. split; [exact Ht|]. split.
    + intros i _. exists []. split; [constructor|].
      apply calls_on_no_stepper_call, (no_stepper_call_prints sk 0 st).
    + exists []. by split; [constructor|].
  - destruct (drawInstructions_inv sk p st Hrun) as (st'' & Hrun' & Hg & Ht).
    rewrite Hrun' in H. inversion H; subst; clear H.
    eexists. split; [exact Ht|]. split.
    + intros i _. exists []. split; [constructor|].
      apply calls_on_no_stepper_call, (no_stepper_call_prints sk 0 st).
    + exists []. split; [constructor|].
      destruct Hg as (_ & _ & Hi & Ha & Hr). simpl.
      destruct sk; simpl; try reflexivity; by rewrite ?Hi, ?Ha, ?Hr.
  - inversion Hrun; subst; clear Hrun. inversion H; subst; clear H.
    exists [EvBoard M5_update]. split; [reflexivity|]. split.
    + intros i _. exists []. by split; [constructor|].
    + exists [EvBoard M5_update]. split; [repeat constructor|reflexivity].
Qed.
End OperationCalls.

(** ** What [setup] leaves behind *)

Section Setup.
Variable E : environment.

Lemma setup_events sk st :
  setup E sk (init sk) = Some (tt, st) ->
  (forall i, configured st i -> calls_on i (trace st) = setup_calls sk i) /\
  accelerationRate st = accelerationRate (init sk) /\
  revolutionsPerMove st = revolutionsPerMove (init sk) /\
  instructions_fresh sk st /\
  match speedLevels sk with
  | Some _ => status_fresh st
  | None => status_blank st
  end.
Proof.
  destruct sk; unfold setup, init, Basic.setup, AdjSpeed.setup, SpdRevAccel.setup,
    Basic.setup_stepper, AdjSpeed.drawInstructions, AdjSpeed.drawStatus,
    SpdRevAccel.drawInstructions, SpdRevAccel.drawStatus, Basic.init,
    AdjSpeed.init, SpdRevAccel.init; step_prog; unfold stepperConnectToPin;
    destruct (lib_connect E X_STEP_PIN), (lib_connect E Y_STEP_PIN); simpl;
    intros H; inversion H; subst; clear H; simpl.
  all: split;
    [intros i [s Hi]; destruct i as [|[|i]]; simpl in Hi; try discriminate;
       reflexivity|].
  all: do 2 (split; [reflexivity|]).
  all: split; [vm_compute; auto|split; vm_compute; reflexivity].
Qed.
End Setup.

(** ** The last speed and the last acceleration of a stepper *)

Lemma speed_from_app last cs1 cs2 :
  speed_from last (cs1 ++ cs2) = speed_from (speed_from last cs1) cs2.
Proof. apply fold_left_app. Qed.

Lemma acceleration_from_app last cs1 cs2 :
  acceleration_from last (cs1 ++ cs2) =
  acceleration_from (acceleration_from last cs1) cs2.
Proof. apply fold_left_app. Qed.

Lemma speed_from_polls polls :
  Forall (fun c => is_poll c = true) polls ->
  forall last, speed_from last polls = last.
Proof.
  induction 1 as [|c polls Hc _ IH]; intros last; [done|].
  destruct c; try discriminate. apply IH.
Qed.

Lemma acceleration_from_polls polls :
  Forall (fun c => is_poll c = true) polls ->
  forall last, acceleration_from last polls = last.
Proof.
  induction 1 as [|c polls Hc _ IH]; intros last; [done|].
  destruct c; try discriminate. apply IH.
Qed.

Lemma moves_checked_app cs1 : forall last cs2,
  moves_checked last (cs1 ++ cs2) =
  moves_checked last cs1 && moves_checked (speed_from last cs1) cs2.
Proof.
  induction cs1 as [|c cs1 IH]; intros last cs2; [done|].
  destruct c; simpl; try apply IH.
  destruct last; [|done]. by rewrite IH, andb_assoc.
Qed.

Lemma moves_checked_polls polls :
  Forall (fun c => is_poll c = true) polls ->
  forall last, moves_checked last polls = true.
Proof.
  induction 1 as [|c polls Hc _ IH]; intros last; [done|].
  destruct c; try discriminate. apply IH.
Qed.

Lemma moves_checked_sound cs : forall last,
  moves_checked last cs = true ->
  forall pre s post,
    cs = pre ++ move s :: post ->
    exists v, speed_from last pre = Some v /\ v <> 0.
Proof.
  induction cs as [|c cs IH]; intros last Hc pre s post Heq.
  - by destruct pre.
  - destruct pre as [|c' pre]; simpl in Heq; inversion Heq; subst; clear Heq.
    + simpl in Hc. destruct last as [v|]; [|done].
      apply andb_true_iff in Hc as [Hv _]. apply bool_decide_eq_true in Hv.
      by exists v.
    + change (speed_from last (c' :: pre)) with (speed_from (set_speed last c') pre).
      destruct c'; simpl in *; try (by eapply IH).
      destruct last as [v|]; [|done].
      apply andb_true_iff in Hc as [_ Hc]. by eapply IH.
Qed.

Lemma Forall_polls_from_table sk polls :
  Forall (fun c => is_poll c = true) polls ->
  Forall (speed_from_table sk) polls.
Proof.
  induction 1 as [|c polls Hc _ IH]; constructor; [|done].
  by destruct c.
Qed.

Lemma table_get_in t i :
  0 <= i < Z.of_nat (length t) -> table_get t i ∈ t.
Proof.
  intros Hi. unfold table_get. case_decide; [|lia].
  apply list_elem_of_lookup_total_2. lia.
Qed.

Ltac each_call :=
  repeat first [apply Forall_nil_2 | apply Forall_cons_2]; simpl; try exact I.

Section StepperCalls.
Variable E : environment.

(** What the calls of one operation leave of the speed and of the
    acceleration of a stepper. *)
Lemma op_calls_effect sk fuel o p st st' :
  wf st ->
  0 <= currentSpeedIndex st < 6 ->
  run_op E sk fuel o = Some p ->
  p st = Some (tt, st') ->
  speed_from (Some (selected_speed sk st)) (op_calls sk o st st') =
    Some (selected_speed sk st') /\
  acceleration_from (Some (selected_acceleration sk st)) (op_calls sk o st st') =
    Some (selected_acceleration sk st') /\
  (sk <> SkAdjSpeed ->
   moves_checked (Some (selected_speed sk st)) (op_calls sk o st st') = true) /\
  Forall (speed_from_table sk) (op_calls sk o st st').
Proof.
  intros Hwf Hidx Hrun H.
  destruct (run_op_inv E sk fuel o p st st' Hwf Hrun H) as (_ & Ha & _ & _ & Ho).
  assert (Hsel : currentSpeedIndex st' = currentSpeedIndex st ->
                 selected_speed sk st' = selected_speed sk st).
  { intros Hi. destruct sk; simpl; unfold SpdRevAccel.speed; by rewrite ?Hi. }
  assert (Hacc : selected_acceleration sk st' = selected_acceleration sk st)
    by (destruct sk; simpl; by rewrite ?Ha).
  rewrite Hacc.
  assert (Hin : forall t, length t = 6%nat ->
                  table_get t (currentSpeedIndex st) ∈ t).
  { intros t Ht. apply table_get_in. rewrite Ht. lia. }
  destruct o as [steps| | | |]; simpl in *.
  - destruct Ho as [Hi _]. rewrite (Hsel Hi).
    destruct sk; simpl; try (repeat split; try done; by each_call).
    case_bool_decide as Hv; simpl.
    + rewrite bool_decide_true by done. repeat split; try done.
      each_call. by apply Hin.
    + assert (Hz : SpdRevAccel.speed st = 0)
        by (destruct (decide (SpdRevAccel.speed st = 0)); [done|by destruct Hv]).
      rewrite Hz. repeat split; try done. each_call. in_list.
  - destruct Ho as (_ & n & Hn & Hi).
    apply speedLevelsCount_6 in Hn as Hn6. subst n.
    assert (Hidx' : 0 <= currentSpeedIndex st' < 6).
    { rewrite Hi, next_index_mod by done. apply Z.mod_pos_bound. lia. }
    assert (Hin' : forall t, length t = 6%nat ->
                     table_get t (currentSpeedIndex st') ∈ t).
    { intros t Ht. apply table_get_in. rewrite Ht. lia. }
    destruct sk; try discriminate; simpl.
    + repeat split; try done. each_call. by apply Hin'.
    + case_decide as Hv; simpl.
      * rewrite Hv. repeat split; try done. each_call. in_list.
      * repeat split; try done. each_call. by apply Hin'.
  - destruct Ho as [_ Hi]. rewrite (Hsel Hi). repeat split; try done; each_call.
  - destruct Ho as [_ Hi]. rewrite (Hsel Hi). repeat split; try done; each_call.
  - destruct Ho as [_ Hi]. rewrite (Hsel Hi). repeat split; try done; each_call.
Qed.

Lemma reachable_index_6 sk st :
  reachable E sk st -> 0 <= currentSpeedIndex st < 6.
Proof.
  induction 1 as [st Hs|st fuel o p st' Hr IH Hrun Hp].
  - destruct (setup_inv E sk) as (st0 & Hs0 & _ & _ & Hidx).
    rewrite Hs0 in Hs. inversion Hs; subst. lia.
  - destruct (run_op_inv E sk fuel o p st st' (reachable_wf E sk st Hr) Hrun Hp)
      as (_ & _ & _ & _ & Ho).
    destruct o.
    + destruct Ho as [-> _]. exact IH.
    + destruct Ho as (_ & n & Hn' & ->).
      apply speedLevelsCount_6 in Hn'. subst n.
      rewrite next_index_mod by done. apply Z.mod_pos_bound. lia.
    + destruct Ho as [_ ->]. exact IH.
    + destruct Ho as [_ ->]. exact IH.
    + destruct Ho as [_ ->]. exact IH.
Qed.

(** The calls a stepper that is not null has received, in any state the
    sketch can be in. *)
Lemma reachable_calls sk st i :
  reachable E sk st ->
  configured st i ->
  speed_after (calls_on i (trace st)) = Some (selected_speed sk st) /\
  acceleration_after (calls_on i (trace st)) = Some (selected_acceleration sk st) /\
  (sk <> SkAdjSpeed -> moves_checked None (calls_on i (trace st)) = true) /\
  Forall (speed_from_table sk) (calls_on i (trace st)).
Proof.
  induction 1 as [st Hs|st fuel o p st' Hr IH Hrun Hp]; intros Hi.
  - destruct (setup_events E sk st Hs) as (Hc & Ha & _).
    destruct (setup_inv E sk) as (st0 & Hs0 & _ & _ & Hidx).
    rewrite Hs0 in Hs. inversion Hs; subst st0; clear Hs.
    rewrite (Hc i Hi). unfold setup_calls.
    destruct sk; simpl; unfold SpdRevAccel.speed; rewrite ?Hidx, ?Ha;
      (split; [reflexivity|]); (split; [reflexivity|]); (split; [done|]);
      each_call; in_list.
  - pose proof (reachable_wf E sk st Hr) as Hwf.
    destruct (run_op_inv E sk fuel o p st st' Hwf Hrun Hp) as (Hsp & _).
    assert (Hi' : configured st i) by (unfold configured in *; by rewrite <- Hsp).
    destruct (IH Hi') as (Hv & Ha & Hm & Ht).
    destruct (run_op_events E sk fuel o p st st' Hwf Hrun Hp)
      as (evs & Htr & Hcalls & _).
    destruct (Hcalls i Hi') as (polls & Hpolls & Hev).
    destruct (op_calls_effect sk fuel o p st st' Hwf (reachable_index_6 sk st Hr)
                Hrun Hp) as (Hv' & Ha' & Hm' & Ht').
    rewrite Htr, calls_on_app, Hev.
    unfold speed_after, acceleration_after in *.
    rewrite !speed_from_app, !acceleration_from_app, Hv, Ha, Hv', Ha'.
    rewrite speed_from_polls, acceleration_from_polls by done.
    do 2 (split; [reflexivity|]). split.
    + intros Hsk. rewrite !moves_checked_app, (Hm Hsk), Hv, (Hm' Hsk). simpl.
      by apply moves_checked_polls.
    + rewrite !Forall_app. repeat split; try done.
      by apply Forall_polls_from_table.
Qed.
End StepperCalls.

(** ** What the display last showed *)

Lemma shown_app fmt tr evs :
  shown fmt (tr ++ evs) = fold_left (show fmt) evs (shown fmt tr).
Proof. apply fold_left_app. Qed.

Lemma show_quiet fmt quiet :
  Forall (fun e => is_quiet e = true) quiet ->
  forall last, fold_left (show fmt) quiet last = last.
Proof.
  induction 1 as [|e quiet He _ IH]; intros last; [done|].
  destruct e; try discriminate; apply IH.
Qed.

Section Display.
Variable E : environment.

Lemma reachable_settings sk st :
  reachable E sk st ->
  accelerationRate st = accelerationRate (init sk) /\
  revolutionsPerMove st = revolutionsPerMove (init sk).
Proof.
  induction 1 as [st Hs|st fuel o p st' Hr IH Hrun Hp].
  - by destruct (setup_events E sk st Hs) as (_ & Ha & Hrev & _).
  - destruct (run_op_inv E sk fuel o p st st' (reachable_wf E sk st Hr) Hrun Hp)
      as (_ & Ha & Hrev & _).
    destruct IH. split; congruence.
Qed.

Lemma reachable_instructions sk st :
  reachable E sk st -> instructions_fresh sk st.
Proof.
  induction 1 as [st Hs|st fuel o p st' Hr IH Hrun Hp].
  - by destruct (setup_events E sk st Hs) as (_ & _ & _ & Hf & _).
  - pose proof (reachable_wf E sk st Hr) as Hwf.
    destruct (run_op_inv E sk fuel o p st st' Hwf Hrun Hp)
      as (_ & Ha & Hrev & _ & Ho).
    destruct (run_op_events E sk fuel o p st st' Hwf Hrun Hp)
      as (evs & Htr & _ & quiet & Hq & Hev).
    assert (Hsh : forall fmt,
              shown fmt (trace st') =
              fold_left (show fmt) (op_display sk o st st') (shown fmt (trace st))).
    { intros fmt. rewrite Htr, Hev, shown_app, fold_left_app.
      by rewrite (show_quiet fmt quiet Hq). }
    unfold instructions_fresh in *.
    destruct sk; [done|done| |]; rewrite ?Hsh; destruct o; simpl in *;
      try discriminate;
      repeat match goal with H : _ /\ _ |- _ => destruct H end.
    all: try reflexivity; try congruence.
    all: repeat split; congruence.
Qed.
End Display.

(** ** One round of [loop], button by button *)

Lemma moves_decide sk st :
  moves sk st = true <-> ~ (sk = SkSpdRevAccel /\ SpdRevAccel.speed st = 0).
Proof.
  destruct sk; simpl; try (split; [by intros _ [? _]|done]).
  rewrite bool_decide_eq_true. split; [by intros Hv [_ Hz]|].
  intros Hn Hz. apply Hn. by split.
Qed.

Lemma counts_after_ext sk st st' c steps pc :
  steppers st' = steppers st ->
  currentSpeedIndex st' = currentSpeedIndex st ->
  counts_after sk st' c steps pc = counts_after sk st c steps pc.
Proof.
  intros Hs Hi. unfold counts_after. rewrite Hs.
  replace (moves sk st') with (moves sk st); [done|].
  destruct sk; simpl; unfold SpdRevAccel.speed; by rewrite ?Hi.
Qed.

Lemma press_steps_eq sk st :
  revolutionsPerMove st = revolutionsPerMove (init sk) ->
  press_steps sk st = steps_per_press sk /\
  press_steps_back sk st = - steps_per_press sk.
Proof. destruct sk; simpl; intros Hrev; rewrite ?Hrev; by split. Qed.

Section LoopRounds.
Variable E : environment.

Lemma loop_steps sk fuel b st st' :
  loop E sk fuel b st = Some (tt, st') ->
  exists st1 st2,
    pressed E sk fuel (BtnA b) (press_steps sk st) (log (EvBoard M5_update) st) st1 /\
    pressed E sk fuel (BtnC b) (press_steps_back sk st1) st1 st2 /\
    cycled sk (BtnB b) st2 st'.
Proof.
  intros H. destruct b as [bA bB bC]. unfold pressed, cycled. simpl.
  destruct sk; unfold loop, Basic.loop, AdjSpeed.loop, SpdRevAccel.loop in H;
    apply bind_inv in H as ([] & st0 & H0 & H); inversion H0; subst; clear H0;
    apply bind_inv in H as ([] & st1 & H1 & H); exists st1.
  1-2: exists st'; split; [|split; [|reflexivity]].
  1,3: destruct bA; simpl in H1; [|inversion H1; by subst];
         apply bind_inv in H1 as ([] & m & Hm & Hd); by exists m.
  1-2: destruct bC; simpl in H; [|inversion H; by subst];
         apply bind_inv in H as ([] & m & Hm & Hd); by exists m.
  - apply bind_inv in H as ([] & st2 & H2 & H); exists st2. split; [|split].
    + destruct bA; simpl in H1; [|inversion H1; by subst].
      apply bind_inv in H1 as ([] & m & Hm & Hd); by exists m.
    + destruct bC; simpl in H2; [|inversion H2; by subst].
      apply bind_inv in H2 as ([] & m & Hm & Hd); by exists m.
    + destruct bB; simpl in H; [done|inversion H; by subst].
  - apply bind_inv in H as ([] & st2 & H2 & H); exists st2. split; [|split].
    + destruct bA; simpl in H1; [|inversion H1; by subst].
      apply bind_inv in H1 as (steps & st0 & Hg & H1). inversion Hg; subst.
      apply bind_inv in H1 as ([] & m & Hm & Hd); by exists m.
    + destruct bC; simpl in H2; [|inversion H2; by subst].
      apply bind_inv in H2 as (steps & st0 & Hg & H2). inversion Hg; subst.
      apply bind_inv in H2 as ([] & m & Hm & Hd); by exists m.
    + destruct bB; simpl in H; [done|inversion H; by subst].
Qed.

Lemma pressed_inv sk fuel c steps st st' :
  wf st ->
  pressed E sk fuel c steps st st' ->
  wf st' /\
  steppers st' = steppers st /\
  currentSpeedIndex st' = currentSpeedIndex st /\
  accelerationRate st' = accelerationRate st /\
  revolutionsPerMove st' = revolutionsPerMove st /\
  pulseCounts st' = counts_after sk st c steps (pulseCounts st) /\
  (reachable E sk st -> reachable E sk st').
Proof.
  intros Hwf H. unfold pressed, counts_after in *.
  destruct c; simpl; [|subst; split; [done|by repeat split]].
  destruct H as (m & Hm & Hd).
  destruct (run_op_inv E sk fuel (OpMove steps) _ st m Hwf eq_refl Hm)
    as (Hs & Ha & Hrev & _ & Hi & Hp).
  pose proof (run_op_wf E sk fuel (OpMove steps) _ st m Hwf eq_refl Hm) as Hwfm.
  destruct (drawStatus_inv sk m) as (st'' & Hd' & (Hs'&Hp'&Hi'&Ha'&Hrev') & _).
  rewrite Hd' in Hd. inversion Hd; subst st''; clear Hd.
  split; [by apply (same_globals_wf m st')|].
  do 4 (split; [congruence|]). split.
  - rewrite Hp', Hp. destruct (moves sk st) eqn:Hmv.
    + apply moves_decide in Hmv. by case_decide.
    + case_decide as Hz; [done|]. apply moves_decide in Hz. congruence.
  - intros Hr.
    eapply (reachable_op E sk m fuel OpDrawStatus); [|reflexivity|exact Hd'].
    by eapply (reachable_op E sk st fuel (OpMove steps)).
Qed.

Lemma cycled_inv sk c st st' :
  wf st ->
  cycled sk c st st' ->
  wf st' /\
  steppers st' = steppers st /\
  accelerationRate st' = accelerationRate st /\
  revolutionsPerMove st' = revolutionsPerMove st /\
  pulseCounts st' = pulseCounts st /\
  currentSpeedIndex st' =
    match speedLevels sk with
    | Some _ => if c then next_index 6 (currentSpeedIndex st) else currentSpeedIndex st
    | None => currentSpeedIndex st
    end.
Proof.
  intros Hwf H. unfold cycled in H.
  destruct (updateSpeed sk) as [upd|] eqn:Hu.
  - destruct c.
    + destruct (updateSpeed_inv sk upd st Hwf Hu)
        as (n & st'' & Hn & Hrun & Hs & Hp & Ha & Hrev & Hi & _).
      rewrite Hrun in H. inversion H; subst st''; clear H.
      apply speedLevelsCount_6 in Hn as ->.
      split; [destruct Hwf; split; congruence|].
      do 4 (split; [done|]). by destruct sk.
    + subst. repeat split; try apply Hwf. by destruct sk.
  - subst. repeat split; try apply Hwf. by destruct sk.
Qed.

(** What one round of [loop] does to the globals. *)
Lemma loop_globals sk fuel b st st' :
  wf st ->
  loop E sk fuel b st = Some (tt, st') ->
  wf st' /\
  steppers st' = steppers st /\
  accelerationRate st' = accelerationRate st /\
  revolutionsPerMove st' = revolutionsPerMove st /\
  currentSpeedIndex st' =
    match speedLevels sk with
    | Some _ => if BtnB b then next_index 6 (currentSpeedIndex st)
                else currentSpeedIndex st
    | None => currentSpeedIndex st
    end /\
  pulseCounts st' =
    counts_after sk st (BtnC b) (press_steps_back sk st)
      (counts_after sk st (BtnA b) (press_steps sk st) (pulseCounts st)).
Proof.
  intros Hwf H.
  destruct (loop_steps sk fuel b st st' H) as (st1 & st2 & HA & HC & HB).
  assert (Hwf0 : wf (log (EvBoard M5_update) st)) by exact Hwf.
  destruct (pressed_inv _ _ _ _ _ _ Hwf0 HA)
    as (Hwf1 & Hs1 & Hi1 & Ha1 & Hr1 & Hp1 & _).
  destruct (pressed_inv _ _ _ _ _ _ Hwf1 HC)
    as (Hwf2 & Hs2 & Hi2 & Ha2 & Hr2 & Hp2 & _).
  destruct (cycled_inv _ _ _ _ Hwf2 HB) as (Hwf3 & Hs3 & Ha3 & Hr3 & Hp3 & Hi3).
  simpl in *.
  split; [done|]. do 3 (split; [congruence|]). split.
  - rewrite Hi3, Hi2, Hi1. reflexivity.
  - rewrite Hp3, Hp2, Hp1.
    rewrite (counts_after_ext sk st st1) by congruence.
    replace (press_steps_back sk st1) with (press_steps_back sk st)
      by (destruct sk; simpl; by rewrite ?Hr1).
    reflexivity.
Qed.

Lemma runs_reachable sk bs st : runs E sk bs st -> reachable E sk st.
Proof.
  induction 1 as [st Hs|bs st fuel b st' _ IH Hl].
  - by apply reachable_setup.
  - by eapply loop_reachable.
Qed.

(** A property of the states between two rounds of [loop] is shown on
    [setup] and on the four things a round is made of. *)
Lemma runs_invariant sk (P : state -> Prop) :
  (forall st, setup E sk (init sk) = Some (tt, st) -> P st) ->
  (forall st, reachable E sk st -> P st -> P (log (EvBoard M5_update) st)) ->
  (forall st fuel steps st1 st',
     reachable E sk st -> P st ->
     steps = steps_per_press sk \/ steps = - steps_per_press sk ->
     moveBothMotors E sk fuel steps st = Some (tt, st1) ->
     drawStatus sk st1 = Some (tt, st') ->
     P st') ->
  (forall st upd st',
     reachable E sk st -> P st ->
     updateSpeed sk = Some upd -> upd st = Some (tt, st') ->
     P st') ->
  forall bs st, runs E sk bs st -> P st.
Proof.
  intros Hsetup Hbuttons Hpress Hupdate bs st Hruns.
  induction Hruns as [st Hs|bs st fuel b st' Hruns IH Hl]; [by apply Hsetup|].
  pose proof (runs_reachable _ _ _ Hruns) as Hr.
  pose proof (reachable_wf E sk st Hr) as Hwf.
  destruct (loop_steps sk fuel b st st' Hl) as (st1 & st2 & HA & HC & HB).
  assert (Hr0 : reachable E sk (log (EvBoard M5_update) st))
    by (by eapply (reachable_op E sk st fuel OpButtons)).
  pose proof (Hbuttons st Hr IH) as H0.
  assert (Hstep : forall c steps sa sb,
            reachable E sk sa -> P sa ->
            steps = steps_per_press sk \/ steps = - steps_per_press sk ->
            pressed E sk fuel c steps sa sb ->
            reachable E sk sb /\ P sb).
  { intros c steps sa sb Hra Hpa Hsteps Hpr.
    destruct (pressed_inv sk fuel c steps sa sb (reachable_wf E sk sa Hra) Hpr)
      as (_ & _ & _ & _ & _ & _ & Hrb).
    split; [by apply Hrb|].
    unfold pressed in Hpr. destruct c; [|by subst].
    destruct Hpr as (m & Hm & Hd). by eapply (Hpress sa fuel steps m sb). }
  destruct (press_steps_eq sk st (proj2 (reachable_settings E sk st Hr)))
    as (HsA & _).
  destruct (Hstep _ _ _ _ Hr0 H0 (or_introl HsA) HA) as (Hr1 & H1).
  destruct (press_steps_eq sk st1 (proj2 (reachable_settings E sk st1 Hr1)))
    as (_ & HsC).
  destruct (Hstep _ _ _ _ Hr1 H1 (or_intror HsC) HC) as (Hr2 & H2).
  unfold cycled in HB. destruct (updateSpeed sk) as [upd|] eqn:Hu; [|by subst].
  destruct (BtnB b); [|by subst].
  by eapply (Hupdate st2 upd st').
Qed.
End LoopRounds.

(** ** The counters, cell by cell *)

Lemma add_where_configured_lookup sp steps pc i :
  length sp = 2%nat -> length pc = 2%nat ->
  (forall s, sp !! i = Some (Some s) ->
     add_where_configured sp steps pc !!! i = wrap_long (pc !!! i + steps)) /\
  (sp !! i = Some None -> add_where_configured sp steps pc !!! i = pc !!! i).
Proof.
  intros Hs Hp.
  destruct sp as [|s0 [|s1 [|]]]; try discriminate.
  destruct pc as [|p0 [|p1 [|]]]; try discriminate.
  split; [intros s|]; intros Hi; destruct i as [|[|i]]; simpl in Hi;
    try discriminate; simplify_eq; reflexivity.
Qed.

Lemma counts_after_lookup sk st c steps pc i :
  length (steppers st) = 2%nat -> length pc = 2%nat ->
  length (counts_after sk st c steps pc) = 2%nat /\
  (configured st i ->
     counts_after sk st c steps pc !!! i =
     if c && moves sk st then wrap_long (pc !!! i + steps) else pc !!! i) /\
  (steppers st !! i = Some None -> counts_after sk st c steps pc !!! i = pc !!! i).
Proof.
  intros Hs Hp. unfold counts_after.
  destruct (add_where_configured_lookup (steppers st) steps pc i Hs Hp) as [Hc Hn].
  destruct (c && moves sk st).
  - split; [by apply add_where_configured_length|].
    split; [intros [s Hi]; by apply (Hc s)|done].
  - by repeat split.
Qed.

Lemma add_where_configured_back sp a b pc :
  length sp = 2%nat -> length pc = 2%nat ->
  Forall (in_range LONG_BITS) pc ->
  wrap_long (a + b) = 0 ->
  add_where_configured sp b (add_where_configured sp a pc) = pc.
Proof.
  intros Hs Hp Hr Hab.
  assert (Hback : forall p, in_range LONG_BITS p ->
                    wrap_long (wrap_long (p + a) + b) = p).
  { intros p Hin. rewrite wrap_long_add.
    replace (p + a + b) with (a + b + p) by lia.
    rewrite <- wrap_long_add, Hab. by apply wrap_long_id. }
  destruct sp as [|s0 [|s1 [|]]]; try discriminate.
  destruct pc as [|p0 [|p1 [|]]]; try discriminate.
  apply Forall_cons in Hr as [H0 Hr]. apply Forall_cons in Hr as [H1 _].
  destruct s0, s1; simpl; by rewrite ?Hback.
Qed.

Lemma moves_turns sk st : moves sk st = turns sk (currentSpeedIndex st).
Proof. by destruct sk. Qed.

Lemma whole_press_polls sk polls :
  Forall (fun c => is_poll c = true) polls -> Forall (whole_press sk) polls.
Proof.
  induction 1 as [|c polls Hc _ IH]; constructor; [|done].
  by destruct c.
Qed.

(** ** Stops, and the steps commanded *)

Lemma stops_checked_app cs1 : forall last cs2,
  stops_checked last (cs1 ++ cs2) =
  stops_checked last cs1 && stops_checked (speed_from last cs1) cs2.
Proof.
  induction cs1 as [|c cs1 IH]; intros last cs2; [done|].
  destruct c; simpl; try apply IH.
  by rewrite IH, andb_assoc.
Qed.

Lemma stops_checked_polls polls :
  Forall (fun c => is_poll c = true) polls ->
  forall last, stops_checked last polls = true.
Proof.
  induction 1 as [|c polls Hc _ IH]; intros last; [done|].
  destruct c; try discriminate. apply IH.
Qed.

Lemma stops_checked_sound cs : forall last,
  stops_checked last cs = true ->
  forall pre post,
    cs = pre ++ stopMove :: post -> speed_from last pre = Some 0.
Proof.
  induction cs as [|c cs IH]; intros last Hc pre post Heq.
  - by destruct pre.
  - destruct pre as [|c' pre]; simpl in Heq; inversion Heq; subst; clear Heq.
    + simpl in Hc. apply andb_true_iff in Hc as [Hv _].
      by apply bool_decide_eq_true in Hv.
    + change (speed_from last (c' :: pre)) with (speed_from (set_speed last c') pre).
      destruct c'; simpl in *; try (by eapply IH).
      apply andb_true_iff in Hc as [_ Hc]. by eapply IH.
Qed.

Lemma commanded_app cs1 cs2 :
  commanded (cs1 ++ cs2) = commanded cs1 + commanded cs2.
Proof.
  induction cs1 as [|c cs1 IH]; [done|]. destruct c; simpl; rewrite ?IH; lia.
Qed.

Lemma commanded_polls polls :
  Forall (fun c => is_poll c = true) polls -> commanded polls = 0.
Proof.
  induction 1 as [|c polls Hc _ IH]; [done|]. by destruct c.
Qed.

Lemma never_stops_polls polls :
  Forall (fun c => is_poll c = true) polls -> Forall (fun c => c <> stopMove) polls.
Proof.
  induction 1 as [|c polls Hc _ IH]; constructor; [|done].
  by destruct c.
Qed.

Section CallsInvariant.
Variable E : environment.

(** A property of the calls on a stepper that is not null is shown on
    the calls of [setup] and on those of one more operation. *)
Lemma reachable_calls_invariant sk (P : state -> list stepper_call -> Prop) i :
  (forall st, setup E sk (init sk) = Some (tt, st) -> configured st i ->
     P st (setup_calls sk i)) ->
  (forall st fuel o p st' polls,
     reachable E sk st -> configured st i ->
     run_op E sk fuel o = Some p -> p st = Some (tt, st') ->
     P st (calls_on i (trace st)) ->
     Forall (fun c => is_poll c = true) polls ->
     P st' (calls_on i (trace st) ++ op_calls sk o st st' ++ polls)) ->
  forall st, reachable E sk st -> configured st i -> P st (calls_on i (trace st)).
Proof.
  intros Hsetup Hstep st Hr.
  induction Hr as [st Hs|st fuel o p st' Hr IH Hrun Hp]; intros Hi.
  - destruct (setup_events E sk st Hs) as (Hc & _).
    rewrite (Hc i Hi). by apply Hsetup.
  - pose proof (reachable_wf E sk st Hr) as Hwf.
    destruct (run_op_inv E sk fuel o p st st' Hwf Hrun Hp) as (Hsp & _).
    assert (Hi' : configured st i) by (unfold configured in *; by rewrite <- Hsp).
    destruct (run_op_events E sk fuel o p st st' Hwf Hrun Hp)
      as (evs & Htr & Hcalls & _).
    destruct (Hcalls i Hi') as (polls & Hpolls & Hev).
    rewrite Htr, calls_on_app, Hev. by eapply Hstep; eauto.
Qed.
End CallsInvariant.

(** * The sketches as a whole *)

Section Extras.
Variable E : environment.

(** X1.  In every state a sketch can be in after [setup] and any
    operations, the speed last set on a stepper that is not null is the
    speed the sketch has selected (500 Hz in the two basic sketches,
    [speedLevels[currentSpeedIndex]] in the other two), and the
    acceleration last set on it is 500, in the last sketch
    [accelerationRate]. *)
Theorem steppers_follow_selection sk st i :
  reachable E sk st ->
  configured st i ->
  speed_after (calls_on i (trace st)) = Some (selected_speed sk st) /\
  acceleration_after (calls_on i (trace st)) = Some (selected_acceleration sk st).
Proof.
  intros Hr Hi. destruct (reachable_calls E sk st i Hr Hi) as (Hv & Ha & _).
  by split.
Qed.

(** X2.  In the two basic sketches and in the last sketch, no [move] is
    ever called on a stepper whose speed was not set, or was last set to
    0: every [move] among the calls on a stepper that is not null comes
    after a [setSpeedInHz] of a speed other than 0, with no
    [setSpeedInHz(0)] in between. *)
Theorem moves_only_at_speed sk st i :
  sk <> SkAdjSpeed ->
  reachable E sk st ->
  configured st i ->
  moves_at_speed (calls_on i (trace st)).
Proof.
  intros Hsk Hr Hi. destruct (reachable_calls E sk st i Hr Hi) as (_ & _ & Hm & _).
  intros pre s post Heq.
  exact (moves_checked_sound _ None (Hm Hsk) pre s post Heq).
Qed.

(** X3.  Every speed a sketch sets on a stepper is an entry of its
    [speedLevels], 500 Hz in the two basic sketches. *)
Theorem speeds_from_the_table sk st i :
  reachable E sk st ->
  configured st i ->
  Forall (speed_from_table sk) (calls_on i (trace st)).
Proof.
  intros Hr Hi. by destruct (reachable_calls E sk st i Hr Hi) as (_ & _ & _ & Ht).
Qed.

(** X4.  In the two sketches with [drawInstructions], after [setup] and
    any operations the speed last printed on the display is
    [speedPercentages[currentSpeedIndex]]; in the last sketch the
    revolutions and the acceleration last printed are
    [revolutionsPerMove] and [accelerationRate]. *)
Theorem instructions_shown sk st :
  reachable E sk st -> instructions_fresh sk st.
Proof. apply reachable_instructions. Qed.

(** X5.  The stepper pointers are assigned in [setup] and by nothing
    else: in every state a sketch can be in, [steppers[0]] and
    [steppers[1]] are what [stepperConnectToPin] returned for the X and
    for the Y step pin. *)
Theorem steppers_bound_once sk st :
  reachable E sk st ->
  steppers st = [stepperConnectToPin E X_STEP_PIN; stepperConnectToPin E Y_STEP_PIN].
Proof.
  induction 1 as [st Hs|st fuel o p st' Hr IH Hrun Hp].
  - destruct (setup_inv E sk) as (st0 & Hs0 & Hst & _).
    rewrite Hs0 in Hs. by inversion Hs; subst.
  - destruct (run_op_inv E sk fuel o p st st' (reachable_wf E sk st Hr) Hrun Hp)
      as (Hs & _).
    by rewrite Hs.
Qed.

(** X6.  After [setup] and any number of rounds of [loop], the counters
    last printed on the display are [pulseCounts[0]] and [pulseCounts[1]]
    as they are; only in the two basic sketches, whose [setup] does not
    call [drawStatus], the display may show no counter yet, and then both
    counters are 0. *)
Theorem status_shown sk bs st :
  runs E sk bs st ->
  status_fresh st \/
  (speedLevels sk = None /\ status_blank st /\ pulseCounts st = [0; 0]).
Proof.
  assert (Hkept : forall sa sb evs,
            trace sb = trace sa ++ evs ->
            (forall fmt last, In fmt ["X Pulses: %ld\n"; "Y Pulses: %ld\n"]%string ->
               fold_left (show fmt) evs last = last) ->
            pulseCounts sb = pulseCounts sa ->
            status_fresh sa \/
              (speedLevels sk = None /\ status_blank sa /\ pulseCounts sa = [0; 0]) ->
            status_fresh sb \/
              (speedLevels sk = None /\ status_blank sb /\ pulseCounts sb = [0; 0])).
  { intros sa sb evs Ht Hev Hp. unfold status_fresh, status_blank.
    rewrite Ht, Hp, !shown_app, !Hev by (simpl; auto). tauto. }
  intros Hruns.
  apply (runs_invariant E sk
           (fun st => status_fresh st \/
              (speedLevels sk = None /\ status_blank st /\ pulseCounts st = [0; 0])))
    with (bs := bs); [| | | |exact Hruns].
  - intros st0 Hs. destruct (setup_events E sk st0 Hs) as (_ & _ & _ & _ & Hst).
    destruct (setup_inv E sk) as (st1 & Hs1 & _ & Hp & _).
    rewrite Hs1 in Hs. inversion Hs; subst st1; clear Hs.
    destruct (speedLevels sk); [by left|by right].
  - intros st0 _ H0. by apply (Hkept st0 _ [EvBoard M5_update]).
  - intros st0 fuel steps m st1 Hr _ _ Hm Hd. left.
    destruct (drawStatus_inv sk m) as (st2 & Hd' & (_ & Hp & _) & Ht).
    rewrite Hd' in Hd. inversion Hd; subst st2; clear Hd.
    unfold status_fresh. rewrite Ht, Hp, !shown_app. by split.
  - intros st0 upd st1 Hr H0 Hu Hrun.
    pose proof (reachable_wf E sk st0 Hr) as Hwf.
    assert (Hop : run_op E sk 0 OpUpdateSpeed = Some upd) by exact Hu.
    destruct (run_op_inv E sk 0 OpUpdateSpeed upd st0 st1 Hwf Hop Hrun)
      as (_ & _ & _ & _ & Hp & _).
    destruct (run_op_events E sk 0 OpUpdateSpeed upd st0 st1 Hwf Hop Hrun)
      as (evs & Ht & _ & quiet & Hq & Hev).
    apply (Hkept st0 st1 evs Ht); [|exact Hp|exact H0].
    intros fmt last Hfmt. rewrite Hev, fold_left_app, (show_quiet fmt quiet Hq).
    destruct Hfmt as [<-|[<-|[]]]; by destruct sk.
Qed.

(** X7.  After [setup] and any number of rounds of [loop], every [move]
    that was called on a stepper is by the steps of one press of button
    A, forward or back: one revolution ([STEPS_PER_REV]), in the last
    sketch five. *)
Theorem moves_whole_presses sk bs st i :
  runs E sk bs st ->
  configured st i ->
  Forall (whole_press sk) (calls_on i (trace st)).
Proof.
  intros Hruns. revert i.
  apply (runs_invariant E sk
           (fun st => forall i, configured st i ->
                        Forall (whole_press sk) (calls_on i (trace st))))
    with (bs := bs); [| | | |exact Hruns].
  - intros st0 Hs i Hi. destruct (setup_events E sk st0 Hs) as (Hc & _).
    rewrite (Hc i Hi). unfold setup_calls. each_call.
  - intros st0 _ H0 i Hi. simpl. rewrite calls_on_app, app_nil_r. by apply H0.
  - intros st0 fuel steps m st1 Hr H0 Hsteps Hm Hd i Hi.
    pose proof (reachable_wf E sk st0 Hr) as Hwf.
    destruct (run_op_inv E sk fuel (OpMove steps) _ st0 m Hwf eq_refl Hm)
      as (Hs & _).
    destruct (run_op_events E sk fuel (OpMove steps) _ st0 m Hwf eq_refl Hm)
      as (evs & Ht & Hcalls & _).
    destruct (drawStatus_inv sk m) as (st2 & Hd' & (Hs' & _) & Ht').
    rewrite Hd' in Hd. inversion Hd; subst st2; clear Hd.
    assert (Hi0 : configured st0 i)
      by (unfold configured in *; by rewrite <- Hs, <- Hs').
    destruct (Hcalls i Hi0) as (polls & Hpolls & Hev).
    rewrite Ht', Ht, !calls_on_app, Hev.
    rewrite (calls_on_no_stepper_call (status_events sk m) i)
      by apply (no_stepper_call_prints sk 0 m).
    rewrite app_nil_r, !Forall_app. split; [by apply H0|].
    split; [|by apply whole_press_polls].
    simpl. destruct (moves sk st0); [destruct sk|]; each_call; done.
  - intros st0 upd st1 Hr H0 Hu Hrun i Hi.
    pose proof (reachable_wf E sk st0 Hr) as Hwf.
    assert (Hop : run_op E sk 0 OpUpdateSpeed = Some upd) by exact Hu.
    destruct (run_op_inv E sk 0 OpUpdateSpeed upd st0 st1 Hwf Hop Hrun)
      as (Hs & _).
    destruct (run_op_events E sk 0 OpUpdateSpeed upd st0 st1 Hwf Hop Hrun)
      as (evs & Ht & Hcalls & _).
    assert (Hi0 : configured st0 i) by (unfold configured in *; by rewrite <- Hs).
    destruct (Hcalls i Hi0) as (polls & Hpolls & Hev).
    rewrite Ht, !calls_on_app, Hev, !Forall_app.
    split; [by apply H0|]. split; [|by apply whole_press_polls].
    simpl. destruct sk; simpl; try case_decide; each_call.
Qed.

(** X8.  After [setup] and any number of rounds of [loop],
    [currentSpeedIndex] is the number of rounds in which button B was
    clicked, modulo the six speed levels; in the two basic sketches,
    which have no button B, it stays 0. *)
Theorem speed_index_counts_B sk bs st :
  runs E sk bs st ->
  currentSpeedIndex st =
    match speedLevels sk with
    | Some _ => presses BtnB bs mod 6
    | None => 0
    end.
Proof.
  induction 1 as [st Hs|bs st fuel b st' Hruns IH Hl].
  - destruct (setup_inv E sk) as (st0 & Hs0 & _ & _ & Hidx).
    rewrite Hs0 in Hs. inversion Hs; subst st0. rewrite Hidx. by destruct sk.
  - pose proof (runs_reachable E _ _ _ Hruns) as Hr.
    destruct (loop_globals E sk fuel b st st' (reachable_wf E sk st Hr) Hl)
      as (_ & _ & _ & _ & Hi & _).
    rewrite Hi. destruct (speedLevels sk); [|exact IH].
    rewrite presses_app. simpl. destruct (BtnB b).
    + rewrite next_index_mod by exact (reachable_index_6 E sk st Hr).
      rewrite IH, Z.add_0_r. apply Zplus_mod_idemp_l.
    + by rewrite IH, !Z.add_0_r.
Qed.

(** X9.  The counters depend on the buttons alone, not on the libraries:
    after [setup] and any number of rounds of [loop], the counter of a
    stepper that is not null is, wrapped to a [long], the steps of one
    press times the presses of A less the presses of C, where in the
    last sketch only the presses that found a speed other than 0 count;
    the counter of a null stepper is 0. *)
Theorem counters_from_buttons sk bs st i :
  runs E sk bs st ->
  (configured st i ->
   pulseCounts st !!! i = wrap_long (steps_per_press sk * (history sk bs).2)) /\
  (steppers st !! i = Some None -> pulseCounts st !!! i = 0).
Proof.
  intros Hruns.
  enough (Hh : currentSpeedIndex st = (history sk bs).1 /\
               (configured st i ->
                pulseCounts st !!! i =
                wrap_long (steps_per_press sk * (history sk bs).2)) /\
               (steppers st !! i = Some None -> pulseCounts st !!! i = 0))
    by apply Hh.
  induction Hruns as [st Hs|bs st fuel b st' Hruns IH Hl].
  - destruct (setup_inv E sk) as (st0 & Hs0 & Hst & Hp & Hidx).
    rewrite Hs0 in Hs. inversion Hs; subst st0; clear Hs.
    split; [exact Hidx|]. rewrite Hp, Z.mul_0_r. unfold configured. rewrite Hst.
    split; [intros [s Hi]|intros Hi]; destruct i as [|[|i]]; simpl in Hi;
      try discriminate; reflexivity.
  - pose proof (runs_reachable E _ _ _ Hruns) as Hr.
    pose proof (reachable_wf E sk st Hr) as Hwf. pose proof Hwf as [Hls Hlp].
    destruct (loop_globals E sk fuel b st st' Hwf Hl)
      as (_ & Hs & _ & _ & Hi & Hp).
    destruct (press_steps_eq sk st (proj2 (reachable_settings E sk st Hr)))
      as (HsA & HsC).
    destruct IH as (IHi & IHc & IHn).
    unfold history in *. rewrite fold_left_app. simpl.
    set (h := fold_left (round sk) bs (0, 0)) in *.
    rewrite HsA, HsC in Hp.
    destruct (counts_after_lookup sk st (BtnA b) (steps_per_press sk)
                (pulseCounts st) i Hls Hlp) as (HlA & HcA & HnA).
    destruct (counts_after_lookup sk st (BtnC b) (- steps_per_press sk)
                _ i Hls HlA) as (_ & HcC & HnC).
    split; [|split].
    + rewrite Hi, IHi. destruct (speedLevels sk); [|done].
      destruct (BtnB b); [|done].
      apply next_index_mod. rewrite <- IHi. exact (reachable_index_6 E sk st Hr).
    + intros Hc. assert (Hc0 : configured st i)
        by (unfold configured in *; by rewrite <- Hs).
      rewrite Hp, (HcC Hc0), (HcA Hc0), (IHc Hc0), moves_turns, IHi.
      generalize (steps_per_press sk) (h.2). intros N n.
      destruct (turns sk h.1), (BtnA b), (BtnC b); simpl;
        rewrite ?wrap_long_add, <- ?Z.add_assoc, ?wrap_long_add; f_equal; lia.
    + intros Hn. rewrite Hs in Hn. by rewrite Hp, (HnC Hn), (HnA Hn), (IHn Hn).
Qed.

(** X10.  [moveBothMotors(steps)] followed by [moveBothMotors(-steps)]
    leaves every counter where it was, also where the first call took a
    counter past the end of a [long]. *)
Theorem moveBothMotors_there_and_back sk fuel fuel' steps st st1 st2 :
  wf st ->
  Forall (in_range LONG_BITS) (pulseCounts st) ->
  moveBothMotors E sk fuel steps st = Some (tt, st1) ->
  moveBothMotors E sk fuel' (- steps) st1 = Some (tt, st2) ->
  pulseCounts st2 = pulseCounts st.
Proof.
  intros Hwf Hin H1 H2. pose proof Hwf as [Hls Hlp].
  destruct (run_op_inv E sk fuel (OpMove steps) _ st st1 Hwf eq_refl H1)
    as (Hs1 & _ & _ & _ & Hi1 & Hp1).
  pose proof (run_op_wf E sk fuel (OpMove steps) _ st st1 Hwf eq_refl H1) as Hwf1.
  destruct (run_op_inv E sk fuel' (OpMove (- steps)) _ st1 st2 Hwf1 eq_refl H2)
    as (_ & _ & _ & _ & _ & Hp2).
  assert (Hv : SpdRevAccel.speed st1 = SpdRevAccel.speed st)
    by (unfold SpdRevAccel.speed; by rewrite Hi1).
  rewrite Hp2, Hp1, Hs1, Hv.
  destruct (decide (sk = SkSpdRevAccel /\ SpdRevAccel.speed st = 0)); [done|].
  apply add_where_configured_back; try done.
  by rewrite Z.add_opp_diag_r.
Qed.

(** X11.  The wait of [moveBothMotors] has no time limit: when the
    library keeps answering that a stepper that is not null is running,
    a call that issues the move does not return, however many rounds
    [fuel] of the wait loop it is given. *)
Theorem moveBothMotors_waits_for_ever sk fuel steps st i :
  (forall tr, lib_isRunning E i tr = true) ->
  wf st ->
  configured st i ->
  moves sk st = true ->
  moveBothMotors E sk fuel steps st = None.
Proof.
  intros Hbusy Hwf Hi Hm.
  destruct (moveBothMotors E sk fuel steps st) as [[[] st']|] eqn:H; [|done].
  exfalso.
  destruct (moveBothMotors_moved E sk fuel steps st st' Hwf
              (speedLevel_moves sk st Hm) H)
    as (_ & _ & _ & _ & _ & rounds & _ & _ & _ & Hidle).
  destruct (Hidle i Hi) as (tr & Hr & _).
  by rewrite Hbusy in Hr.
Qed.
(** X13.  What the display says is what the steppers get: in the two
    sketches with a speed table, after [setup] and any operations, the
    speed last set on a stepper that is not null is the percentage last
    printed on the display, taken of the last entry of [speedLevels]. *)
Theorem display_matches_stepper sk st i :
  speedLevels sk <> None ->
  reachable E sk st ->
  configured st i ->
  exists pct,
    shown "Speed: %d%%\n" (trace st) = Some pct /\
    speed_after (calls_on i (trace st)) = Some (top_speed sk * pct / 100).
Proof.
  intros Hsk Hr Hi.
  destruct (reachable_calls E sk st i Hr Hi) as (Hv & _).
  pose proof (reachable_instructions E sk st Hr) as Hf.
  pose proof (reachable_index_6 E sk st Hr) as Hidx.
  rewrite Hv. unfold instructions_fresh in Hf.
  assert (Hcases : currentSpeedIndex st = 0 \/ currentSpeedIndex st = 1 \/
                   currentSpeedIndex st = 2 \/ currentSpeedIndex st = 3 \/
                   currentSpeedIndex st = 4 \/ currentSpeedIndex st = 5) by lia.
  destruct sk; try done; [|destruct Hf as (Hf & _)];
    eexists; (split; [exact Hf|]); simpl; unfold SpdRevAccel.speed;
    destruct Hcases as [->|[->|[->|[->|[->| ->]]]]]; reflexivity.
Qed.

(** X14.  [pulseCounts] counts what was commanded: after [setup] and any
    operations, the counter of a stepper that is not null is the sum of
    the steps of all the [move]s called on it, wrapped to a [long]. *)
Theorem counter_counts_moves sk st i :
  reachable E sk st ->
  configured st i ->
  pulseCounts st !!! i = wrap_long (commanded (calls_on i (trace st))).
Proof.
  intros Hr Hi. revert st Hr Hi.
  apply (reachable_calls_invariant E sk
           (fun st cs => pulseCounts st !!! i = wrap_long (commanded cs))).
  - intros st Hs [s Hi].
    destruct (setup_inv E sk) as (st0 & Hs0 & Hst & Hp & _).
    rewrite Hs0 in Hs. inversion Hs; subst st0; clear Hs.
    rewrite Hp. rewrite Hst in Hi.
    destruct i as [|[|i]]; simpl in Hi; try discriminate; reflexivity.
  - intros st fuel o p st' polls Hr [s Hi] Hrun Hp IH Hpolls.
    pose proof (reachable_wf E sk st Hr) as Hwf. pose proof Hwf as [Hls Hlp].
    destruct (run_op_inv E sk fuel o p st st' Hwf Hrun Hp) as (_ & _ & _ & _ & Ho).
    rewrite !commanded_app, (commanded_polls polls Hpolls), Z.add_0_r.
    destruct o as [steps| | | |]; simpl in *.
    + destruct Ho as [_ Hpc]. rewrite Hpc.
      destruct (moves sk st) eqn:Hm.
      * apply moves_decide in Hm. case_decide; [done|].
        destruct (add_where_configured_lookup (steppers st) steps (pulseCounts st)
                    i Hls Hlp) as [Hc _].
        rewrite (Hc s Hi), IH, wrap_long_add. f_equal.
        destruct sk; simpl; lia.
      * case_decide as Hz; [|apply moves_decide in Hz; congruence].
        by rewrite IH, Z.add_0_r.
    + destruct Ho as [-> _]. rewrite IH. f_equal.
      destruct sk; simpl; try case_decide; simpl; lia.
    + destruct Ho as [-> _]. by rewrite IH, Z.add_0_r.
    + destruct Ho as [-> _]. by rewrite IH, Z.add_0_r.
    + destruct Ho as [-> _]. by rewrite IH, Z.add_0_r.
Qed.

(** X15.  A stepper is only stopped at speed 0: after [setup] and any
    operations, every [stopMove] among the calls on a stepper that is not
    null comes when the speed last set on it is 0; and the first three
    sketches never call [stopMove]. *)
Theorem stops_only_at_rest sk st i :
  reachable E sk st ->
  configured st i ->
  stops_at_rest (calls_on i (trace st)) /\
  (sk <> SkSpdRevAccel -> Forall (fun c => c <> stopMove) (calls_on i (trace st))).
Proof.
  intros Hr Hi.
  enough (Hc : stops_checked None (calls_on i (trace st)) = true /\
               (sk <> SkSpdRevAccel ->
                Forall (fun c => c <> stopMove) (calls_on i (trace st)))).
  { destruct Hc as [Hc Hn]. split; [|exact Hn].
    intros pre post Heq. exact (stops_checked_sound _ None Hc pre post Heq). }
  revert st Hr Hi.
  apply (reachable_calls_invariant E sk
           (fun st cs => stops_checked None cs = true /\
              (sk <> SkSpdRevAccel -> Forall (fun c => c <> stopMove) cs))).
  - intros st _ _. split; [done|]. intros _. unfold setup_calls. by each_call.
  - intros st fuel o p st' polls Hr Hi Hrun Hp [IHc IHn] Hpolls.
    destruct (reachable_calls E sk st i Hr Hi) as (Hv & _).
    unfold speed_after in Hv.
    split.
    + rewrite !stops_checked_app, IHc, Hv, (stops_checked_polls polls Hpolls).
      rewrite andb_true_r. simpl.
      destruct o as [steps| | | |]; simpl; try done.
      * destruct (moves sk st); [by destruct sk|done].
      * destruct sk; simpl; try done. by case_decide.
    + intros Hsk. rewrite !Forall_app.
      split; [by apply IHn|]. split; [|by apply never_stops_polls].
      destruct o as [steps| | | |]; simpl; try by each_call.
      * destruct (moves sk st) eqn:Hm; [destruct sk; by each_call|].
        by destruct sk.
      * destruct sk; try done; by each_call.
Qed.
End Extras.

(** ** A round of [loop] comes to its end *)

Lemma rest_time_snoc tr e : rest_time (tr ++ [e]) = rest_step (rest_time tr) e.
Proof. unfold rest_time. by rewrite fold_left_app. Qed.

Lemma bind_returns {A B} (m : prog A) (k : A -> prog B) st a st1 r :
  m st = Some (a, st1) -> k a st1 = Some r -> bind m k st = Some r.
Proof. intros Hm Hk. unfold bind. by rewrite Hm. Qed.

Section ComesToRest.
Variable E : environment.
Variable n : nat.
Hypothesis Hrest : comes_to_rest E n.

Lemma wait_idle_returns fuel : forall st,
  wf st ->
  (n <= rest_time (trace st) + fuel)%nat ->
  exists st', wait_idle E fuel st = Some (tt, st') /\ same_globals st st'.
Proof.
  induction fuel as [|fuel IH]; intros st Hwf Hn; rewrite wait_idle_unfold.
  - assert (Hidle : forall i tr, (rest_time (trace st) <= rest_time tr)%nat ->
                      lib_isRunning E i tr = false)
      by (intros i tr Hle; apply Hrest; lia).
    wf_state st Hwf. unfold any_running, stepper_running, call_isRunning.
    step_prog.
    destruct s0, s1; simpl; rewrite ?Hidle by done; simpl;
      rewrite ?Hidle by (by rewrite rest_time_snoc); simpl;
      eexists; (split; [reflexivity|]); by repeat split.
  - destruct (any_running E st) as [[r st1]|] eqn:Hc.
    2: { exfalso. wf_state st Hwf.
         unfold any_running, stepper_running, call_isRunning in Hc. step_prog.
         destruct s0, s1; simpl in Hc;
           repeat (destruct (lib_isRunning E _ _); simpl in Hc); discriminate. }
    destruct (any_running_inv E st r st1 Hwf Hc) as (Hg & evs & Ht & Hr).
    destruct r; [|by exists st1].
    assert (Hg' : same_globals st (log (EvDelay 10) st1))
      by (eapply same_globals_trans; [exact Hg|apply same_globals_log]).
    destruct (IH (log (EvDelay 10) st1)) as (st' & Hw & Hg2).
    + by apply (same_globals_wf st).
    + simpl. rewrite rest_time_snoc, Ht. simpl.
      assert (Hpolls : rest_time (trace st ++ evs) = rest_time (trace st)).
      { unfold rest_time. rewrite fold_left_app.
        destruct Hr as [s Hs|s Hs]; unfold check_on;
          [|destruct (steppers st !!! 0%nat)]; reflexivity. }
      rewrite Hpolls. lia.
    + exists st'. split; [exact Hw|]. by eapply same_globals_trans.
Qed.

Lemma moveBothMotors_returns sk steps st :
  wf st ->
  exists st', moveBothMotors E sk n steps st = Some (tt, st') /\ wf st'.
Proof.
  intros Hwf.
  destruct (moves sk st) eqn:Hm.
  - assert (Hw : forall s, wf s -> exists s', wait_idle E n s = Some (tt, s') /\ wf s').
    { intros s Hs. destruct (wait_idle_returns n s Hs) as (s' & Hw & Hg); [lia|].
      exists s'. split; [done|]. by apply (same_globals_wf s). }
    pose proof (speedLevel_moves sk st Hm) as Hv.
    wf_state st Hwf.
    destruct sk; unfold moveBothMotors, Basic.moveBothMotors,
      AdjSpeed.moveBothMotors, SpdRevAccel.moveBothMotors; step_prog.
    4: destruct (decide _) as [e|_]; [by destruct Hv|].
    all: destruct s0, s1; simpl.
    all: match goal with
         | |- context [wait_idle ?e ?f ?s] =>
             destruct (Hw s) as (s' & -> & Hs'); [by split|]
         end.
    all: eexists; split; [reflexivity|]; destruct s'; exact Hs'.
  - destruct sk; try discriminate. simpl in Hm.
    apply bool_decide_eq_false in Hm.
    assert (Hz : SpdRevAccel.speed st = 0)
      by (destruct (decide (SpdRevAccel.speed st = 0)); [done|by destruct Hm]).
    destruct (moveBothMotors_stopped E n steps st Hwf Hz) as (st' & Hrun & Hg & _).
    exists st'. split; [exact Hrun|]. by apply (same_globals_wf st).
Qed.

Lemma pressed_returns sk c steps st :
  wf st ->
  exists st',
    when c (moveBothMotors E sk n steps ;; drawStatus sk) st = Some (tt, st') /\
    wf st'.
Proof.
  intros Hwf. destruct c; simpl; [|by exists st].
  destruct (moveBothMotors_returns sk steps st Hwf) as (m & Hm & Hwfm).
  destruct (drawStatus_inv sk m) as (st' & Hd & Hg & _).
  exists st'. split; [by apply (bind_returns _ _ st tt m)|].
  by apply (same_globals_wf m).
Qed.

Lemma cycled_returns sk upd c st :
  wf st ->
  updateSpeed sk = Some upd ->
  exists st', when c upd st = Some (tt, st').
Proof.
  intros Hwf Hu. destruct c; simpl; [|by exists st].
  destruct (updateSpeed_inv sk upd st Hwf Hu) as (k & st' & _ & Hrun & _).
  by exists st'.
Qed.
End ComesToRest.

(** X12.  With a library that answers that a stepper is not running
    once [n] [delay]s have passed without a new [move], every round of
    [loop] returns, whatever the buttons, and none of its wait loops takes
    more than [n] rounds. *)
Theorem loop_returns E sk n b st :
  comes_to_rest E n ->
  wf st ->
  exists st', loop E sk n b st = Some (tt, st').
Proof.
  intros Hrest Hwf. destruct b as [bA bB bC].
  assert (Hwf0 : wf (log (EvBoard M5_update) st)) by exact Hwf.
  destruct (pressed_returns E n Hrest sk bA (press_steps sk st) _ Hwf0)
    as (st1 & H1 & Hwf1).
  destruct (pressed_returns E n Hrest sk bC (press_steps_back sk st1) _ Hwf1)
    as (st2 & H2 & Hwf2).
  destruct sk; unfold loop, Basic.loop, AdjSpeed.loop, SpdRevAccel.loop.
  1-2: exists st2; eapply bind_returns; [reflexivity|];
         eapply bind_returns; [exact H1|exact H2].
  - destruct (cycled_returns SkAdjSpeed _ bB st2 Hwf2 eq_refl) as (st3 & H3).
    exists st3. eapply bind_returns; [reflexivity|].
    eapply bind_returns; [exact H1|].
    eapply bind_returns; [exact H2|exact H3].
  - destruct (cycled_returns SkSpdRevAccel _ bB st2 Hwf2 eq_refl) as (st3 & H3).
    exists st3. eapply bind_returns; [reflexivity|].
    eapply bind_returns; [destruct bA; exact H1|].
    eapply bind_returns; [destruct bC; exact H2|exact H3].
Qed.

(** The library [E_x_only] brings a stepper to rest in three [delay]s. *)
Lemma rest_time_delays i tr : forall acc r k,
  (forall a, acc = Some a -> (r <= a)%nat) ->
  delays_since_move i acc tr = Some k ->
  (fold_left rest_step tr r <= k)%nat.
Proof.
  induction tr as [|e tr IH]; intros acc r k Hacc Hk; simpl in *.
  - by apply Hacc.
  - destruct e as [j c|d| | | |]; try destruct c; simpl in *;
      (eapply IH; [|exact Hk]); try exact Hacc.
    + intros a Ha. lia.
    + intros a Ha. case_decide; [discriminate|by apply Hacc].
    + intros a Ha. destruct acc as [a0|]; [|discriminate].
      inversion Ha; subst. specialize (Hacc a0 eq_refl). lia.
Qed.

Lemma E_x_only_comes_to_rest : comes_to_rest E_x_only 3.
Proof.
  intros i tr Hn. simpl.
  destruct (delays_since_move i None tr) as [k|] eqn:Hk; [|done].
  apply bool_decide_eq_false.
  pose proof (rest_time_delays i tr None O k) as Hle.
  unfold rest_time in Hn. specialize (Hle ltac:(discriminate) Hk). lia.
Qed.

(** ** The theorems at work on concrete rounds *)

Lemma play_runs E sk fuel bs : forall bs0 st0 st,
  runs E sk bs0 st0 ->
  play E sk fuel bs st0 = Some st ->
  runs E sk (bs0 ++ bs) st.
Proof.
  induction bs as [|b bs IH]; intros bs0 st0 st Hr Hp; simpl in Hp.
  - inversion Hp; subst. by rewrite app_nil_r.
  - destruct (loop E sk fuel b st0) as [[[] st1]|] eqn:Hl; [|discriminate].
    replace (bs0 ++ b :: bs) with ((bs0 ++ [b]) ++ bs) by (by rewrite <- app_assoc).
    eapply IH; [|exact Hp]. by eapply runs_loop.
Defined.

Lemma played_runs E sk fuel bs :
  is_Some (play E sk fuel bs (result (setup E sk) (init sk))) ->
  runs E sk bs (played E sk fuel bs).
Proof.
  destruct (setup_inv E sk) as (st0 & Hs & _).
  unfold played, result. rewrite Hs. intros [st Hp]. rewrite Hp. simpl.
  apply (play_runs E sk fuel bs [] st0 st); [by apply runs_setup|exact Hp].
Defined.

Lemma st_played_runs :
  runs E_idle SkSpdRevAccel
    [click_B; click_A; click_A; mkButtons false true true] st_played.
Proof. apply played_runs. eexists. vm_compute. reflexivity. Defined.

Lemma st_played_reachable : reachable E_idle SkSpdRevAccel st_played.
Proof. exact (runs_reachable _ _ _ _ st_played_runs). Defined.

Lemma st_basic_runs : runs E_x_only SkBasic [click_A; click_A; click_C] st_basic.
Proof. apply played_runs. eexists. vm_compute. reflexivity. Defined.

Lemma st_basic_reachable : reachable E_x_only SkBasic st_basic.
Proof. exact (runs_reachable _ _ _ _ st_basic_runs). Defined.

(** The third round of [st_played] left the X stepper at 3200 Hz, the
    speed of index 2. *)
Lemma steppers_follow_selection_witness :
  speed_after (calls_on 0 (trace st_played)) =
    Some (selected_speed SkSpdRevAccel st_played) /\
  acceleration_after (calls_on 0 (trace st_played)) =
    Some (selected_acceleration SkSpdRevAccel st_played).
Proof.
  apply (steppers_follow_selection E_idle SkSpdRevAccel st_played 0).
  - exact st_played_reachable.
  - exists (StepperOnPin X_STEP_PIN). vm_compute. reflexivity.
Defined.

Lemma moves_only_at_speed_witness :
  moves_at_speed (calls_on 1 (trace st_played)).
Proof.
  apply (moves_only_at_speed E_idle SkSpdRevAccel st_played 1).
  - discriminate.
  - exact st_played_reachable.
  - exists (StepperOnPin Y_STEP_PIN). vm_compute. reflexivity.
Defined.

Lemma speeds_from_the_table_witness :
  Forall (speed_from_table SkSpdRevAccel) (calls_on 0 (trace st_played)).
Proof.
  apply (speeds_from_the_table E_idle SkSpdRevAccel st_played 0).
  - exact st_played_reachable.
  - exists (StepperOnPin X_STEP_PIN). vm_compute. reflexivity.
Defined.

Lemma instructions_shown_witness : instructions_fresh SkSpdRevAccel st_played.
Proof.
  apply (instructions_shown E_idle SkSpdRevAccel st_played).
  exact st_played_reachable.
Defined.

(** With the library that binds the X stepper only. *)
Lemma steppers_bound_once_witness :
  steppers st_basic =
  [stepperConnectToPin E_x_only X_STEP_PIN; stepperConnectToPin E_x_only Y_STEP_PIN].
Proof.
  apply (steppers_bound_once E_x_only SkBasic st_basic).
  exact st_basic_reachable.
Defined.

Lemma status_shown_witness :
  status_fresh st_basic \/
  (speedLevels SkBasic = None /\ status_blank st_basic /\ pulseCounts st_basic = [0; 0]).
Proof.
  apply (status_shown E_x_only SkBasic [click_A; click_A; click_C] st_basic).
  exact st_basic_runs.
Defined.

Lemma moves_whole_presses_witness :
  Forall (whole_press SkSpdRevAccel) (calls_on 0 (trace st_played)).
Proof.
  apply (moves_whole_presses E_idle SkSpdRevAccel
           [click_B; click_A; click_A; mkButtons false true true] st_played 0).
  - exact st_played_runs.
  - exists (StepperOnPin X_STEP_PIN). vm_compute. reflexivity.
Defined.

Lemma speed_index_counts_B_witness :
  currentSpeedIndex st_played =
    match speedLevels SkSpdRevAccel with
    | Some _ =>
        presses BtnB [click_B; click_A; click_A; mkButtons false true true] mod 6
    | None => 0
    end.
Proof.
  apply (speed_index_counts_B E_idle SkSpdRevAccel
           [click_B; click_A; click_A; mkButtons false true true] st_played).
  exact st_played_runs.
Defined.

Lemma counters_from_buttons_witness :
  (configured st_played 0 ->
   pulseCounts st_played !!! 0%nat =
   wrap_long (steps_per_press SkSpdRevAccel *
              (history SkSpdRevAccel
                 [click_B; click_A; click_A; mkButtons false true true]).2)) /\
  (steppers st_played !! 0%nat = Some None -> pulseCounts st_played !!! 0%nat = 0).
Proof.
  apply (counters_from_buttons E_idle SkSpdRevAccel
           [click_B; click_A; click_A; mkButtons false true true] st_played 0).
  exact st_played_runs.
Defined.

(** From [st_full], where both counters are at the end of a [long]: one
    step on takes them to the other end, one step back returns them. *)
Lemma moveBothMotors_there_and_back_witness :
  let st1 := result (moveBothMotors E_idle SkSpdRevAccel 0 1) st_full in
  let st2 := result (moveBothMotors E_idle SkSpdRevAccel 0 (- 1)) st1 in
  pulseCounts st2 = pulseCounts st_full.
Proof.
  intros st1 st2.
  apply (moveBothMotors_there_and_back E_idle SkSpdRevAccel 0 0 1 st_full st1 st2).
  - split; reflexivity.
  - repeat first [apply Forall_nil_2 | apply Forall_cons_2];
      vm_compute; (split; [discriminate|reflexivity]).
  - vm_compute. reflexivity.
  - vm_compute. reflexivity.
Defined.

(** A thousand rounds of the wait loop, ten seconds, and no return. *)
Lemma moveBothMotors_waits_for_ever_witness :
  moveBothMotors E_busy SkBasic 1000 200 st_busy = None.
Proof.
  apply (moveBothMotors_waits_for_ever E_busy SkBasic 1000 200 st_busy 0).
  - intros tr. reflexivity.
  - split; reflexivity.
  - exists (StepperOnPin X_STEP_PIN). reflexivity.
  - reflexivity.
Defined.

(** What the rounds of [st_played] and of [st_basic] come to. *)
Example st_played_values :
  currentSpeedIndex st_played = 2 /\
  pulseCounts st_played = [16000; 16000] /\
  history SkSpdRevAccel [click_B; click_A; click_A; mkButtons false true true] = (2, 1) /\
  speed_after (calls_on 0 (trace st_played)) = Some 3200 /\
  shown "Speed: %d%%\n" (trace st_played) = Some 40 /\
  shown "X Pulses: %ld\n" (trace st_played) = Some 16000 /\
  pulseCounts st_basic = [200; 0].
Proof. vm_compute. repeat split. Qed.

Lemma loop_returns_witness :
  exists st', loop E_x_only SkBasic 3 click_A st_basic = Some (tt, st').
Proof.
  apply (loop_returns E_x_only SkBasic 3 click_A st_basic).
  - exact E_x_only_comes_to_rest.
  - split; reflexivity.
Defined.

Lemma display_matches_stepper_witness :
  exists pct,
    shown "Speed: %d%%\n" (trace st_played) = Some pct /\
    speed_after (calls_on 1 (trace st_played)) =
      Some (top_speed SkSpdRevAccel * pct / 100).
Proof.
  apply (display_matches_stepper E_idle SkSpdRevAccel st_played 1).
  - discriminate.
  - exact st_played_reachable.
  - exists (StepperOnPin Y_STEP_PIN). vm_compute. reflexivity.
Defined.

Lemma counter_counts_moves_witness :
  pulseCounts st_basic !!! 0%nat =
  wrap_long (commanded (calls_on 0 (trace st_basic))).
Proof.
  apply (counter_counts_moves E_x_only SkBasic st_basic 0).
  - exact st_basic_reachable.
  - exists (StepperOnPin X_STEP_PIN). vm_compute. reflexivity.
Defined.

(** [st_setup] after a press of A at speed 0, which stops both steppers. *)
Lemma stops_only_at_rest_witness :
  let st := result (loop E_idle SkSpdRevAccel 0 click_A) st_setup in
  stops_at_rest (calls_on 0 (trace st)) /\
  (SkSpdRevAccel <> SkSpdRevAccel ->
   Forall (fun c => c <> stopMove) (calls_on 0 (trace st))).
Proof.
  intros st.
  apply (stops_only_at_rest E_idle SkSpdRevAccel st 0).
  - apply (loop_reachable E_idle SkSpdRevAccel 0 click_A st_setup);
      [exact st_setup_reachable|vm_compute; reflexivity].
  - exists (StepperOnPin X_STEP_PIN). vm_compute. reflexivity.
Defined.
